(** * Index layer and tuple dictionary: a shallow embedding

    The development follows the sources of the box index module (the hash
    indexes, their iterator, the pass that builds the secondary keys), of
    the tuple dictionary and of [cluster_add_server].

    Part I is the model: the sources, function by function, with the parts
    of the repository they call and that are not among them modelled from
    the spec.  Methods that change their receiver are written in a small
    state-and-exception monad; C arrays are lists read with stdpp's lookup;
    a pointer is the list of the bytes found from it onwards.  Part II has
    the lemmas about the model, Part III the statements of the spec, Part IV
    further properties of the same code. *)

From Stdlib Require Import ZArith Lia.
From Stdlib Require Import Strings.String Strings.Ascii Strings.Byte.
From stdpp Require Import base option list strings gmap.

Local Open Scope Z_scope.

(** * Part I: the model *)

(** ** Control flow: exceptions, faults and the receiver's state *)

Module Ctl.

(** Error codes given to [ClientError]. *)
Inductive error_code : Type :=
  | ER_UNSUPPORTED
  | ER_NO_SUCH_FIELD
  | ER_SPACE_FIELD_IS_DUPLICATE.

(** The exception classes that [tnt_raise] is used with in the index module. *)
Inductive exception : Type :=
  | IllegalParams (msg : string)
  | ClientError (code : error_code) (arg : nat).

(** How a call ends: it returns, it raises, or the process ends in it
    ([Fault]): NULL or a place outside an array is dereferenced, a null
    function pointer is called, an assertion fails. *)
Inductive result (A : Type) : Type :=
  | Ok (a : A)
  | Raised (e : exception)
  | Fault.
Arguments Ok {A} a.
Arguments Raised {A} e.
Arguments Fault {A}.

(** A method of an object whose instance variables are [S]. *)
Definition M (S A : Type) : Type := S -> result A * S.

Definition ret {S A : Type} (a : A) : M S A := fun s => (Ok a, s).

Definition bind {S A B : Type} (m : M S A) (k : A -> M S B) : M S B :=
  fun s =>
    match m s with
    | (Ok a, s') => k a s'
    | (Raised e, s') => (Raised e, s')
    | (Fault, s') => (Fault, s')
    end.

Definition tnt_raise {S A : Type} (e : exception) : M S A :=
  fun s => (Raised e, s).

Definition fault {S A : Type} : M S A := fun s => (Fault, s).

Definition gets {S A : Type} (f : S -> A) : M S A := fun s => (Ok (f s), s).

Definition modify {S : Type} (f : S -> S) : M S unit := fun s => (Ok tt, f s).

(** Dereferencing a pointer that may be NULL. *)
Definition deref {S A : Type} (p : option A) : M S A :=
  match p with
  | Some a => ret a
  | None => fault
  end.

(** [assert(c)], assertions compiled in: the process ends where [c] fails. *)
Definition assert {S : Type} (c : bool) : M S unit :=
  if c then ret tt else fault.

(** The spec's [InvalidKeyType]: in the sources it is the [IllegalParams]
    exception. *)
Definition is_InvalidKeyType (e : exception) : bool :=
  match e with
  | IllegalParams _ => true
  | ClientError _ _ => false
  end.

End Ctl.
Export Ctl.

Notation "'do' x <- m ; k" := (bind m (fun x => k))
  (at level 10, x name, m at level 100, k at level 200).
Notation "'do_' m ; k" := (bind m (fun _ => k))
  (at level 10, m at level 100, k at level 200).

(** ** Bytes in memory: the key codec *)

Module Pickle.

Definition byte_val (b : byte) : Z := Z.of_N (Byte.to_N b).

Definition byte_of_Z (z : Z) : byte :=
  match Byte.of_N (Z.to_N (z mod 256)) with
  | Some b => b
  | None => x00
  end.

(** A non-null pointer is the list of the bytes found from it onwards.
    Where a read runs past the bytes the model holds, it reads 0. *)
Definition read_byte (p : list byte) (i : nat) : Z :=
  match p !! i with
  | Some b => byte_val b
  | None => 0
  end.

(** Modelled from the spec: [load_varint32] (pickle.h) is not among the
    sources; the spec has it decode "a length prefix (variable-width
    unsigned integer)" and advance the pointer past it.  Seven bits per
    byte, most significant group first, the top bit of a byte telling that
    another byte follows, at most five bytes. *)
Fixpoint load_varint32_from (n : nat) (acc : Z) (p : list byte) : Z * list byte :=
  match n, p with
  | S n', b :: rest =>
      let acc' := Z.lor (Z.shiftl acc 7) (Z.land (byte_val b) 127) in
      if Z.testbit (byte_val b) 7
      then load_varint32_from n' acc' rest
      else (acc' mod 2 ^ 32, rest)
  | _, _ => (acc mod 2 ^ 32, p)
  end.

(** Modelled from the spec: [load_varint32(&p)], the decoded length and
    the pointer past the prefix. *)
Definition load_varint32 (p : list byte) : Z * list byte :=
  load_varint32_from 5 0 p.

(** The inverse used to write length prefixes below 128. *)
Definition save_varint32_small (n : Z) : list byte := [byte_of_Z n].

(** [*(u32 * ) p]: four bytes, least significant first. *)
Definition load_u32 (p : list byte) : Z :=
  read_byte p 0 + 2 ^ 8 * read_byte p 1 + 2 ^ 16 * read_byte p 2
  + 2 ^ 24 * read_byte p 3.

(** [*(u64 * ) p]: eight bytes, least significant first. *)
Definition load_u64 (p : list byte) : Z :=
  load_u32 p + 2 ^ 32 * load_u32 (drop 4 p).

(** The bytes of a 32-bit and of a 64-bit integer in memory. *)
Definition store_u32 (v : Z) : list byte :=
  [byte_of_Z v; byte_of_Z (v / 2 ^ 8); byte_of_Z (v / 2 ^ 16);
   byte_of_Z (v / 2 ^ 24)].

Definition store_u64 (v : Z) : list byte :=
  store_u32 (v mod 2 ^ 32) ++ store_u32 (v / 2 ^ 32).

End Pickle.
Export Pickle.

(** ** Records *)

Module Tuple.

(** A record: its number of fields and the fields one after another, each
    a length prefix followed by that many bytes. *)
Record box_tuple : Type := mk_box_tuple {
  cardinality : nat;
  data : list byte
}.

(** Modelled from the spec: the walk of [tuple_field] over "a sequence of
    fields, each field a length-prefixed binary blob", from the field at [p]
    to the [i]-th after it. *)
Fixpoint tuple_field_from (p : list byte) (i : nat) : list byte :=
  match i with
  | O => p
  | S i' =>
      let '(size, q) := load_varint32 p in
      tuple_field_from (drop (Z.to_nat size) q) i'
  end.

(** Modelled from the spec: [tuple_field] (tuple.h) is not among the
    sources; the spec has a record accessor
    "field_at(record, field_number) -> bytes|absent".  The result points at
    the length prefix of the field, NULL when the record has no such
    field. *)
Definition tuple_field (tuple : box_tuple) (i : nat) : option (list byte) :=
  if decide (cardinality tuple <= i)%nat then None
  else Some (tuple_field_from (data tuple) i).

(** A record with one field of four, respectively eight, bytes. *)
Definition tuple_u32 (v : Z) : box_tuple :=
  {| cardinality := 1; data := save_varint32_small 4 ++ store_u32 v |}.

Definition tuple_u64 (v : Z) : box_tuple :=
  {| cardinality := 1; data := save_varint32_small 8 ++ store_u64 v |}.

End Tuple.
Export Tuple.

(** ** Hash tables *)

(** The open-addressing maps [mh_i32ptr], [mh_i64ptr], [mh_lstrptr] and
    [mh_strnu32] (mhash.h, assoc.h) are not among the sources.  The spec
    gives them "get(key) -> slot-or-absent; put(key, value) ->
    overwrite-or-insert; delete(slot); iterate from a given slot forward,
    skipping tombstoned/empty slots".  A table is its array of slots, a slot
    being empty or holding a key and a value.  The probe sequence and the
    rehashing are not modelled. *)
Module MHash.
Section Table.
Context {K V : Type} `{EqDecision K}.

Abbreviation slot := (option (K * V)).

Definition holds (k : K) (s : slot) : Prop := fst <$> s = Some k.

#[local] Instance holds_dec (k : K) (s : slot) : Decision (holds k s).
Proof. unfold holds. apply _. Defined.

(** Modelled from the spec: the table without entries, the first slot, and
    the slot past the last one, which is what [mh_get] answers for
    "absent". *)
Definition mh_init : list slot := [].
Definition mh_begin (h : list slot) : nat := 0.
Definition mh_end (h : list slot) : nat := length h.

(** Modelled from the spec: a slot is occupied, neither empty nor
    tombstoned. *)
Definition mh_exist (h : list slot) (i : nat) : bool :=
  match h !! i with
  | Some (Some _) => true
  | _ => false
  end.

(** Modelled from the spec: the value pointer of a slot; NULL where the
    slot holds nothing. *)
Definition mh_value (h : list slot) (i : nat) : option V :=
  match h !! i with
  | Some (Some (_, v)) => Some v
  | _ => None
  end.

(** Modelled from the spec: the number of the occupied slots. *)
Definition mh_size (h : list slot) : nat := length (omap id h).

(** Modelled from the spec: "get(key) -> slot-or-absent", the slot that
    holds the key, [mh_end] when no slot does. *)
Definition mh_get (h : list slot) (k : K) : nat :=
  match list_find (holds k) h with
  | Some (i, _) => i
  | None => mh_end h
  end.

(** Modelled from the spec: "delete(slot)". *)
Definition mh_del (h : list slot) (i : nat) : list slot := <[i := None]> h.

(** Modelled from the spec: "put(key, value) -> overwrite-or-insert".  The
    key goes to the slot that already holds it, else to the first empty
    slot, else to a new slot at the end. *)
Definition mh_put (h : list slot) (k : K) (v : V) : list slot :=
  match list_find (holds k) h with
  | Some (i, _) => <[i := Some (k, v)]> h
  | None =>
      match list_find (fun s : slot => s = None) h with
      | Some (j, _) => <[j := Some (k, v)]> h
      | None => h ++ [Some (k, v)]
      end
  end.

(** What a caller reads after [mh_get]: the value of the slot found, NULL
    when [mh_get] answered [mh_end]. *)
Definition mh_find (h : list slot) (k : K) : option V :=
  if decide (mh_get h k = mh_end h) then None else mh_value h (mh_get h k).

(** No key is held by two slots. *)
Definition mh_wf (h : list slot) : Prop :=
  forall i j k v v',
    h !! i = Some (Some (k, v)) -> h !! j = Some (Some (k, v')) -> i = j.

(** Deleting the slot of a key, when it has one: the sequence
    [k = mh_get(h, key); if (k != mh_end(h)) mh_del(h, k)] of the index
    methods. *)
Definition mh_del_key (h : list slot) (k : K) : list slot :=
  if decide (mh_get h k <> mh_end h) then mh_del h (mh_get h k) else h.

End Table.
End MHash.
Export MHash.

(** ** Key definitions and the instance variables every index has *)

Module KeyDef.

Inductive field_data_type : Type := NUM | NUM64 | STRING.
Inductive index_type : Type := HASH | TREE.

#[global] Instance index_type_eq_dec : EqDecision index_type.
Proof. solve_decision. Defined.

Record key_part : Type := mk_key_part {
  fieldno : nat;
  type : field_data_type
}.

(** [parts] is the C array of the key parts. *)
Record key_def : Type := mk_key_def {
  parts : list key_part
}.

(** [key_def.parts[0].fieldno] *)
Definition parts0_fieldno {S : Type} (kd : key_def) : M S nat :=
  do part <- deref (parts kd !! 0%nat); ret (fieldno part).

End KeyDef.
Export KeyDef.

(** ** Iterators over a hash index *)

Module Iterator.

(** The functions an iterator's [next] and [next_equal] pointers are set
    to in the sources, and the null pointer. *)
Inductive next_fn : Type :=
  | next_null
  | fn_hash_iterator_next.

Inductive next_equal_fn : Type :=
  | next_equal_null
  | fn_iterator_first_equal
  | fn_iterator_next_equal.

Record iterator : Type := mk_iterator {
  next : next_fn;
  next_equal : next_equal_fn
}.

(** What [hash_iterator_next] reads of a table through [mh_end],
    [mh_exist] and [mh_value]: its slots and the values in them.  The three
    tables have this in common, which the casts of [int64_hash] and
    [str_hash] to [struct mh_i32ptr_t *] rely on; the keys are out of
    sight.  The iterator is used while the index is not changed (spec,
    section 5), so it holds the slots as they are when it is positioned. *)
Definition erase_key {K : Type} (s : option (K * box_tuple))
  : option (unit * box_tuple) :=
  match s with
  | Some (_, v) => Some (tt, v)
  | None => None
  end.

Definition mh_view {K : Type} (h : list (option (K * box_tuple)))
  : list (option (unit * box_tuple)) :=
  map erase_key h.

Record hash_iterator : Type := mk_hash_iterator {
  base : iterator;
  hash : option (list (option (unit * box_tuple)));
  h_pos : nat
}.

Definition set_next (f : next_fn) (it : hash_iterator) : hash_iterator :=
  {| base := {| next := f; next_equal := next_equal (base it) |};
     hash := hash it; h_pos := h_pos it |}.

Definition set_next_equal (f : next_equal_fn) (it : hash_iterator) : hash_iterator :=
  {| base := {| next := next (base it); next_equal := f |};
     hash := hash it; h_pos := h_pos it |}.

Definition set_hash (h : list (option (unit * box_tuple))) (it : hash_iterator)
  : hash_iterator :=
  {| base := base it; hash := Some h; h_pos := h_pos it |}.

Definition set_h_pos (i : nat) (it : hash_iterator) : hash_iterator :=
  {| base := base it; hash := hash it; h_pos := i |}.

(** [assert(iterator->next = hash_iterator_next)]: the sources assign
    inside the assertion, so with assertions compiled in it stores the
    pointer and holds. *)
Definition assert_next : M hash_iterator unit :=
  modify (set_next fn_hash_iterator_next).

Definition iterator_next_equal : M hash_iterator (option box_tuple) :=
  ret None.

(** The loop of [hash_iterator_next]; [fuel] bounds the slots left to
    visit, and a position beyond [mh_end] reads outside the table. *)
Fixpoint hash_iterator_next_loop (fuel : nat) : M hash_iterator (option box_tuple) :=
  match fuel with
  | O => fault
  | S fuel' =>
      do it <- gets id;
      do h <- deref (hash it);
      if decide (h_pos it <> mh_end h) then
        if mh_exist h (h_pos it) then
          do_ modify (set_h_pos (S (h_pos it)));
          ret (mh_value h (h_pos it))
        else
          do_ modify (set_h_pos (S (h_pos it)));
          hash_iterator_next_loop fuel'
      else ret None
  end.

Definition hash_iterator_next : M hash_iterator (option box_tuple) :=
  do_ assert_next;
  do it <- gets id;
  do h <- deref (hash it);
  hash_iterator_next_loop (S (mh_end h - h_pos it)).

(** [it->next(it)] *)
Definition call_next : M hash_iterator (option box_tuple) :=
  do it <- gets id;
  match next (base it) with
  | next_null => fault
  | fn_hash_iterator_next => hash_iterator_next
  end.

Definition iterator_first_equal : M hash_iterator (option box_tuple) :=
  do_ modify (set_next_equal fn_iterator_next_equal);
  call_next.

(** [it->next_equal(it)] *)
Definition call_next_equal : M hash_iterator (option box_tuple) :=
  do it <- gets id;
  match next_equal (base it) with
  | next_equal_null => fault
  | fn_iterator_first_equal => iterator_first_equal
  | fn_iterator_next_equal => iterator_next_equal
  end.

(** [allocIterator] of [HashIndex]: the iterator is zeroed, then its
    [next] is set ([free] is not modelled). *)
Definition allocIterator : hash_iterator :=
  {| base := {| next := fn_hash_iterator_next; next_equal := next_equal_null |};
     hash := None; h_pos := 0 |}.

(** [n] calls of [it->next_equal(it)], the results in order. *)
Fixpoint call_next_equal_n (n : nat) (it : hash_iterator)
  : list (result (option box_tuple)) * hash_iterator :=
  match n with
  | O => ([], it)
  | S n' =>
      let '(r, it') := call_next_equal it in
      let '(rs, it'') := call_next_equal_n n' it' in
      (r :: rs, it'')
  end.

End Iterator.
Export Iterator.

(** ** Hash indexes *)

#[global] Instance byte_eq_dec : EqDecision byte := Byte.byte_eq_dec.

(** *** Hash32Index *)

Module Hash32.

Record Hash32Index : Type := mk_Hash32Index {
  key_def : KeyDef.key_def;
  enabled : bool;
  int_hash : list (option (Z * box_tuple))
}.

Definition set_int_hash (h : list (option (Z * box_tuple))) (self : Hash32Index)
  : Hash32Index :=
  {| key_def := key_def self; enabled := enabled self; int_hash := h |}.

Definition enable : M Hash32Index unit :=
  modify (fun self =>
    {| key_def := key_def self; enabled := true; int_hash := mh_init |}).

Definition size : M Hash32Index nat :=
  gets (fun self => mh_size (int_hash self)).

Definition find (field : option (list byte)) : M Hash32Index (option box_tuple) :=
  do p <- deref field;
  let '(field_size, p) := load_varint32 p in
  let num := load_u32 p in
  if decide (field_size <> 4) then tnt_raise (IllegalParams "key is not u32")
  else
    do h <- gets int_hash;
    let k := mh_get h num in
    if decide (k <> mh_end h) then ret (mh_value h k) else ret None.

Definition remove (tuple : box_tuple) : M Hash32Index unit :=
  do kd <- gets key_def;
  do fno <- parts0_fieldno kd;
  do p <- deref (tuple_field tuple fno);
  let '(field_size, p) := load_varint32 p in
  let num := load_u32 p in
  if decide (field_size <> 4) then tnt_raise (IllegalParams "key is not u32")
  else
    do h <- gets int_hash;
    let k := mh_get h num in
    if decide (k <> mh_end h) then modify (set_int_hash (mh_del h k))
    else ret tt.

(** [old_tuple] may be NULL; [new_tuple] is a record. *)
Definition replace (old_tuple : option box_tuple) (new_tuple : box_tuple)
  : M Hash32Index unit :=
  do kd <- gets key_def;
  do fno <- parts0_fieldno kd;
  do p <- deref (tuple_field new_tuple fno);
  let '(field_size, p) := load_varint32 p in
  let num := load_u32 p in
  if decide (field_size <> 4) then tnt_raise (IllegalParams "key is not u32")
  else
    do_ match old_tuple with
        | Some old =>
            do old_p <- deref (tuple_field old fno);
            let '(_, old_p) := load_varint32 old_p in
            let old_num := load_u32 old_p in
            do h <- gets int_hash;
            let k := mh_get h old_num in
            if decide (k <> mh_end h) then modify (set_int_hash (mh_del h k))
            else ret tt
        | None => ret tt
        end;
    do h <- gets int_hash;
    modify (set_int_hash (mh_put h num new_tuple)).

(** [initIterator: iterator], the receiver being [self]. *)
Definition initIterator (self : Hash32Index) : M hash_iterator unit :=
  do_ assert_next;
  do_ modify (set_next_equal next_equal_null);
  do_ modify (set_h_pos (mh_begin (int_hash self)));
  modify (set_hash (mh_view (int_hash self))).

(** [initIterator: iterator :key :part_count] *)
Definition initIterator_key (self : Hash32Index) (key : option (list byte))
    (part_count : Z) : M hash_iterator unit :=
  do_ assert (bool_decide (part_count = 1));
  do_ assert_next;
  do p <- deref key;
  let '(field_size, p) := load_varint32 p in
  let num := load_u32 p in
  if decide (field_size <> 4) then tnt_raise (IllegalParams "key is not u32")
  else
    do_ modify (set_next_equal fn_iterator_first_equal);
    do_ modify (set_h_pos (mh_get (int_hash self) num));
    modify (set_hash (mh_view (int_hash self))).

End Hash32.

(** *** Hash64Index *)

Module Hash64.

Record Hash64Index : Type := mk_Hash64Index {
  key_def : KeyDef.key_def;
  enabled : bool;
  int64_hash : list (option (Z * box_tuple))
}.

Definition set_int64_hash (h : list (option (Z * box_tuple))) (self : Hash64Index)
  : Hash64Index :=
  {| key_def := key_def self; enabled := enabled self; int64_hash := h |}.

Definition enable : M Hash64Index unit :=
  modify (fun self =>
    {| key_def := key_def self; enabled := true; int64_hash := mh_init |}).

Definition size : M Hash64Index nat :=
  gets (fun self => mh_size (int64_hash self)).

Definition find (field : option (list byte)) : M Hash64Index (option box_tuple) :=
  do p <- deref field;
  let '(field_size, p) := load_varint32 p in
  let num := load_u64 p in
  if decide (field_size <> 8) then tnt_raise (IllegalParams "key is not u64")
  else
    do h <- gets int64_hash;
    let k := mh_get h num in
    if decide (k <> mh_end h) then ret (mh_value h k) else ret None.

Definition remove (tuple : box_tuple) : M Hash64Index unit :=
  do kd <- gets key_def;
  do fno <- parts0_fieldno kd;
  do p <- deref (tuple_field tuple fno);
  let '(field_size, p) := load_varint32 p in
  let num := load_u64 p in
  if decide (field_size <> 8) then tnt_raise (IllegalParams "key is not u64")
  else
    do h <- gets int64_hash;
    let k := mh_get h num in
    if decide (k <> mh_end h) then modify (set_int64_hash (mh_del h k))
    else ret tt.

Definition replace (old_tuple : option box_tuple) (new_tuple : box_tuple)
  : M Hash64Index unit :=
  do kd <- gets key_def;
  do fno <- parts0_fieldno kd;
  do p <- deref (tuple_field new_tuple fno);
  let '(field_size, p) := load_varint32 p in
  let num := load_u64 p in
  if decide (field_size <> 8) then tnt_raise (IllegalParams "key is not u64")
  else
    do_ match old_tuple with
        | Some old =>
            do old_p <- deref (tuple_field old fno);
            let '(_, old_p) := load_varint32 old_p in
            let old_num := load_u64 old_p in
            do h <- gets int64_hash;
            let k := mh_get h old_num in
            if decide (k <> mh_end h) then modify (set_int64_hash (mh_del h k))
            else ret tt
        | None => ret tt
        end;
    do h <- gets int64_hash;
    modify (set_int64_hash (mh_put h num new_tuple)).

Definition initIterator (self : Hash64Index) : M hash_iterator unit :=
  do_ assert_next;
  do_ modify (set_next_equal next_equal_null);
  do_ modify (set_h_pos (mh_begin (int64_hash self)));
  modify (set_hash (mh_view (int64_hash self))).

Definition initIterator_key (self : Hash64Index) (field : option (list byte))
    (part_count : Z) : M hash_iterator unit :=
  do_ assert_next;
  do_ assert (bool_decide (part_count = 1));
  do p <- deref field;
  let '(field_size, p) := load_varint32 p in
  let num := load_u64 p in
  if decide (field_size <> 8) then tnt_raise (IllegalParams "key is not u64")
  else
    do_ modify (set_next_equal fn_iterator_first_equal);
    do_ modify (set_h_pos (mh_get (int64_hash self) num));
    modify (set_hash (mh_view (int64_hash self))).

End Hash64.

(** *** HashStrIndex *)

Module HashStr.

(** Modelled from the spec: the key of [mh_lstrptr] is a "length-prefixed
    byte string with content-based equality and hash"; the content of the
    string a pointer leads to is what the table compares. *)
Definition lstr (p : list byte) : list byte :=
  let '(size, q) := load_varint32 p in take (Z.to_nat size) q.

Record HashStrIndex : Type := mk_HashStrIndex {
  key_def : KeyDef.key_def;
  enabled : bool;
  str_hash : list (option (list byte * box_tuple))
}.

Definition set_str_hash (h : list (option (list byte * box_tuple)))
    (self : HashStrIndex) : HashStrIndex :=
  {| key_def := key_def self; enabled := enabled self; str_hash := h |}.

Definition enable : M HashStrIndex unit :=
  modify (fun self =>
    {| key_def := key_def self; enabled := true; str_hash := mh_init |}).

Definition size : M HashStrIndex nat :=
  gets (fun self => mh_size (str_hash self)).

(** [mh_lstrptr_get(str_hash, field)] reads the string at [field]. *)
Definition mh_lstrptr_get (field : option (list byte)) : M HashStrIndex nat :=
  do p <- deref field;
  do h <- gets str_hash;
  ret (mh_get h (lstr p)).

Definition find (field : option (list byte)) : M HashStrIndex (option box_tuple) :=
  do k <- mh_lstrptr_get field;
  do h <- gets str_hash;
  if decide (k <> mh_end h) then ret (mh_value h k) else ret None.

Definition remove (tuple : box_tuple) : M HashStrIndex unit :=
  do kd <- gets key_def;
  do fno <- parts0_fieldno kd;
  let field := tuple_field tuple fno in
  do k <- mh_lstrptr_get field;
  do h <- gets str_hash;
  if decide (k <> mh_end h) then modify (set_str_hash (mh_del h k))
  else ret tt.

Definition replace (old_tuple : option box_tuple) (new_tuple : box_tuple)
  : M HashStrIndex unit :=
  do kd <- gets key_def;
  do fno <- parts0_fieldno kd;
  let field := tuple_field new_tuple fno in
  match field with
  | None => tnt_raise (ClientError ER_NO_SUCH_FIELD fno)
  | Some p =>
      do_ match old_tuple with
          | Some old =>
              let old_field := tuple_field old fno in
              do k <- mh_lstrptr_get old_field;
              do h <- gets str_hash;
              if decide (k <> mh_end h) then modify (set_str_hash (mh_del h k))
              else ret tt
          | None => ret tt
          end;
      do h <- gets str_hash;
      modify (set_str_hash (mh_put h (lstr p) new_tuple))
  end.

Definition initIterator (self : HashStrIndex) : M hash_iterator unit :=
  do_ assert_next;
  do_ modify (set_next_equal next_equal_null);
  do_ modify (set_h_pos (mh_begin (str_hash self)));
  modify (set_hash (mh_view (str_hash self))).

Definition initIterator_key (self : HashStrIndex) (key : option (list byte))
    (part_count : Z) : M hash_iterator unit :=
  do_ assert_next;
  do_ assert (bool_decide (part_count = 1));
  do_ modify (set_next_equal fn_iterator_first_equal);
  do p <- deref key;
  do_ modify (set_h_pos (mh_get (str_hash self) (lstr p)));
  modify (set_hash (mh_view (str_hash self))).

End HashStr.

(** *** The hash index classes behind one interface *)

Module HashIndex.

(** An object of one of the three classes; a message goes to the method of
    the receiver's class. *)
Inductive HashIndex : Type :=
  | OfHash32 (i : Hash32.Hash32Index)
  | OfHash64 (i : Hash64.Hash64Index)
  | OfHashStr (i : HashStr.HashStrIndex).

Definition send {A : Type}
    (m32 : M Hash32.Hash32Index A) (m64 : M Hash64.Hash64Index A)
    (mstr : M HashStr.HashStrIndex A) : M HashIndex A :=
  fun self =>
    match self with
    | OfHash32 i => let '(r, i') := m32 i in (r, OfHash32 i')
    | OfHash64 i => let '(r, i') := m64 i in (r, OfHash64 i')
    | OfHashStr i => let '(r, i') := mstr i in (r, OfHashStr i')
    end.

Definition enable : M HashIndex unit :=
  send Hash32.enable Hash64.enable HashStr.enable.

Definition size : M HashIndex nat :=
  send Hash32.size Hash64.size HashStr.size.

Definition find (key : option (list byte)) : M HashIndex (option box_tuple) :=
  send (Hash32.find key) (Hash64.find key) (HashStr.find key).

Definition remove (tuple : box_tuple) : M HashIndex unit :=
  send (Hash32.remove tuple) (Hash64.remove tuple) (HashStr.remove tuple).

Definition replace (old_tuple : option box_tuple) (new_tuple : box_tuple)
  : M HashIndex unit :=
  send (Hash32.replace old_tuple new_tuple) (Hash64.replace old_tuple new_tuple)
       (HashStr.replace old_tuple new_tuple).

Definition initIterator (self : HashIndex) : M hash_iterator unit :=
  match self with
  | OfHash32 i => Hash32.initIterator i
  | OfHash64 i => Hash64.initIterator i
  | OfHashStr i => HashStr.initIterator i
  end.

Definition initIterator_key (self : HashIndex) (key : option (list byte))
    (part_count : Z) : M hash_iterator unit :=
  match self with
  | OfHash32 i => Hash32.initIterator_key i key part_count
  | OfHash64 i => Hash64.initIterator_key i key part_count
  | OfHashStr i => HashStr.initIterator_key i key part_count
  end.

(** [min] and [max] of [HashIndex]. *)
Definition min : M HashIndex (option box_tuple) :=
  tnt_raise (ClientError ER_UNSUPPORTED 0).
Definition max : M HashIndex (option box_tuple) :=
  tnt_raise (ClientError ER_UNSUPPORTED 0).

Definition key_def (self : HashIndex) : KeyDef.key_def :=
  match self with
  | OfHash32 i => Hash32.key_def i
  | OfHash64 i => Hash64.key_def i
  | OfHashStr i => HashStr.key_def i
  end.

(** [findByTuple] of [HashIndex]. *)
Definition findByTuple (tuple : box_tuple) : M HashIndex (option box_tuple) :=
  do kd <- gets key_def;
  do fno <- parts0_fieldno kd;
  let field := tuple_field tuple fno in
  match field with
  | None => tnt_raise (ClientError ER_NO_SUCH_FIELD fno)
  | Some _ => find field
  end.

(** **** Vocabulary of the statements

    The key values of the three tables, the key a field holds for an index,
    the key of a record, and the record an index stores under a key. *)

Inductive hkey : Type :=
  | U32 (n : Z)
  | U64 (n : Z)
  | LStr (s : list byte).

#[global] Instance hkey_eq_dec : EqDecision hkey.
Proof. solve_decision. Defined.

(** The length prefix of the key field has the width the class wants. *)
Definition valid_key (self : HashIndex) (p : list byte) : bool :=
  match self with
  | OfHash32 _ => bool_decide ((load_varint32 p).1 = 4)
  | OfHash64 _ => bool_decide ((load_varint32 p).1 = 8)
  | OfHashStr _ => true
  end.

Definition decode (self : HashIndex) (p : list byte) : hkey :=
  match self with
  | OfHash32 _ => U32 (load_u32 (load_varint32 p).2)
  | OfHash64 _ => U64 (load_u64 (load_varint32 p).2)
  | OfHashStr _ => LStr (HashStr.lstr p)
  end.

Definition key_field (self : HashIndex) (tuple : box_tuple) : option (list byte) :=
  match parts (key_def self) !! 0%nat with
  | Some part => tuple_field tuple (fieldno part)
  | None => None
  end.

Definition record_key (self : HashIndex) (tuple : box_tuple) : option hkey :=
  match key_field self tuple with
  | Some p => if valid_key self p then Some (decode self p) else None
  | None => None
  end.

Definition stored (self : HashIndex) (k : hkey) : option box_tuple :=
  match self, k with
  | OfHash32 i, U32 n => mh_find (Hash32.int_hash i) n
  | OfHash64 i, U64 n => mh_find (Hash64.int64_hash i) n
  | OfHashStr i, LStr s => mh_find (HashStr.str_hash i) s
  | _, _ => None
  end.

(** No key sits in two slots of the table. *)
Definition index_wf (self : HashIndex) : Prop :=
  match self with
  | OfHash32 i => mh_wf (Hash32.int_hash i)
  | OfHash64 i => mh_wf (Hash64.int64_hash i)
  | OfHashStr i => mh_wf (HashStr.str_hash i)
  end.

(** The number [size] answers. *)
Definition count (self : HashIndex) : nat :=
  match self with
  | OfHash32 i => mh_size (Hash32.int_hash i)
  | OfHash64 i => mh_size (Hash64.int64_hash i)
  | OfHashStr i => mh_size (HashStr.str_hash i)
  end.

(** The index with the slot of a key emptied, and with a record put under
    a key; a key of another class than the index's leaves it as it is. *)
Definition delete_key (self : HashIndex) (k : hkey) : HashIndex :=
  match self, k with
  | OfHash32 i, U32 n =>
      OfHash32 (Hash32.set_int_hash (mh_del_key (Hash32.int_hash i) n) i)
  | OfHash64 i, U64 n =>
      OfHash64 (Hash64.set_int64_hash (mh_del_key (Hash64.int64_hash i) n) i)
  | OfHashStr i, LStr s =>
      OfHashStr (HashStr.set_str_hash (mh_del_key (HashStr.str_hash i) s) i)
  | _, _ => self
  end.

Definition insert_key (self : HashIndex) (k : hkey) (tuple : box_tuple) : HashIndex :=
  match self, k with
  | OfHash32 i, U32 n =>
      OfHash32 (Hash32.set_int_hash (mh_put (Hash32.int_hash i) n tuple) i)
  | OfHash64 i, U64 n =>
      OfHash64 (Hash64.set_int64_hash (mh_put (Hash64.int64_hash i) n tuple) i)
  | OfHashStr i, LStr s =>
      OfHashStr (HashStr.set_str_hash (mh_put (HashStr.str_hash i) s tuple) i)
  | _, _ => self
  end.

(** Two indexes read the same key off every record and every key field. *)
Definition same_keys (self self' : HashIndex) : Prop :=
  (forall t, key_field self' t = key_field self t)
  /\ (forall p, valid_key self' p = valid_key self p)
  /\ (forall p, decode self' p = decode self p).

(** An enabled, empty index of each class over field 0. *)
Definition key_def0 (t : field_data_type) : KeyDef.key_def :=
  {| parts := [ {| fieldno := 0; type := t |} ] |}.

Definition empty32 : HashIndex :=
  OfHash32 {| Hash32.key_def := key_def0 NUM; Hash32.enabled := true;
              Hash32.int_hash := mh_init |}.

Definition empty64 : HashIndex :=
  OfHash64 {| Hash64.key_def := key_def0 NUM64; Hash64.enabled := true;
              Hash64.int64_hash := mh_init |}.

Definition emptystr : HashIndex :=
  OfHashStr {| HashStr.key_def := key_def0 STRING; HashStr.enabled := true;
               HashStr.str_hash := mh_init |}.

End HashIndex.

(** *** The states of a keyed iterator *)

Module KeyedIterator.
Import HashIndex.

Section View.
Context {K : Type} `{EqDecision K}.

(** The iterator as a keyed [initIterator] leaves it, and as the first
    call of [next_equal] leaves it. *)
Definition positioned (h : list (option (K * box_tuple))) (k : K) : hash_iterator :=
  {| base := {| next := fn_hash_iterator_next;
                next_equal := fn_iterator_first_equal |};
     hash := Some (mh_view h);
     h_pos := mh_get h k |}.

Definition exhausted (h : list (option (K * box_tuple))) (k : K) : hash_iterator :=
  {| base := {| next := fn_hash_iterator_next;
                next_equal := fn_iterator_next_equal |};
     hash := Some (mh_view h);
     h_pos := if decide (mh_get h k <> mh_end h) then S (mh_get h k)
              else mh_get h k |}.

End View.

(** The same for each class, the key read off the key field [p]. *)
Definition positioned_at (self : HashIndex) (p : list byte) : hash_iterator :=
  match self with
  | OfHash32 i => positioned (Hash32.int_hash i) (load_u32 (load_varint32 p).2)
  | OfHash64 i => positioned (Hash64.int64_hash i) (load_u64 (load_varint32 p).2)
  | OfHashStr i => positioned (HashStr.str_hash i) (HashStr.lstr p)
  end.

Definition exhausted_at (self : HashIndex) (p : list byte) : hash_iterator :=
  match self with
  | OfHash32 i => exhausted (Hash32.int_hash i) (load_u32 (load_varint32 p).2)
  | OfHash64 i => exhausted (Hash64.int64_hash i) (load_u64 (load_varint32 p).2)
  | OfHashStr i => exhausted (HashStr.str_hash i) (HashStr.lstr p)
  end.

End KeyedIterator.

(** *** Walking a table with [next] *)

Module Scan.
Import HashIndex.

(** [n] calls of [it->next(it)], the results in order. *)
Fixpoint call_next_n (n : nat) (it : hash_iterator)
  : list (result (option box_tuple)) * hash_iterator :=
  match n with
  | O => ([], it)
  | S n' =>
      let '(r, it') := call_next it in
      let '(rs, it'') := call_next_n n' it' in
      (r :: rs, it'')
  end.

(** The keys and records an index holds, in the order of the slots of its
    table. *)
Definition entries (self : HashIndex) : list (hkey * box_tuple) :=
  match self with
  | OfHash32 i => prod_map U32 id <$> omap id (Hash32.int_hash i)
  | OfHash64 i => prod_map U64 id <$> omap id (Hash64.int64_hash i)
  | OfHashStr i => prod_map LStr id <$> omap id (HashStr.str_hash i)
  end.

Definition records (self : HashIndex) : list box_tuple := (entries self).*2.

(** An answer of [next]: a record. *)
Definition yield (r : box_tuple) : result (option box_tuple) := Ok (Some r).

(** The records in the slots of a table, in the order of the slots. *)
Definition values {K : Type} (h : list (option (K * box_tuple))) : list box_tuple :=
  (omap id h).*2.

(** An iterator of [allocIterator] over the slots [hv], at slot [p], with
    [ne] for its [next_equal]. *)
Definition scan_at (hv : list (option (unit * box_tuple))) (p : nat)
    (ne : next_equal_fn) : hash_iterator :=
  {| base := {| next := fn_hash_iterator_next; next_equal := ne |};
     hash := Some hv; h_pos := p |}.

(** The instance variable [enabled]. *)
Definition is_enabled (self : HashIndex) : bool :=
  match self with
  | OfHash32 i => Hash32.enabled i
  | OfHash64 i => Hash64.enabled i
  | OfHashStr i => HashStr.enabled i
  end.

End Scan.

(** ** C strings *)

Module CString.

(** A [const char *] is, like every pointer, the bytes found from it
    onwards; the string ends before the first NUL, or where the bytes of the
    model end. *)
Fixpoint strlen (s : list byte) : nat :=
  match s with
  | [] => O
  | b :: r => if decide (b = x00) then O else S (strlen r)
  end.

(** The bytes of the string, without what follows its end: what
    [grp_alloc_create_str(&all, s, strlen(s))] copies. *)
Definition cstr (s : list byte) : list byte := take (strlen s) s.

(** [strcmp]: the difference of the first two bytes that differ, as
    unsigned chars; 0 when both strings end together. *)
Fixpoint strcmp (s1 s2 : list byte) : Z :=
  match s1, s2 with
  | [], [] => 0
  | [], b2 :: _ => 0 - byte_val b2
  | b1 :: _, [] => byte_val b1 - 0
  | b1 :: r1, b2 :: r2 =>
      if decide (b1 = b2)
      then (if decide (b1 = x00) then 0 else strcmp r1 r2)
      else byte_val b1 - byte_val b2
  end.

(** A string literal as a C string. *)
Definition cs (s : string) : list byte := String.list_byte_of_string s.

End CString.
Export CString.

(** ** The tuple dictionary *)

Module Assoc.

(** The key of [mh_strnu32]: a name, its length and its hash. *)
Record mh_strnu32_key_t : Type := mk_strnu32_key {
  str : list byte;
  len : nat;
  hash : Z
}.

#[global] Instance mh_strnu32_key_eq_dec : EqDecision mh_strnu32_key_t.
Proof. solve_decision. Defined.

(** Modelled from the spec: [mh_strnu32] (assoc.h) is not among the
    sources; the spec has the dictionary's hash index "keyed by (bytes,
    length, precomputed hash)".  A key is read through its [len] first
    bytes. *)
Definition strnu32_key (name : list byte) (name_len : nat) (name_hash : Z)
  : mh_strnu32_key_t :=
  {| str := take name_len name; len := name_len; hash := name_hash |}.

End Assoc.

Module TupleDictionary.
Import Assoc.

(** The diagnostics area: empty, or the error [diag_set] left there. *)
Inductive diag_t : Type :=
  | diag_empty
  | diag_ClientError (code : error_code) (name : list byte).

Definition diag_set (code : error_code) (name : list byte) : M diag_t unit :=
  modify (fun _ => diag_ClientError code name).

(** [names] is the array of the names, NULL in a dictionary without names;
    [hash] maps a name to its field number, NULL likewise. *)
Record tuple_dictionary : Type := mk_tuple_dictionary {
  hash : option (list (option (mh_strnu32_key_t * nat)));
  names : option (list (list byte));
  name_count : nat;
  refs : Z
}.

Definition set_hash (h : list (option (mh_strnu32_key_t * nat)))
    (dict : tuple_dictionary) : tuple_dictionary :=
  {| hash := Some h; names := names dict; name_count := name_count dict;
     refs := refs dict |}.

Definition set_names (ns : list (list byte)) (dict : tuple_dictionary)
  : tuple_dictionary :=
  {| hash := hash dict; names := Some ns; name_count := name_count dict;
     refs := refs dict |}.

Definition set_refs (r : Z) (dict : tuple_dictionary) : tuple_dictionary :=
  {| hash := hash dict; names := names dict; name_count := name_count dict;
     refs := r |}.

(** The member of [struct field_def] the dictionary reads. *)
Record field_def : Type := mk_field_def {
  name : list byte
}.

(** [field_name_hash], a function pointer set outside these sources: the
    hash of the first [len] bytes of a name. *)
Class FieldNameHash : Type :=
  field_name_hash : list byte -> nat -> Z.

Section Dictionary.
Context `{fnh : FieldNameHash}.

(** The result is the return code and the dictionary as the call leaves
    it. *)
Definition tuple_dictionary_set_name (dict : tuple_dictionary)
    (name : list byte) (name_len fieldno : nat)
  : M diag_t (Z * tuple_dictionary) :=
  do_ assert (bool_decide (fieldno < name_count dict)%nat);
  let name_hash := field_name_hash name name_len in
  let key := strnu32_key name name_len name_hash in
  do h <- deref (hash dict);
  let rc := mh_get h key in
  if decide (rc <> mh_end h) then
    do_ diag_set ER_SPACE_FIELD_IS_DUPLICATE name;
    ret (-1, dict)
  else
    ret (0, set_hash (mh_put h key fieldno) dict).

(** The first loop of [tuple_dictionary_new_impl] reads every name to
    reserve its room. *)
Fixpoint reserve_loop (name_data : list (list byte)) (fuel i : nat) : M diag_t unit :=
  match fuel with
  | O => ret tt
  | S fuel' =>
      do _ <- deref (name_data !! i);
      reserve_loop name_data fuel' (S i)
  end.

(** The second loop: copy the name, set it in the hash, give up on a
    duplicate.  [len] reaches [tuple_dictionary_set_name] as a [uint32_t];
    the names are taken to be shorter than 2^32 bytes, as that type has
    it. *)
Fixpoint set_names_loop (name_data : list (list byte)) (fuel i : nat)
    (dict : tuple_dictionary) : M diag_t (option tuple_dictionary) :=
  match fuel with
  | O => ret (Some dict)
  | S fuel' =>
      do name <- deref (name_data !! i);
      let len := strlen name in
      do ns <- deref (names dict);
      let copy := take len name in
      let dict := set_names (<[i := copy]> ns) dict in
      do r <- tuple_dictionary_set_name dict copy len i;
      if decide (r.1 <> 0) then ret None
      else set_names_loop name_data fuel' (S i) r.2
  end.

(** [name_data] is the array of the names that the offsets lead to; the
    result is NULL after a duplicate. *)
Definition tuple_dictionary_new_impl (name_data : list (list byte))
    (name_count : nat) : M diag_t (option tuple_dictionary) :=
  let dict := {| hash := None; names := None; name_count := name_count;
                 refs := 1 |} in
  if decide (name_count = 0%nat) then ret (Some dict)
  else
    do_ reserve_loop name_data name_count 0;
    let dict := set_names (replicate name_count []) dict in
    let dict := set_hash mh_init dict in
    set_names_loop name_data name_count 0 dict.

Definition tuple_dictionary_new (fields : list field_def) (field_count : nat)
  : M diag_t (option tuple_dictionary) :=
  tuple_dictionary_new_impl (map name fields) field_count.

Definition tuple_dictionary_dup (dict : tuple_dictionary)
  : M diag_t (option tuple_dictionary) :=
  tuple_dictionary_new_impl (default [] (names dict)) (name_count dict).

(** The result is the return code and what [*fieldno] holds afterwards. *)
Definition tuple_fieldno_by_name (dict : tuple_dictionary) (name : list byte)
    (name_len : nat) (name_hash : Z) (fieldno : nat) : Z * nat :=
  match hash dict with
  | None => (-1, fieldno)
  | Some h =>
      let key := strnu32_key name name_len name_hash in
      let rc := mh_get h key in
      if decide (rc = mh_end h) then (-1, fieldno)
      else
        match mh_value h rc with
        | Some val => (0, val)
        | None => (0, fieldno)
        end
  end.

End Dictionary.

(** The loop of [tuple_dictionary_cmp]; [None] is a read of a name that is
    not there. *)
Fixpoint cmp_loop (a b : tuple_dictionary) (fuel i : nat) : option Z :=
  match fuel with
  | O => Some 0
  | S fuel' =>
      a_names ← names a;
      b_names ← names b;
      a_name ← a_names !! i;
      b_name ← b_names !! i;
      let ret := strcmp a_name b_name in
      if decide (ret <> 0) then Some ret
      else cmp_loop a b fuel' (S i)
  end.

Definition tuple_dictionary_cmp (a b : tuple_dictionary) : option Z :=
  if decide (name_count a <> name_count b) then
    Some (if decide (name_count b < name_count a)%nat then 1 else -1)
  else cmp_loop a b (name_count a) 0.

(** Dictionaries live in the heap; [a] and [b] are their addresses, which
    may be the same. *)
Definition load (a : nat) : M (gmap nat tuple_dictionary) tuple_dictionary :=
  do heap <- gets id; deref (heap !! a).

Definition store (a : nat) (dict : tuple_dictionary)
  : M (gmap nat tuple_dictionary) unit :=
  do _ <- load a; modify (fun heap => <[a := dict]> heap).

Definition tuple_dictionary_swap (a b : nat) : M (gmap nat tuple_dictionary) unit :=
  do da <- load a;
  do db <- load b;
  let a_refs := refs da in
  let b_refs := refs db in
  let t := da in
  do_ store a db;
  do_ store b t;
  do da' <- load a;
  do_ store a (set_refs a_refs da');
  do db' <- load b;
  store b (set_refs b_refs db').

(** [refs] is an [int]: incrementing it at [INT_MAX] is undefined. *)
Definition INT_MAX : Z := 2 ^ 31 - 1.

Definition tuple_dictionary_ref (a : nat) : M (gmap nat tuple_dictionary) unit :=
  do dict <- load a;
  if decide (refs dict = INT_MAX) then fault
  else store a (set_refs (refs dict + 1) dict).

(** [tuple_dictionary_delete] frees the hash and the names, which are the
    dictionary's own, and the dictionary. *)
Definition tuple_dictionary_delete (a : nat) : M (gmap nat tuple_dictionary) unit :=
  do dict <- load a;
  do_ assert (bool_decide (refs dict = 0));
  do_ match hash dict with
      | Some _ => ret tt
      | None => assert (bool_decide (names dict = None))
      end;
  modify (fun heap => delete a heap).

Definition tuple_dictionary_unref (a : nat) : M (gmap nat tuple_dictionary) unit :=
  do dict <- load a;
  do_ assert (bool_decide (refs dict > 0));
  do_ store a (set_refs (refs dict - 1) dict);
  if decide (refs dict - 1 = 0) then tuple_dictionary_delete a
  else ret tt.

(** [PMurHash32_Process] (PMurHash.h) is not among the sources: it takes
    the hash state, [*ph] and [*pcarry], through the bytes of a key. *)
Class PMurHash : Type :=
  PMurHash32_Process : Z * Z -> list byte -> Z -> Z * Z.

(** The loop of [tuple_dictionary_hash_process], on the state [( *ph,
    *pcarry)]; [size] and [name_len] are [uint32_t]. *)
Fixpoint hash_process_loop `{pmh : PMurHash} (dict : tuple_dictionary)
    (fuel i : nat) (size : Z) : M (Z * Z) Z :=
  match fuel with
  | O => ret size
  | S fuel' =>
      do ns <- deref (names dict);
      do nm <- deref (ns !! i);
      let name_len := Z.of_nat (strlen nm) mod 2 ^ 32 in
      do_ modify (fun st => PMurHash32_Process st nm name_len);
      hash_process_loop dict fuel' (S i) ((size + name_len) mod 2 ^ 32)
  end.

Definition tuple_dictionary_hash_process `{pmh : PMurHash}
    (dict : tuple_dictionary) : M (Z * Z) Z :=
  hash_process_loop dict (name_count dict) 0 0.

End TupleDictionary.

(** *** Comparing dictionaries, and the keys of the names *)

Module DictionaryOrder.
Import TupleDictionary.

(** The array of names has [name_count] entries; it may be NULL when there
    is none. *)
Definition dict_wf (d : tuple_dictionary) : Prop :=
  match names d with
  | Some ns => length ns = name_count d
  | None => name_count d = 0%nat
  end.

(** The names of a dictionary, in declared order. *)
Definition cnames (d : tuple_dictionary) : list (list byte) :=
  default [] (names d).

(** In the spec's words: "lexicographic comparison of names in declared
    order", the first pair of names that differ deciding. *)
Fixpoint names_cmp (la lb : list (list byte)) : Z :=
  match la, lb with
  | a :: la', b :: lb' =>
      if decide (strcmp a b <> 0) then strcmp a b else names_cmp la' lb'
  | _, _ => 0
  end.

(** In the spec's words: "dictionaries compare unequal if field counts
    differ (shorter is less); else lexicographic comparison of names". *)
Definition dict_cmp_spec (a b : tuple_dictionary) : Z :=
  if decide (name_count a < name_count b)%nat then -1
  else if decide (name_count b < name_count a)%nat then 1
  else names_cmp (cnames a) (cnames b).

Section Names.
Context `{fnh : FieldNameHash}.

(** The key under which the dictionary sets a name. *)
Definition name_key (nm : list byte) : Assoc.mh_strnu32_key_t :=
  Assoc.strnu32_key (cstr nm) (strlen nm) (field_name_hash (cstr nm) (strlen nm)).

(** The hash holds the first [i] names, each under its key and with its
    number. *)
Definition hash_inv (name_data : list (list byte)) (i : nat)
    (h : list (option (Assoc.mh_strnu32_key_t * nat))) : Prop :=
  mh_wf h
  /\ forall k v, mh_find h k = Some v <->
                 (v < i)%nat /\ exists nm, name_data !! v = Some nm /\ k = name_key nm.

End Names.

End DictionaryOrder.

(** ** Adding a server to the cluster *)

Module Cluster.

(** Modelled from the spec: [tt_uuid] (tt_uuid.h) is not among the sources;
    the spec has "a globally unique identifier".  A UUID is its sixteen
    bytes, the nil UUID has them all zero, and two are equal when their
    bytes are. *)
Definition tt_uuid : Type := list byte.

(** Modelled from the spec: the nil UUID. *)
Definition tt_uuid_is_nil (u : tt_uuid) : bool :=
  forallb (fun b => bool_decide (b = x00)) u.

(** Modelled from the spec: equality of two UUIDs. *)
Definition tt_uuid_is_equal (a b : tt_uuid) : bool := bool_decide (a = b).

(** Modelled from the spec: [struct vclock] and [vclock_add_server]
    (vclock.h) are not among the sources; the spec has "a vector clock
    recording, per replica/server id, the highest applied operation sequence
    number", in which a server id is registered "as a participant".  A server
    that is registered keeps its number; a new one starts at 0. *)
Record vclock : Type := mk_vclock {
  lsn : gmap nat Z
}.

(** Modelled from the spec: the server id is a participant. *)
Definition vclock_has (v : vclock) (server_id : nat) : Prop :=
  is_Some (lsn v !! server_id).

(** Modelled from the spec: [vclock_add_server] registers the server id
    "as a participant". *)
Definition vclock_add_server (v : vclock) (server_id : nat) : vclock :=
  match lsn v !! server_id with
  | Some _ => v
  | None => {| lsn := <[server_id := 0]> (lsn v) |}
  end.

(** Modelled from the spec: [cserver_id_is_reserved] (cluster.h) is not
    among the sources; id 0 is the id of a server that has none yet, which
    is what [assert(r->server_id == 0)] reads as "unassigned". *)
Definition cserver_id_is_reserved (server_id : nat) : bool :=
  bool_decide (server_id = 0%nat).

(** The members of [struct recovery_state] that [cluster_add_server]
    reads and writes. *)
Record recovery_state : Type := mk_recovery_state {
  r_vclock : vclock;
  server_uuid : tt_uuid;
  server_id : nat
}.

Definition set_vclock (v : vclock) (r : recovery_state) : recovery_state :=
  {| r_vclock := v; server_uuid := server_uuid r; server_id := server_id r |}.

Definition set_server_id (id : nat) (r : recovery_state) : recovery_state :=
  {| r_vclock := r_vclock r; server_uuid := server_uuid r; server_id := id |}.

Definition cluster_clock (r : recovery_state) : vclock := r_vclock r.

Definition cluster_add_server (server_uuid' : tt_uuid) (server_id' : nat)
  : M recovery_state unit :=
  do_ assert (negb (tt_uuid_is_nil server_uuid'));
  do_ assert (negb (cserver_id_is_reserved server_id'));
  do_ modify (fun r => set_vclock (vclock_add_server (r_vclock r) server_id') r);
  do r <- gets id;
  if tt_uuid_is_equal (server_uuid r) server_uuid' then
    do_ assert (bool_decide (server_id r = 0%nat));
    modify (set_server_id server_id')
  else ret tt.

End Cluster.

(** ** Building the secondary keys *)

Module BuildIndexes.

(** What the pass does that can be seen from outside, in order: the two
    messages of [say_info] and the calls of [build:]. *)
Inductive event : Type :=
  | say_building (n : nat)
  | call_build (n idx : nat)
  | say_done (n : nat).

(** The index objects: their class is not looked into by the pass, which
    reads [index->type] and sends [build:].  [TreeIndex]'s [build:] (tree.m)
    is not among the sources; it is the index after the build from the
    primary key [pk], which may be nil. *)
Class IndexClass (Index : Type) : Type := {
  index_type_of : Index -> index_type;
  build : Index -> option Index -> Index
}.

(** The number of entries of the array [space], a constant of box.h. *)
Class BoxLimits : Type :=
  BOX_SPACE_MAX : nat.

Section Build.
Context {Index : Type} `{ops : IndexClass Index} `{limits : BoxLimits}.

(** The members of [struct space] that the pass reads: [index] is the
    array of the index objects, nil where there is none. *)
Record space_t : Type := mk_space {
  enabled : bool;
  index : list (option Index)
}.

(** The array [space] and the trace of the pass. *)
Record world : Type := mk_world {
  space : list space_t;
  trace : list event
}.

Definition emit (e : event) : M world unit :=
  modify (fun w => {| space := space w; trace := trace w ++ [e] |}).

(** [space[n]] and [space[n].index[idx]], read from the arrays. *)
Definition space_at (n : nat) : M world space_t :=
  do w <- gets id; deref (space w !! n).

Definition index_at (n idx : nat) : M world (option Index) :=
  do sp <- space_at n; deref (index sp !! idx).

(** [[(TreeIndex * ) index build: pk]] changes the object that
    [space[n].index[idx]] points to. *)
Definition send_build (n idx : nat) (i : Index) (pk : option Index) : M world unit :=
  do sp <- space_at n;
  do_ emit (call_build n idx);
  modify (fun w =>
    {| space := <[n := {| enabled := enabled sp;
                          index := <[idx := Some (build i pk)]> (index sp) |}]>
                  (space w);
       trace := trace w |}).

(** The inner loop, from [idx] on; [fuel] bounds the entries left to read. *)
Fixpoint index_loop (fuel : nat) (n idx : nat) (pk : option Index) : M world unit :=
  match fuel with
  | O => fault
  | S fuel' =>
      do i <- index_at n idx;
      match i with
      | None => ret tt
      | Some i =>
          if decide (index_type_of i <> TREE) then
            index_loop fuel' n (S idx) pk
          else
            do_ send_build n idx i pk;
            index_loop fuel' n (S idx) pk
      end
  end.

(** The body of the outer loop. *)
Definition build_space (n : nat) : M world unit :=
  do sp <- space_at n;
  if decide (enabled sp = false) then ret tt
  else
    do i1 <- index_at n 1;
    match i1 with
    | None => ret tt
    | Some _ =>
        do_ emit (say_building n);
        do pk <- index_at n 0;
        do_ index_loop (length (index sp)) n 1 pk;
        emit (say_done n)
    end.

Fixpoint space_loop (fuel n : nat) : M world unit :=
  match fuel with
  | O => ret tt
  | S fuel' => do_ build_space n; space_loop fuel' (S n)
  end.

Definition build_indexes : M world unit := space_loop BOX_SPACE_MAX 0.

(** *** What the pass is expected to do, in the spec's words

    "For each secondary index in declaration order, if its kind is
    tree-backed, bulk-build it"; the secondary indexes are the entries from
    the second on, up to the first nil. *)
Fixpoint built_indexes (pk : option Index) (l : list (option Index))
  : list (option Index) :=
  match l with
  | Some i :: rest =>
      Some (if decide (index_type_of i = TREE) then build i pk else i)
      :: built_indexes pk rest
  | _ => l
  end.

Fixpoint build_calls (n idx : nat) (l : list (option Index)) : list event :=
  match l with
  | Some i :: rest =>
      (if decide (index_type_of i = TREE) then [call_build n idx] else [])
      ++ build_calls n (S idx) rest
  | _ => []
  end.

Definition built_space (sp : space_t) : space_t :=
  if enabled sp then
    match index sp with
    | pk :: rest => {| enabled := true; index := pk :: built_indexes pk rest |}
    | [] => sp
    end
  else sp.

Definition space_trace (n : nat) (sp : space_t) : list event :=
  if enabled sp then
    match index sp with
    | pk :: Some i :: rest =>
        [say_building n] ++ build_calls n 1 (Some i :: rest) ++ [say_done n]
    | _ => []
    end
  else [].

Fixpoint spaces_trace (n : nat) (l : list space_t) : list event :=
  match l with
  | [] => []
  | sp :: rest => space_trace n sp ++ spaces_trace (S n) rest
  end.

(** An enabled space has a primary key slot and a nil after it. *)
Definition space_wf (sp : space_t) : Prop :=
  enabled sp = true -> exists pk rest, index sp = pk :: rest /\ None ∈ rest.

End Build.

Arguments space_t Index : clear implicits.
Arguments world Index : clear implicits.

End BuildIndexes.

(** *** The dictionaries, indexes and spaces of the examples *)

Module Samples.
Import HashIndex TupleDictionary Cluster BuildIndexes.

(** The key 7 as a key of a 32-bit index, and the index that stores the
    record with key 7. *)
Definition key_7 : list byte := save_varint32_small 4 ++ store_u32 7.

Definition index_with_7 : HashIndex := insert_key empty32 (U32 7) (tuple_u32 7).

(** Another record with key 7: a second, empty field follows the key. *)
Definition tuple_u32_7_more : box_tuple :=
  {| cardinality := 2;
     data := save_varint32_small 4 ++ store_u32 7 ++ save_varint32_small 0 |}.

(** The index that stores the records with keys 7 and 9, in this order of
    slots. *)
Definition index_with_7_9 : HashIndex :=
  insert_key index_with_7 (U32 9) (tuple_u32 9).

(** A hash of names. *)
#[global] Instance hash_of_bytes : FieldNameHash :=
  fun s n => foldr (fun b acc => (byte_val b + 31 * acc) mod 2 ^ 32) 0 (take n s).

(** The dictionary of a list of names; the dictionary without names where
    the construction fails. *)
Definition dict_of (names : list string) : tuple_dictionary :=
  match (tuple_dictionary_new_impl (map cs names) (length names) diag_empty).1 with
  | Ok (Some d) => d
  | _ => {| hash := None; names := None; name_count := 0; refs := 1 |}
  end.

(** The dictionary of a, held three times, and the dictionary of a and b,
    held once. *)
Definition heap0 : gmap nat tuple_dictionary :=
  {[ 1%nat := set_refs 3 (dict_of ["a"]); 2%nat := dict_of ["a"; "b"] ]}.

(** A recovery state with server 1 registered, and two UUIDs. *)
Definition uuid_a : tt_uuid := repeat x01 16.
Definition uuid_b : tt_uuid := repeat x02 16.

Definition recovery0 : recovery_state :=
  {| r_vclock := {| lsn := {[ 1%nat := 5 ]} |}; server_uuid := uuid_a;
     server_id := 0 |}.

(** Three spaces; an index is its type and the number of times it was
    built. *)
#[global] Instance counted_index : IndexClass (index_type * nat) :=
  {| index_type_of := fst; build := fun i _ => (i.1, S i.2) |}.

#[global] Instance three_spaces : BoxLimits := 3%nat.

Definition ix (t : index_type) : option (index_type * nat) := Some (t, 0%nat).

Definition world0 : world (index_type * nat) :=
  {| space :=
       [ {| enabled := true;
            index := [ix HASH; ix TREE; ix HASH; ix TREE; None; None] |};
         {| enabled := false; index := [ix HASH; ix TREE; None] |};
         {| enabled := true; index := [ix TREE; None] |} ];
     trace := [] |}.

(** Three spaces, the first with an index in every entry of its array. *)
Definition world_full : world (index_type * nat) :=
  {| space :=
       [ {| enabled := true; index := [ix HASH; ix TREE; ix HASH] |};
         {| enabled := false; index := [ix HASH; None] |};
         {| enabled := false; index := [ix HASH; None] |} ];
     trace := [] |}.

(** A record whose only field has five bytes, the first four those of 7;
    a record without fields. *)
Definition tuple_wide_7 : box_tuple :=
  {| cardinality := 1; data := save_varint32_small 5 ++ store_u32 7 ++ [x00] |}.

Definition tuple_no_fields : box_tuple := {| cardinality := 0; data := [] |}.

(** A hash state that adds up the bytes and the lengths it is given. *)
#[global] Instance sum_of_bytes : PMurHash :=
  fun st key len =>
    ((31 * st.1 + foldr (fun b acc => byte_val b + acc) 0 (take (Z.to_nat len) key))
     mod 2 ^ 32,
     (st.2 + len) mod 2 ^ 32).

End Samples.

(** * Part II: lemmas about the model *)

(** ** The monad, the codec and the tables *)

Module CtlFacts.

Lemma bind_ok {S A B : Type} (m : M S A) (k : A -> M S B) (s s' : S) (x : A) :
  m s = (Ok x, s') -> bind m k s = k x s'.
Proof. intros H. unfold bind. by rewrite H. Qed.

End CtlFacts.
Export CtlFacts.

Module PickleFacts.

Lemma byte_val_range (b : byte) : 0 <= byte_val b < 256.
Proof.
  unfold byte_val. pose proof (Byte.to_N_bounded b). lia.
Qed.

Lemma byte_val_of_Z (z : Z) : byte_val (byte_of_Z z) = z mod 256.
Proof.
  unfold byte_val, byte_of_Z.
  assert (Hr : 0 <= z mod 256 < 256) by (apply Z.mod_pos_bound; lia).
  destruct (Byte.of_N (Z.to_N (z mod 256))) as [b|] eqn:E.
  - apply Byte.to_of_N in E. rewrite E. lia.
  - apply Byte.of_N_None_iff in E. lia.
Qed.

Lemma load_u32_range (p : list byte) : 0 <= load_u32 p < 2 ^ 32.
Proof.
  unfold load_u32.
  assert (H : forall i, 0 <= read_byte p i < 256).
  { intros i. unfold read_byte. destruct (p !! i); [apply byte_val_range | lia]. }
  pose proof (H 0%nat); pose proof (H 1%nat);
    pose proof (H 2%nat); pose proof (H 3%nat). lia.
Qed.

Lemma load_store_u32 (v : Z) (tl : list byte) :
  0 <= v < 2 ^ 32 -> load_u32 (store_u32 v ++ tl) = v.
Proof.
  intros Hv. unfold load_u32, store_u32, read_byte. simpl.
  rewrite !byte_val_of_Z.
  assert (H2 : v / 2 ^ 16 = v / 2 ^ 8 / 2 ^ 8) by (rewrite Z.div_div by lia; reflexivity).
  assert (H3 : v / 2 ^ 24 = v / 2 ^ 16 / 2 ^ 8) by (rewrite Z.div_div by lia; reflexivity).
  assert (H4 : (v / 2 ^ 24) mod 256 = v / 2 ^ 24).
  { apply Z.mod_small. split; [apply Z.div_pos; lia |].
    apply Z.div_lt_upper_bound; lia. }
  pose proof (Z.div_mod v 256 ltac:(lia)) as E1.
  pose proof (Z.div_mod (v / 2 ^ 8) 256 ltac:(lia)) as E2.
  pose proof (Z.div_mod (v / 2 ^ 16) 256 ltac:(lia)) as E3.
  change (2 ^ 8) with 256 in *. rewrite <- H2 in E2. rewrite <- H3 in E3.
  lia.
Qed.

Lemma load_store_u64 (v : Z) (tl : list byte) :
  0 <= v < 2 ^ 64 -> load_u64 (store_u64 v ++ tl) = v.
Proof.
  intros Hv. unfold load_u64, store_u64.
  rewrite <- app_assoc.
  rewrite load_store_u32 by (apply Z.mod_pos_bound; lia).
  replace (drop 4 (store_u32 (v mod 2 ^ 32) ++ store_u32 (v / 2 ^ 32) ++ tl))
    with (store_u32 (v / 2 ^ 32) ++ tl) by reflexivity.
  rewrite load_store_u32.
  - rewrite (Z.div_mod v (2 ^ 32)) at 3 by lia. lia.
  - split; [apply Z.div_pos; lia | apply Z.div_lt_upper_bound; lia].
Qed.

Lemma load_varint32_small (n : Z) (tl : list byte) :
  0 <= n < 128 -> load_varint32 (save_varint32_small n ++ tl) = (n, tl).
Proof.
  intros Hn. unfold load_varint32, save_varint32_small.
  cbn [app load_varint32_from].
  rewrite byte_val_of_Z, (Z.mod_small n 256) by lia.
  assert (Hb : Z.testbit n 7 = false).
  { destruct (Z.eq_dec n 0) as [->|]; [reflexivity |].
    apply Z.bits_above_log2; [lia |].
    apply Z.log2_lt_pow2; simpl; lia. }
  rewrite Hb. f_equal.
  rewrite Z.shiftl_0_l, Z.lor_0_l.
  change 127 with (Z.ones 7). rewrite Z.land_ones by lia.
  change (2 ^ 7) with 128. change (2 ^ 32) with 4294967296.
  rewrite (Z.mod_small n 128) by lia. apply Z.mod_small. lia.
Qed.

End PickleFacts.
Export PickleFacts.

Module MHashFacts.
Section TableFacts.
Context {K V : Type} `{EqDecision K}.

Abbreviation slot := (option (K * V)).

(** *** The slot found by [mh_get] *)

Lemma holds_inv (k : K) (s : slot) : holds k s -> exists v, s = Some (k, v).
Proof.
  unfold holds. destruct s as [[k' v]|]; simpl; [|discriminate].
  intros [= ->]. eauto.
Qed.

Lemma mh_get_found (h : list slot) (k : K) :
  mh_get h k <> mh_end h ->
  exists v, h !! mh_get h k = Some (Some (k, v))
            /\ forall j v', h !! j = Some (Some (k, v')) -> (mh_get h k <= j)%nat.
Proof.
  unfold mh_get, mh_end.
  destruct (list_find (holds k) h) as [[i s]|] eqn:E; [|congruence].
  intros _. apply list_find_Some in E as (Hi & Hs & Hleast).
  apply holds_inv in Hs as [v ->]. exists v. split; [done|].
  intros j v' Hj. destruct (decide (i <= j)%nat); [done|].
  exfalso. apply (Hleast j (Some (k, v'))); [done | lia | reflexivity].
Qed.

Lemma mh_get_end (h : list slot) (k : K) :
  mh_get h k = mh_end h <-> forall j v, h !! j <> Some (Some (k, v)).
Proof.
  unfold mh_get, mh_end.
  destruct (list_find (holds k) h) as [[i s]|] eqn:E.
  - apply list_find_Some in E as (Hi & Hs & _).
    apply holds_inv in Hs as [v ->]. split.
    + intros ->. apply lookup_lt_Some in Hi. lia.
    + intros Hn. destruct (Hn i v Hi).
  - split; [|done]. intros _ j v Hj.
    rewrite list_find_None, Forall_lookup in E.
    apply (E j _ Hj). reflexivity.
Qed.

Lemma mh_get_le (h : list slot) (k : K) : (mh_get h k <= mh_end h)%nat.
Proof.
  unfold mh_get, mh_end.
  destruct (list_find (holds k) h) as [[i s]|] eqn:E; [|done].
  apply list_find_Some in E as (Hi & _). apply lookup_lt_Some in Hi. lia.
Qed.

Lemma mh_find_Some_1 (h : list slot) (k : K) (v : V) :
  mh_find h k = Some v -> exists i, h !! i = Some (Some (k, v)).
Proof.
  unfold mh_find. case_decide as Hg; [discriminate|].
  destruct (mh_get_found h k Hg) as (v' & Hv' & _).
  unfold mh_value. rewrite Hv'. intros [= ->]. eauto.
Qed.

Lemma mh_find_Some_2 (h : list slot) (k : K) (v : V) (i : nat) :
  mh_wf h -> h !! i = Some (Some (k, v)) -> mh_find h k = Some v.
Proof.
  intros Hwf Hi. unfold mh_find. case_decide as Hg.
  - rewrite mh_get_end in Hg. destruct (Hg i v Hi).
  - destruct (mh_get_found h k Hg) as (v' & Hv' & _).
    assert (mh_get h k = i) as Heq by (eapply Hwf; eauto).
    unfold mh_value. rewrite Heq in *. rewrite Hi. reflexivity.
Qed.

Lemma mh_find_Some (h : list slot) (k : K) (v : V) :
  mh_wf h -> mh_find h k = Some v <-> exists i, h !! i = Some (Some (k, v)).
Proof.
  intros Hwf. split; [apply mh_find_Some_1|].
  intros [i Hi]. eapply mh_find_Some_2; eauto.
Qed.

Lemma mh_find_None (h : list slot) (k : K) :
  mh_find h k = None <-> mh_get h k = mh_end h.
Proof.
  unfold mh_find. case_decide as Hg; [done|].
  destruct (mh_get_found h k Hg) as (v' & Hv' & _).
  unfold mh_value. rewrite Hv'. split; [discriminate | done].
Qed.

(** *** Deleting a slot *)

Lemma mh_del_lookup (h : list slot) (i j : nat) (e : K * V) :
  mh_del h i !! j = Some (Some e) <-> j <> i /\ h !! j = Some (Some e).
Proof.
  unfold mh_del. rewrite list_lookup_insert_Some. split.
  - intros [(-> & ? & _)|(? & ?)]; [discriminate | done].
  - intros [? ?]. right. done.
Qed.

Lemma mh_wf_del (h : list slot) (i : nat) : mh_wf h -> mh_wf (mh_del h i).
Proof.
  intros Hwf a b k v v'. rewrite !mh_del_lookup.
  intros [_ Ha] [_ Hb]. eapply Hwf; eauto.
Qed.

Lemma mh_find_del (h : list slot) (k k' : K) :
  mh_wf h -> mh_get h k <> mh_end h ->
  mh_find (mh_del h (mh_get h k)) k' =
    if decide (k' = k) then None else mh_find h k'.
Proof.
  intros Hwf Hg. destruct (mh_get_found h k Hg) as (v & Hv & _).
  case_decide as Hk.
  - subst k'. apply mh_find_None, mh_get_end. intros j v'.
    intros Hj. apply mh_del_lookup in Hj as [Hne Hj].
    apply Hne. eapply Hwf; eauto.
  - apply option_eq. intros v'.
    rewrite !mh_find_Some by auto using mh_wf_del.
    split; intros [j Hj]; exists j.
    + apply mh_del_lookup in Hj. tauto.
    + apply mh_del_lookup. split; [|done].
      intros ->. rewrite Hv in Hj. congruence.
Qed.

Lemma omap_id_insert (h : list slot) (i : nat) (s s' : slot) :
  h !! i = Some s ->
  omap id h = omap id (take i h) ++ option_list s ++ omap id (drop (S i) h)
  /\ omap id (<[i := s']> h)
     = omap id (take i h) ++ option_list s' ++ omap id (drop (S i) h).
Proof.
  intros Hi. pose proof (lookup_lt_Some _ _ _ Hi) as Hlt. split.
  - rewrite <- (take_drop_middle h i s Hi) at 1.
    rewrite omap_app. f_equal. simpl. destruct s; reflexivity.
  - rewrite insert_take_drop by done.
    rewrite omap_app. f_equal. simpl. destruct s'; reflexivity.
Qed.

Lemma mh_size_del (h : list slot) (k : K) :
  mh_get h k <> mh_end h ->
  S (mh_size (mh_del h (mh_get h k))) = mh_size h.
Proof.
  intros Hg. destruct (mh_get_found h k Hg) as (v & Hv & _).
  unfold mh_size, mh_del.
  destruct (omap_id_insert h _ _ None Hv) as [-> ->].
  rewrite !length_app. simpl. lia.
Qed.

(** *** Putting a key *)

Lemma mh_put_cases (h : list slot) (k : K) (v : V) :
  (exists i v0, h !! i = Some (Some (k, v0))
                /\ mh_put h k v = <[i := Some (k, v)]> h)
  \/ (mh_get h k = mh_end h /\ exists j, h !! j = Some None
                /\ mh_put h k v = <[j := Some (k, v)]> h)
  \/ (mh_get h k = mh_end h /\ (forall j, h !! j <> Some None)
                /\ mh_put h k v = h ++ [Some (k, v)]).
Proof.
  unfold mh_put, mh_get, mh_end.
  destruct (list_find (holds k) h) as [[i s]|] eqn:E.
  - apply list_find_Some in E as (Hi & Hs & _).
    apply holds_inv in Hs as [v0 ->]. left. eauto.
  - right. destruct (list_find (fun s : slot => s = None) h) as [[j s]|] eqn:E'.
    + apply list_find_Some in E' as (Hj & -> & _). left. eauto.
    + right. split; [done|]. split; [|done]. intros j Hj.
      rewrite list_find_None, Forall_lookup in E'. apply (E' j _ Hj). done.
Qed.

Lemma mh_put_lookup (h : list slot) (k : K) (v : V) (j : nat) (e : K * V) :
  mh_wf h ->
  mh_put h k v !! j = Some (Some e) ->
  e = (k, v) \/ (e.1 <> k /\ h !! j = Some (Some e)).
Proof.
  intros Hwf.
  destruct (mh_put_cases h k v)
    as [(i & v0 & Hi & ->)|[(Hg & i & Hi & ->)|(Hg & _ & ->)]].
  - rewrite list_lookup_insert_Some.
    intros [(-> & [= <-] & _)|(Hne & Hj)]; [by left|]. right. split; [|done].
    destruct e as [k' v']. simpl. intros ->. apply Hne. eapply Hwf; eauto.
  - rewrite list_lookup_insert_Some.
    intros [(-> & [= <-] & _)|(Hne & Hj)]; [by left|]. right. split; [|done].
    destruct e as [k' v']. simpl. intros ->.
    rewrite mh_get_end in Hg. destruct (Hg j v' Hj).
  - rewrite lookup_app_Some.
    intros [Hj|[_ Hj]].
    + right. split; [|done]. destruct e as [k' v']. simpl. intros ->.
      rewrite mh_get_end in Hg. destruct (Hg j v' Hj).
    + left. apply list_lookup_singleton_Some in Hj as [_ [= <-]]. done.
Qed.

Lemma mh_put_lookup_key (h : list slot) (k : K) (v : V) :
  exists i, mh_put h k v !! i = Some (Some (k, v)).
Proof.
  destruct (mh_put_cases h k v)
    as [(i & v0 & Hi & ->)|[(Hg & i & Hi & ->)|(Hg & _ & ->)]].
  - exists i. apply list_lookup_insert_eq. eapply lookup_lt_Some; eauto.
  - exists i. apply list_lookup_insert_eq. eapply lookup_lt_Some; eauto.
  - exists (length h). rewrite lookup_app_r by lia.
    rewrite Nat.sub_diag. reflexivity.
Qed.

Lemma mh_put_lookup_other (h : list slot) (k : K) (v : V) (j : nat) (e : K * V) :
  e.1 <> k -> h !! j = Some (Some e) -> mh_put h k v !! j = Some (Some e).
Proof.
  intros Hne Hj.
  destruct (mh_put_cases h k v)
    as [(i & v0 & Hi & ->)|[(Hg & i & Hi & ->)|(Hg & _ & ->)]].
  - rewrite list_lookup_insert_ne; [done|]. intros ->.
    rewrite Hi in Hj. injection Hj as <-. by apply Hne.
  - rewrite list_lookup_insert_ne; [done|]. intros ->. congruence.
  - apply lookup_app_l_Some. done.
Qed.

Lemma mh_wf_put (h : list slot) (k : K) (v : V) : mh_wf h -> mh_wf (mh_put h k v).
Proof.
  intros Hwf a b k' v1 v2 Ha Hb.
  destruct (decide (k' = k)) as [->|Hne].
  - (* both slots hold the key just put: it sits in one slot only *)
    destruct (mh_put_cases h k v)
      as [(i & v0 & Hi & E)|[(Hg & i & Hi & E)|(Hg & _ & E)]];
      rewrite E in Ha, Hb.
    + apply list_lookup_insert_Some in Ha as [(-> & _)|(Hna & Ha)];
        apply list_lookup_insert_Some in Hb as [(-> & _)|(Hnb & Hb)];
        try done.
      * exfalso. apply Hnb. eapply Hwf; eauto.
      * exfalso. apply Hna. eapply Hwf; eauto.
      * eapply Hwf; eauto.
    + rewrite mh_get_end in Hg.
      apply list_lookup_insert_Some in Ha as [(-> & _)|(Hna & Ha)];
        apply list_lookup_insert_Some in Hb as [(-> & _)|(Hnb & Hb)];
        try done.
      * destruct (Hg _ _ Hb).
      * destruct (Hg _ _ Ha).
      * destruct (Hg _ _ Ha).
    + rewrite mh_get_end in Hg.
      apply lookup_app_Some in Ha as [Ha|[Hla Ha]]; [destruct (Hg _ _ Ha)|].
      apply lookup_app_Some in Hb as [Hb|[Hlb Hb]]; [destruct (Hg _ _ Hb)|].
      apply list_lookup_singleton_Some in Ha as [Ha _].
      apply list_lookup_singleton_Some in Hb as [Hb _]. lia.
  - apply (mh_put_lookup h k v a _ Hwf) in Ha as [[= ? ?]|[_ Ha]]; [congruence|].
    apply (mh_put_lookup h k v b _ Hwf) in Hb as [[= ? ?]|[_ Hb]]; [congruence|].
    eapply Hwf; eauto.
Qed.

Lemma mh_find_put (h : list slot) (k : K) (v : V) (k' : K) :
  mh_wf h ->
  mh_find (mh_put h k v) k' = if decide (k' = k) then Some v else mh_find h k'.
Proof.
  intros Hwf. case_decide as Hk.
  - subst k'. destruct (mh_put_lookup_key h k v) as [i Hi].
    eapply mh_find_Some_2; eauto using mh_wf_put.
  - apply option_eq. intros v'.
    rewrite !mh_find_Some by auto using mh_wf_put.
    split; intros [j Hj]; exists j.
    + apply (mh_put_lookup h k v j _ Hwf) in Hj as [[= ? ?]|[_ Hj]];
        [congruence | done].
    + apply mh_put_lookup_other; done.
Qed.

Lemma mh_size_put (h : list slot) (k : K) (v : V) :
  mh_size (mh_put h k v) =
    if decide (mh_get h k = mh_end h) then S (mh_size h) else mh_size h.
Proof.
  unfold mh_size.
  destruct (mh_put_cases h k v)
    as [(i & v0 & Hi & ->)|[(Hg & i & Hi & ->)|(Hg & _ & ->)]].
  - rewrite decide_False by (rewrite mh_get_end; intros Hn; destruct (Hn _ _ Hi)).
    destruct (omap_id_insert h i _ (Some (k, v)) Hi) as [-> ->].
    rewrite !length_app. reflexivity.
  - rewrite decide_True by done.
    destruct (omap_id_insert h i _ (Some (k, v)) Hi) as [-> ->].
    rewrite !length_app. simpl. lia.
  - rewrite decide_True by done.
    rewrite omap_app, length_app. simpl. lia.
Qed.

Lemma mh_wf_init : mh_wf (@mh_init K V).
Proof. intros i j k v v' Hi. destruct i; discriminate. Qed.

Lemma mh_wf_del_key (h : list slot) (k : K) : mh_wf h -> mh_wf (mh_del_key h k).
Proof. unfold mh_del_key. case_decide; auto using mh_wf_del. Qed.

Lemma mh_find_del_key (h : list slot) (k k' : K) :
  mh_wf h ->
  mh_find (mh_del_key h k) k' = if decide (k' = k) then None else mh_find h k'.
Proof.
  intros Hwf. unfold mh_del_key. case_decide as Hg.
  - apply mh_find_del; done.
  - case_decide; [|done]. subst k'. apply mh_find_None.
    destruct (decide (mh_get h k = mh_end h)); [done | contradiction].
Qed.

Lemma mh_del_key_absent (h : list slot) (k : K) :
  mh_find h k = None -> mh_del_key h k = h.
Proof.
  rewrite mh_find_None. intros Hg. unfold mh_del_key.
  rewrite decide_False; [done|]. intros Hn. contradiction.
Qed.

Lemma mh_size_del_key (h : list slot) (k : K) :
  mh_size h =
    match mh_find h k with
    | Some _ => S (mh_size (mh_del_key h k))
    | None => mh_size (mh_del_key h k)
    end.
Proof.
  destruct (mh_find h k) as [v|] eqn:E.
  - unfold mh_del_key. rewrite decide_True.
    + symmetry. apply mh_size_del. rewrite <- mh_find_None. congruence.
    + rewrite <- mh_find_None. congruence.
  - rewrite mh_del_key_absent; done.
Qed.

Lemma mh_size_put_find (h : list slot) (k : K) (v : V) :
  mh_size (mh_put h k v) =
    match mh_find h k with
    | Some _ => mh_size h
    | None => S (mh_size h)
    end.
Proof.
  rewrite mh_size_put. destruct (mh_find h k) as [v'|] eqn:E.
  - rewrite decide_False; [done|]. rewrite <- mh_find_None. congruence.
  - rewrite decide_True; [done|]. by apply mh_find_None.
Qed.

End TableFacts.
End MHashFacts.
Export MHashFacts.

(** ** What the methods of each class do to its table *)

Ltac run_method :=
  unfold bind, ret, gets, modify, deref, tnt_raise, fault, parts0_fieldno;
  simpl.

Module Hash32Facts.
Import Hash32.

Lemma set_int_hash_id (self : Hash32Index) : set_int_hash (int_hash self) self = self.
Proof. destruct self; reflexivity. Qed.

Lemma h32_find_eq (self : Hash32Index) (p q : list byte) :
  load_varint32 p = (4, q) ->
  find (Some p) self = (Ok (mh_find (int_hash self) (load_u32 q)), self).
Proof.
  intros Hp. unfold find, mh_find. run_method. rewrite Hp. simpl.
  repeat case_decide; first [reflexivity | contradiction].
Qed.

Lemma h32_find_raise (self : Hash32Index) (p : list byte) :
  (load_varint32 p).1 <> 4 ->
  find (Some p) self = (Raised (IllegalParams "key is not u32"), self).
Proof.
  intros Hp. unfold find. run_method.
  destruct (load_varint32 p) as [sz q]. simpl in *.
  rewrite decide_True by done. reflexivity.
Qed.

Lemma h32_remove_eq (self : Hash32Index) (tuple : box_tuple) (part : key_part)
    (p q : list byte) :
  parts (key_def self) !! 0%nat = Some part ->
  tuple_field tuple (fieldno part) = Some p ->
  load_varint32 p = (4, q) ->
  remove tuple self
  = (Ok tt, set_int_hash (mh_del_key (int_hash self) (load_u32 q)) self).
Proof.
  intros Hpart Hf Hp. unfold remove, mh_del_key. run_method.
  rewrite Hpart. simpl. rewrite Hf. simpl. rewrite Hp. simpl.
  destruct (decide (mh_get (int_hash self) (load_u32 q) <> mh_end (int_hash self)));
    [reflexivity|]. rewrite set_int_hash_id. reflexivity.
Qed.

Lemma h32_replace_eq (self : Hash32Index) (old_tuple : option box_tuple)
    (new_tuple : box_tuple) (part : key_part) (p q : list byte) :
  parts (key_def self) !! 0%nat = Some part ->
  tuple_field new_tuple (fieldno part) = Some p ->
  load_varint32 p = (4, q) ->
  (forall old, old_tuple = Some old -> is_Some (tuple_field old (fieldno part))) ->
  replace old_tuple new_tuple self
  = (Ok tt,
     set_int_hash
       (mh_put
          match old_tuple ≫= (fun old => tuple_field old (fieldno part)) with
          | Some old_p =>
              mh_del_key (int_hash self) (load_u32 (load_varint32 old_p).2)
          | None => int_hash self
          end (load_u32 q) new_tuple) self).
Proof.
  intros Hpart Hf Hp Hold. unfold replace, mh_del_key. run_method.
  rewrite Hpart. simpl. rewrite Hf. simpl. rewrite Hp. simpl.
  destruct old_tuple as [old|]; simpl; [|reflexivity].
  destruct (Hold old eq_refl) as [old_p Hop]. rewrite Hop. simpl.
  destruct (load_varint32 old_p) as [sz old_q]. simpl.
  destruct (decide (mh_get (int_hash self) (load_u32 old_q) <> mh_end (int_hash self)));
    reflexivity.
Qed.

End Hash32Facts.

Module Hash64Facts.
Import Hash64.

Lemma set_int64_hash_id (self : Hash64Index) : set_int64_hash (int64_hash self) self = self.
Proof. destruct self; reflexivity. Qed.

Lemma h64_find_eq (self : Hash64Index) (p q : list byte) :
  load_varint32 p = (8, q) ->
  find (Some p) self = (Ok (mh_find (int64_hash self) (load_u64 q)), self).
Proof.
  intros Hp. unfold find, mh_find. run_method. rewrite Hp. simpl.
  repeat case_decide; first [reflexivity | contradiction].
Qed.

Lemma h64_find_raise (self : Hash64Index) (p : list byte) :
  (load_varint32 p).1 <> 8 ->
  find (Some p) self = (Raised (IllegalParams "key is not u64"), self).
Proof.
  intros Hp. unfold find. run_method.
  destruct (load_varint32 p) as [sz q]. simpl in *.
  rewrite decide_True by done. reflexivity.
Qed.

Lemma h64_remove_eq (self : Hash64Index) (tuple : box_tuple) (part : key_part)
    (p q : list byte) :
  parts (key_def self) !! 0%nat = Some part ->
  tuple_field tuple (fieldno part) = Some p ->
  load_varint32 p = (8, q) ->
  remove tuple self
  = (Ok tt, set_int64_hash (mh_del_key (int64_hash self) (load_u64 q)) self).
Proof.
  intros Hpart Hf Hp. unfold remove, mh_del_key. run_method.
  rewrite Hpart. simpl. rewrite Hf. simpl. rewrite Hp. simpl.
  destruct (decide (mh_get (int64_hash self) (load_u64 q) <> mh_end (int64_hash self)));
    [reflexivity|]. rewrite set_int64_hash_id. reflexivity.
Qed.

Lemma h64_replace_eq (self : Hash64Index) (old_tuple : option box_tuple)
    (new_tuple : box_tuple) (part : key_part) (p q : list byte) :
  parts (key_def self) !! 0%nat = Some part ->
  tuple_field new_tuple (fieldno part) = Some p ->
  load_varint32 p = (8, q) ->
  (forall old, old_tuple = Some old -> is_Some (tuple_field old (fieldno part))) ->
  replace old_tuple new_tuple self
  = (Ok tt,
     set_int64_hash
       (mh_put
          match old_tuple ≫= (fun old => tuple_field old (fieldno part)) with
          | Some old_p =>
              mh_del_key (int64_hash self) (load_u64 (load_varint32 old_p).2)
          | None => int64_hash self
          end (load_u64 q) new_tuple) self).
Proof.
  intros Hpart Hf Hp Hold. unfold replace, mh_del_key. run_method.
  rewrite Hpart. simpl. rewrite Hf. simpl. rewrite Hp. simpl.
  destruct old_tuple as [old|]; simpl; [|reflexivity].
  destruct (Hold old eq_refl) as [old_p Hop]. rewrite Hop. simpl.
  destruct (load_varint32 old_p) as [sz old_q]. simpl.
  destruct (decide (mh_get (int64_hash self) (load_u64 old_q) <> mh_end (int64_hash self)));
    reflexivity.
Qed.

End Hash64Facts.

Module HashStrFacts.
Import HashStr.

Lemma set_str_hash_id (self : HashStrIndex) : set_str_hash (str_hash self) self = self.
Proof. destruct self; reflexivity. Qed.

Lemma hstr_find_eq (self : HashStrIndex) (p : list byte) :
  find (Some p) self = (Ok (mh_find (str_hash self) (lstr p)), self).
Proof.
  unfold find, mh_lstrptr_get, mh_find. run_method.
  repeat case_decide; first [reflexivity | contradiction].
Qed.

Lemma hstr_remove_eq (self : HashStrIndex) (tuple : box_tuple) (part : key_part)
    (p : list byte) :
  parts (key_def self) !! 0%nat = Some part ->
  tuple_field tuple (fieldno part) = Some p ->
  remove tuple self
  = (Ok tt, set_str_hash (mh_del_key (str_hash self) (lstr p)) self).
Proof.
  intros Hpart Hf. unfold remove, mh_lstrptr_get, mh_del_key. run_method.
  rewrite Hpart. simpl. rewrite Hf. simpl.
  destruct (decide (mh_get (str_hash self) (lstr p) <> mh_end (str_hash self)));
    [reflexivity|]. rewrite set_str_hash_id. reflexivity.
Qed.

Lemma hstr_replace_eq (self : HashStrIndex) (old_tuple : option box_tuple)
    (new_tuple : box_tuple) (part : key_part) (p : list byte) :
  parts (key_def self) !! 0%nat = Some part ->
  tuple_field new_tuple (fieldno part) = Some p ->
  (forall old, old_tuple = Some old -> is_Some (tuple_field old (fieldno part))) ->
  replace old_tuple new_tuple self
  = (Ok tt,
     set_str_hash
       (mh_put
          match old_tuple ≫= (fun old => tuple_field old (fieldno part)) with
          | Some old_p => mh_del_key (str_hash self) (lstr old_p)
          | None => str_hash self
          end (lstr p) new_tuple) self).
Proof.
  intros Hpart Hf Hold. unfold replace, mh_lstrptr_get, mh_del_key. run_method.
  rewrite Hpart. simpl. rewrite Hf. simpl.
  destruct old_tuple as [old|]; simpl; [|reflexivity].
  destruct (Hold old eq_refl) as [old_p Hop]. rewrite Hop. simpl.
  destruct (decide (mh_get (str_hash self) (lstr old_p) <> mh_end (str_hash self)));
    reflexivity.
Qed.

End HashStrFacts.

(** ** The hash indexes behind their interface *)

Module HashIndexFacts.
Import HashIndex.

Ltac split_record_key H part p :=
  unfold record_key, key_field in H; simpl in H;
  destruct (parts _ !! 0%nat) as [part|] eqn:?; [|discriminate H];
  destruct (tuple_field _ (fieldno part)) as [p|] eqn:?; [|discriminate H];
  simpl in H.

Ltac split_width_as H sz q E :=
  match type of H with
  | context [load_varint32 ?p] => destruct (load_varint32 p) as [sz q] eqn:E
  end;
  simpl in H;
  match type of H with
  | context [bool_decide ?P] =>
      destruct (bool_decide_reflect P); [subst sz | discriminate H]
  end.

Ltac split_width H sz q := let E := fresh "Hwidth" in split_width_as H sz q E.

Ltac decide_keys :=
  repeat case_decide; try reflexivity; try congruence.

Lemma hi_find_valid (self : HashIndex) (p : list byte) :
  valid_key self p = true ->
  find (Some p) self = (Ok (stored self (decode self p)), self).
Proof.
  destruct self as [i|i|i]; simpl; intros Hv.
  - destruct (load_varint32 p) as [sz q] eqn:E. simpl in *.
    case_bool_decide; [subst sz | discriminate].
    rewrite (Hash32Facts.h32_find_eq i p q E). reflexivity.
  - destruct (load_varint32 p) as [sz q] eqn:E. simpl in *.
    case_bool_decide; [subst sz | discriminate].
    rewrite (Hash64Facts.h64_find_eq i p q E). reflexivity.
  - rewrite HashStrFacts.hstr_find_eq. reflexivity.
Qed.

Lemma hi_find_invalid (self : HashIndex) (p : list byte) :
  valid_key self p = false ->
  exists e, find (Some p) self = (Raised e, self) /\ is_InvalidKeyType e = true.
Proof.
  destruct self as [i|i|i]; simpl; intros Hv; [| |discriminate];
    case_bool_decide; try discriminate.
  - rewrite Hash32Facts.h32_find_raise by done. eauto.
  - rewrite Hash64Facts.h64_find_raise by done. eauto.
Qed.

Lemma same_keys_record_key (self self' : HashIndex) (t : box_tuple) :
  same_keys self self' -> record_key self' t = record_key self t.
Proof.
  intros (Hf & Hv & Hd). unfold record_key. rewrite Hf.
  destruct (key_field self t) as [p|]; [|done]. by rewrite Hv, Hd.
Qed.

Lemma record_key_inv (self : HashIndex) (t : box_tuple) (k : hkey) :
  record_key self t = Some k ->
  exists p, key_field self t = Some p /\ valid_key self p = true /\ decode self p = k.
Proof.
  unfold record_key. destruct (key_field self t) as [p|]; [|discriminate].
  destruct (valid_key self p) eqn:E; [|discriminate]. intros [= <-]. eauto.
Qed.

Lemma hi_remove (self : HashIndex) (r : box_tuple) (k : hkey) :
  record_key self r = Some k -> remove r self = (Ok tt, delete_key self k).
Proof.
  intros Hk. destruct self as [i|i|i].
  - split_record_key Hk part p. split_width Hk sz q. injection Hk as <-.
    simpl. erewrite Hash32Facts.h32_remove_eq by eassumption. reflexivity.
  - split_record_key Hk part p. split_width Hk sz q. injection Hk as <-.
    simpl. erewrite Hash64Facts.h64_remove_eq by eassumption. reflexivity.
  - split_record_key Hk part p. injection Hk as <-.
    simpl. erewrite HashStrFacts.hstr_remove_eq by eassumption. reflexivity.
Qed.

Lemma hi_delete_key (self : HashIndex) (k : hkey) :
  index_wf self ->
  index_wf (delete_key self k)
  /\ same_keys self (delete_key self k)
  /\ (forall k', stored (delete_key self k) k'
                 = if decide (k' = k) then None else stored self k')
  /\ count self = match stored self k with
                  | Some _ => S (count (delete_key self k))
                  | None => count (delete_key self k)
                  end
  /\ (stored self k = None -> delete_key self k = self).
Proof.
  intros Hwf.
  destruct self as [i|i|i], k as [n|n|s]; simpl in *;
    try (split; [done|]; split; [done|]; split; [|done];
         intros [n'|n'|s']; simpl; by decide_keys).
  - split; [by apply mh_wf_del_key|]. split; [done|]. split; [|split].
    + intros [n'|n'|s']; simpl; try (by decide_keys).
      rewrite mh_find_del_key by done. decide_keys.
    + apply mh_size_del_key.
    + intros Hn. rewrite mh_del_key_absent by done.
      by rewrite Hash32Facts.set_int_hash_id.
  - split; [by apply mh_wf_del_key|]. split; [done|]. split; [|split].
    + intros [n'|n'|s']; simpl; try (by decide_keys).
      rewrite mh_find_del_key by done. decide_keys.
    + apply mh_size_del_key.
    + intros Hn. rewrite mh_del_key_absent by done.
      by rewrite Hash64Facts.set_int64_hash_id.
  - split; [by apply mh_wf_del_key|]. split; [done|]. split; [|split].
    + intros [n'|n'|s']; simpl; try (by decide_keys).
      rewrite mh_find_del_key by done. decide_keys.
    + apply mh_size_del_key.
    + intros Hn. rewrite mh_del_key_absent by done.
      by rewrite HashStrFacts.set_str_hash_id.
Qed.

Lemma hi_insert (self : HashIndex) (new : box_tuple) (k : hkey) :
  record_key self new = Some k -> replace None new self = (Ok tt, insert_key self k new).
Proof.
  intros Hk. destruct self as [i|i|i].
  - split_record_key Hk part p. split_width Hk sz q. injection Hk as <-.
    simpl. erewrite Hash32Facts.h32_replace_eq by (eassumption || done). reflexivity.
  - split_record_key Hk part p. split_width Hk sz q. injection Hk as <-.
    simpl. erewrite Hash64Facts.h64_replace_eq by (eassumption || done). reflexivity.
  - split_record_key Hk part p. injection Hk as <-.
    simpl. erewrite HashStrFacts.hstr_replace_eq by (eassumption || done). reflexivity.
Qed.

Lemma hi_insert_key (self : HashIndex) (new : box_tuple) (k : hkey) :
  index_wf self -> is_Some (stored (insert_key self k new) k) ->
  index_wf (insert_key self k new)
  /\ same_keys self (insert_key self k new)
  /\ (forall k', stored (insert_key self k new) k'
                 = if decide (k' = k) then Some new else stored self k')
  /\ count (insert_key self k new) = match stored self k with
                                     | Some _ => count self
                                     | None => S (count self)
                                     end.
Proof.
  intros Hwf Hin.
  destruct self as [i|i|i], k as [n|n|s]; simpl in *;
    try (by destruct Hin).
  - split; [by apply mh_wf_put|]. split; [done|]. split.
    + intros [n'|n'|s']; simpl; try (by decide_keys).
      rewrite mh_find_put by done. decide_keys.
    + apply mh_size_put_find.
  - split; [by apply mh_wf_put|]. split; [done|]. split.
    + intros [n'|n'|s']; simpl; try (by decide_keys).
      rewrite mh_find_put by done. decide_keys.
    + apply mh_size_put_find.
  - split; [by apply mh_wf_put|]. split; [done|]. split.
    + intros [n'|n'|s']; simpl; try (by decide_keys).
      rewrite mh_find_put by done. decide_keys.
    + apply mh_size_put_find.
Qed.

(** The key of a record is of the class of the index. *)
Lemma record_key_class (self : HashIndex) (t new : box_tuple) (k : hkey) :
  index_wf self -> record_key self t = Some k ->
  is_Some (stored (insert_key self k new) k).
Proof.
  intros Hwf Hk. apply record_key_inv in Hk as (p & _ & _ & <-).
  destruct self as [i|i|i]; simpl; rewrite mh_find_put by done;
    rewrite decide_True by done; eauto.
Qed.

(** With an old record, [replace] is [remove] of the old record followed by
    [replace] without one. *)
Lemma hi_replace_split (self : HashIndex) (old new : box_tuple) :
  is_Some (record_key self old) -> is_Some (record_key self new) ->
  replace (Some old) new self = (do_ remove old; replace None new) self.
Proof.
  intros [ko Hko] [kn Hkn].
  unfold record_key, key_field in Hko, Hkn.
  destruct (parts (key_def self) !! 0%nat) as [part|] eqn:Hpart; [|discriminate].
  destruct (tuple_field old (fieldno part)) as [p|] eqn:Hp; [|discriminate].
  destruct (tuple_field new (fieldno part)) as [p'|] eqn:Hp'; [|discriminate].
  destruct self as [i|i|i]; simpl in Hpart, Hko, Hkn.
  - split_width_as Hko sz q Eo. split_width_as Hkn sz' q' En.
    unfold bind. simpl.
    rewrite (Hash32Facts.h32_remove_eq i old part p q Hpart Hp Eo). simpl.
    rewrite (Hash32Facts.h32_replace_eq i (Some old) new part p' q' Hpart Hp' En)
      by (intros o [= <-]; eauto).
    rewrite (Hash32Facts.h32_replace_eq
               (Hash32.set_int_hash (mh_del_key (Hash32.int_hash i) (load_u32 q)) i)
               None new part p' q' Hpart Hp' En) by done.
    simpl. rewrite Hp. simpl. rewrite Eo. reflexivity.
  - split_width_as Hko sz q Eo. split_width_as Hkn sz' q' En.
    unfold bind. simpl.
    rewrite (Hash64Facts.h64_remove_eq i old part p q Hpart Hp Eo). simpl.
    rewrite (Hash64Facts.h64_replace_eq i (Some old) new part p' q' Hpart Hp' En)
      by (intros o [= <-]; eauto).
    rewrite (Hash64Facts.h64_replace_eq
               (Hash64.set_int64_hash (mh_del_key (Hash64.int64_hash i) (load_u64 q)) i)
               None new part p' q' Hpart Hp' En) by done.
    simpl. rewrite Hp. simpl. rewrite Eo. reflexivity.
  - unfold bind. simpl.
    rewrite (HashStrFacts.hstr_remove_eq i old part p Hpart Hp). simpl.
    rewrite (HashStrFacts.hstr_replace_eq i (Some old) new part p' Hpart Hp')
      by (intros o [= <-]; eauto).
    rewrite (HashStrFacts.hstr_replace_eq
               (HashStr.set_str_hash (mh_del_key (HashStr.str_hash i) (HashStr.lstr p)) i)
               None new part p' Hpart Hp') by done.
    simpl. rewrite Hp. reflexivity.
Qed.

End HashIndexFacts.

(** ** The keyed iterator *)

Module IteratorFacts.
Import HashIndex HashIndexFacts KeyedIterator.

Section View.
Context {K : Type} `{EqDecision K}.
Implicit Types h : list (option (K * box_tuple)).

Lemma mh_end_view h : mh_end (mh_view h) = mh_end h.
Proof. unfold mh_end, mh_view. apply length_map. Qed.

Lemma mh_view_lookup h (i : nat) : mh_view h !! i = erase_key <$> h !! i.
Proof. unfold mh_view. apply list_lookup_fmap. Qed.

Lemma mh_exist_view h (i : nat) : mh_exist (mh_view h) i = mh_exist h i.
Proof.
  unfold mh_exist. rewrite mh_view_lookup.
  destruct (h !! i) as [[[k v]|]|]; reflexivity.
Qed.

Lemma mh_value_view h (i : nat) : mh_value (mh_view h) i = mh_value h i.
Proof.
  unfold mh_value. rewrite mh_view_lookup.
  destruct (h !! i) as [[[k v]|]|]; reflexivity.
Qed.

Lemma first_equal_positioned h (k : K) :
  call_next_equal (positioned h k) = (Ok (mh_find h k), exhausted h k).
Proof.
  unfold call_next_equal, iterator_first_equal, call_next, hash_iterator_next,
    assert_next, positioned, exhausted, mh_find.
  run_method. rewrite mh_end_view. run_method.
  unfold set_next, set_next_equal, set_h_pos. simpl.
  rewrite mh_end_view, mh_exist_view, mh_value_view.
  destruct (decide (mh_get h k <> mh_end h)) as [Hg|Hg].
  - rewrite decide_False by done.
    destruct (mh_get_found h k Hg) as (v & Hv & _).
    unfold mh_exist. rewrite Hv. reflexivity.
  - rewrite decide_True by (by destruct (decide (mh_get h k = mh_end h))).
    reflexivity.
Qed.

End View.

Lemma next_equal_exhausted (it : hash_iterator) (n : nat) :
  next_equal (base it) = fn_iterator_next_equal ->
  call_next_equal_n n it = (repeat (Ok None) n, it).
Proof.
  intros Hit. induction n as [|n IH]; [reflexivity|].
  simpl. unfold call_next_equal at 1. run_method. rewrite Hit.
  unfold iterator_next_equal, ret. rewrite IH. reflexivity.
Qed.

Lemma initIterator_key_positions (self : HashIndex) (p : list byte)
    (it : hash_iterator) :
  valid_key self p = true ->
  initIterator_key self (Some p) 1 it = (Ok tt, positioned_at self p).
Proof.
  intros Hv. destruct self as [i|i|i]; simpl in *.
  - destruct (load_varint32 p) as [sz q] eqn:E. simpl in *.
    case_bool_decide; [subst sz | discriminate].
    unfold Hash32.initIterator_key, assert_next. run_method.
    rewrite E. reflexivity.
  - destruct (load_varint32 p) as [sz q] eqn:E. simpl in *.
    case_bool_decide; [subst sz | discriminate].
    unfold Hash64.initIterator_key, assert_next. run_method.
    rewrite E. reflexivity.
  - unfold HashStr.initIterator_key, assert_next. run_method. reflexivity.
Qed.

Lemma first_equal_positioned_at (self : HashIndex) (p : list byte) :
  call_next_equal (positioned_at self p)
  = (Ok (stored self (decode self p)), exhausted_at self p).
Proof. destruct self as [i|i|i]; simpl; apply first_equal_positioned. Qed.

Lemma exhausted_at_next_equal (self : HashIndex) (p : list byte) :
  next_equal (base (exhausted_at self p)) = fn_iterator_next_equal.
Proof. destruct self; reflexivity. Qed.

End IteratorFacts.

(** ** C strings *)

Module CStringFacts.

Lemma byte_val_inj (a b : byte) : byte_val a = byte_val b -> a = b.
Proof.
  unfold byte_val. intros H. apply N2Z.inj in H.
  pose proof (Byte.of_to_N a) as Ha. pose proof (Byte.of_to_N b) as Hb.
  rewrite H in Ha. congruence.
Qed.

Lemma byte_val_x00 (b : byte) : byte_val b = 0 -> b = x00.
Proof. intros H. apply byte_val_inj. rewrite H. reflexivity. Qed.

Lemma strlen_cstr (s : list byte) : strlen (cstr s) = strlen s.
Proof.
  unfold cstr. induction s as [|b r IH]; [reflexivity|].
  simpl. destruct (decide (b = x00)); [reflexivity|].
  simpl. rewrite decide_False by done. by rewrite IH.
Qed.

Lemma cstr_idemp (s : list byte) : cstr (cstr s) = cstr s.
Proof.
  unfold cstr at 1. rewrite strlen_cstr. unfold cstr.
  rewrite take_take. f_equal. lia.
Qed.

Lemma length_cstr (s : list byte) : length (cstr s) = strlen s.
Proof.
  unfold cstr. induction s as [|b r IH]; [reflexivity|].
  simpl. destruct (decide (b = x00)); [reflexivity|]. simpl. by rewrite IH.
Qed.

Lemma strcmp_antisym (s t : list byte) : strcmp t s = - strcmp s t.
Proof.
  revert t. induction s as [|a r IH]; intros [|b u]; simpl; try lia.
  destruct (decide (a = b)) as [->|Hne].
  - rewrite decide_True by done. destruct (decide (b = x00)); [lia | apply IH].
  - rewrite decide_False by congruence. lia.
Qed.

Lemma strcmp_eq (s t : list byte) : strcmp s t = 0 <-> cstr s = cstr t.
Proof.
  unfold cstr. revert t.
  induction s as [|a r IH]; intros [|b u]; simpl.
  - done.
  - pose proof (byte_val_range b) as Hr. split.
    + intros H. assert (b = x00) as -> by (apply byte_val_x00; lia). done.
    + destruct (decide (b = x00)) as [->|]; [done | discriminate].
  - pose proof (byte_val_range a) as Hr. split.
    + intros H. assert (a = x00) as -> by (apply byte_val_x00; lia). done.
    + destruct (decide (a = x00)) as [->|]; [done | discriminate].
  - destruct (decide (a = b)) as [->|Hne].
    + destruct (decide (b = x00)); [done|].
      simpl. rewrite IH. split; [by intros ->|]. by intros [= ?].
    + split.
      * intros H. destruct Hne. apply byte_val_inj. lia.
      * destruct (decide (a = x00)) as [->|], (decide (b = x00)) as [->|];
          simpl; try done. intros [= ? _]. done.
Qed.

Lemma strcmp_refl (s : list byte) : strcmp s s = 0.
Proof. by apply strcmp_eq. Qed.

Lemma byte_val_neq (a b : byte) : a <> b -> byte_val a <> byte_val b.
Proof. intros Hne Heq. apply Hne. by apply byte_val_inj. Qed.

Ltac byte_facts :=
  repeat match goal with
         | b : byte |- _ =>
             lazymatch goal with
             | H : 0 <= byte_val b < 256 |- _ => fail
             | _ => pose proof (byte_val_range b)
             end
         end;
  repeat match goal with
         | H : @eq byte _ _ -> False |- _ => apply byte_val_neq in H
         | H : not (@eq byte _ _) |- _ => apply byte_val_neq in H
         end;
  change (byte_val x00) with 0 in *.

Lemma strcmp_trans (s t u : list byte) :
  strcmp s t <= 0 -> strcmp t u <= 0 ->
  strcmp s u <= 0 /\ (strcmp s u = 0 -> strcmp s t = 0 /\ strcmp t u = 0).
Proof.
  revert t u. induction s as [|a r IH]; intros [|b t] [|c u]; simpl;
    repeat case_decide; subst; byte_facts; try lia.
  apply IH.
Qed.

End CStringFacts.
Export CStringFacts.

(** ** The tuple dictionary *)

Module TupleDictionaryFacts.
Import Assoc TupleDictionary DictionaryOrder.

Section Construction.
Context `{fnh : FieldNameHash}.

Lemma take_strlen_cstr (nm : list byte) : take (strlen nm) (cstr nm) = cstr nm.
Proof. unfold cstr. rewrite take_take. f_equal. lia. Qed.


Lemma name_key_str (nm : list byte) : str (name_key nm) = cstr nm.
Proof. apply take_strlen_cstr. Qed.

Lemma name_key_inj (nm nm' : list byte) :
  name_key nm = name_key nm' <-> cstr nm = cstr nm'.
Proof.
  split.
  - intros H. apply (f_equal str) in H. by rewrite !name_key_str in H.
  - intros H. unfold name_key.
    assert (strlen nm = strlen nm') as <- by (by rewrite <- !length_cstr, H).
    by rewrite H.
Qed.

Lemma hash_inv_init (name_data : list (list byte)) : hash_inv name_data 0 mh_init.
Proof.
  split; [apply mh_wf_init|]. intros k v. split; [discriminate | lia].
Qed.

Lemma hash_inv_find_fresh (name_data : list (list byte)) (i : nat)
    (h : list (option (mh_strnu32_key_t * nat))) (nm : list byte) :
  hash_inv name_data i h ->
  cstr nm ∉ map cstr (take i name_data) ->
  mh_find h (name_key nm) = None.
Proof.
  intros [_ Hinv] Hnot.
  destruct (mh_find h (name_key nm)) as [v|] eqn:E; [|done].
  apply Hinv in E as (Hv & nm' & Hnm' & Hk). destruct Hnot.
  apply name_key_inj in Hk. rewrite Hk.
  apply list_elem_of_In, in_map, list_elem_of_In.
  apply list_elem_of_lookup. exists v. rewrite lookup_take_lt by done. done.
Qed.

Lemma hash_inv_find_dup (name_data : list (list byte)) (i : nat)
    (h : list (option (mh_strnu32_key_t * nat))) (nm : list byte) :
  hash_inv name_data i h ->
  cstr nm ∈ map cstr (take i name_data) ->
  is_Some (mh_find h (name_key nm)).
Proof.
  intros [_ Hinv] Hin.
  apply list_elem_of_In, in_map_iff in Hin as (nm' & Heq & Hin).
  apply list_elem_of_In, list_elem_of_lookup in Hin as [v Hv].
  apply lookup_take_Some in Hv as [Hv Hlt].
  exists v. apply Hinv. split; [done|]. exists nm'. split; [done|].
  by apply name_key_inj.
Qed.

Lemma hash_inv_put (name_data : list (list byte)) (i : nat)
    (h : list (option (mh_strnu32_key_t * nat))) (nm : list byte) :
  hash_inv name_data i h ->
  name_data !! i = Some nm ->
  mh_find h (name_key nm) = None ->
  hash_inv name_data (S i) (mh_put h (name_key nm) i).
Proof.
  intros [Hwf Hinv] Hnm Hfresh. split; [by apply mh_wf_put|].
  intros k v. rewrite mh_find_put by done. case_decide as Hk.
  - subst k. split.
    + intros [= <-]. split; [lia|]. eauto.
    + intros (Hv & nm' & Hnm' & Hk).
      destruct (decide (v = i)) as [->|Hne]; [done|].
      assert (mh_find h (name_key nm) = Some v) as Hf.
      { apply Hinv. split; [lia|]. eauto. }
      congruence.
  - rewrite Hinv. split.
    + intros (Hv & Hex). split; [lia | done].
    + intros (Hv & nm' & Hnm' & ->). split; [|eauto].
      destruct (decide (v = i)) as [->|Hne]; [|lia]. congruence.
Qed.

(** *** One call of [tuple_dictionary_set_name] *)

Lemma set_name_fresh (dict : tuple_dictionary)
    (h : list (option (mh_strnu32_key_t * nat))) (nm : list byte) (i : nat)
    (diag : diag_t) :
  hash dict = Some h -> (i < name_count dict)%nat ->
  mh_find h (name_key nm) = None ->
  tuple_dictionary_set_name dict (cstr nm) (strlen nm) i diag
  = (Ok (0, set_hash (mh_put h (name_key nm) i) dict), diag).
Proof.
  intros Hh Hi Hf. unfold tuple_dictionary_set_name, assert. run_method.
  rewrite bool_decide_true by done. rewrite Hh. simpl.
  apply mh_find_None in Hf. fold (name_key nm).
  rewrite decide_False; [reflexivity|]. intros Hn. contradiction.
Qed.

Lemma set_name_dup (dict : tuple_dictionary)
    (h : list (option (mh_strnu32_key_t * nat))) (nm : list byte) (i : nat)
    (diag : diag_t) :
  hash dict = Some h -> (i < name_count dict)%nat ->
  is_Some (mh_find h (name_key nm)) ->
  tuple_dictionary_set_name dict (cstr nm) (strlen nm) i diag
  = (Ok (-1, dict), diag_ClientError ER_SPACE_FIELD_IS_DUPLICATE (cstr nm)).
Proof.
  intros Hh Hi [v Hf]. unfold tuple_dictionary_set_name, assert, diag_set.
  run_method. rewrite bool_decide_true by done. rewrite Hh. simpl.
  fold (name_key nm). rewrite decide_True; [reflexivity|].
  rewrite <- mh_find_None. congruence.
Qed.

(** *** The loops of [tuple_dictionary_new_impl] *)

Lemma reserve_loop_ok (name_data : list (list byte)) (fuel i : nat) (diag : diag_t) :
  (i + fuel <= length name_data)%nat ->
  reserve_loop name_data fuel i diag = (Ok tt, diag).
Proof.
  revert i. induction fuel as [|fuel IH]; intros i Hle; [reflexivity|].
  simpl. run_method.
  destruct (lookup_lt_is_Some_2 name_data i ltac:(lia)) as [nm ->]. simpl.
  apply IH. lia.
Qed.

Lemma take_S_insert (ns : list (list byte)) (i : nat) (x : list byte) :
  (i < length ns)%nat -> take (S i) (<[i := x]> ns) = take i ns ++ [x].
Proof.
  intros Hi. rewrite (take_S_r _ _ x) by (by apply list_lookup_insert_eq).
  by rewrite take_insert_ge.
Qed.

Lemma map_cstr_take_S (name_data : list (list byte)) (i : nat) (nm : list byte) :
  name_data !! i = Some nm ->
  map cstr (take (S i) name_data) = map cstr (take i name_data) ++ [cstr nm].
Proof. intros Hnm. rewrite (take_S_r _ _ nm) by done. by rewrite map_app. Qed.

Lemma set_names_loop_ok (name_data : list (list byte)) (fuel : nat) :
  forall (i : nat) (dict : tuple_dictionary)
         (h : list (option (mh_strnu32_key_t * nat))) (ns : list (list byte))
         (diag : diag_t),
    hash dict = Some h -> names dict = Some ns ->
    length ns = name_count dict -> length name_data = name_count dict ->
    (i + fuel = name_count dict)%nat ->
    hash_inv name_data i h ->
    take i ns = map cstr (take i name_data) ->
    NoDup (map cstr name_data) ->
    exists h',
      set_names_loop name_data fuel i dict diag
      = (Ok (Some {| hash := Some h'; names := Some (map cstr name_data);
                     name_count := name_count dict; refs := refs dict |}), diag)
      /\ hash_inv name_data (name_count dict) h'.
Proof.
  induction fuel as [|fuel IH]; intros i dict h ns diag Hh Hns Hlen Hdata Hi Hinv Htake Hnd.
  - exists h. assert (i = name_count dict) as -> by lia. split; [|done].
    simpl. unfold ret. do 2 f_equal. destruct dict as [dh dn dc dr].
    simpl in *. subst dh dn. do 2 f_equal.
    rewrite <- (take_ge ns dc) by lia. rewrite Htake.
    by rewrite take_ge by lia.
  - destruct (lookup_lt_is_Some_2 name_data i ltac:(lia)) as [nm Hnm].
    assert (Hfresh : cstr nm ∉ map cstr (take i name_data)).
    { rewrite <- (take_drop (S i) name_data), map_app,
        (map_cstr_take_S _ _ nm Hnm) in Hnd.
      apply NoDup_app in Hnd as [Hnd _].
      apply NoDup_app in Hnd as (_ & Hnd & _).
      intros Hin. apply (Hnd _ Hin). by left. }
    cbn [set_names_loop]. run_method. rewrite Hnm. simpl. rewrite Hns. simpl.
    fold (cstr nm).
    rewrite (set_name_fresh _ h nm i diag)
      by (simpl; first [done | lia | by eapply hash_inv_find_fresh]).
    simpl.
    destruct (IH (S i)
                (set_hash (mh_put h (name_key nm) i)
                   (set_names (<[i := cstr nm]> ns) dict))
                (mh_put h (name_key nm) i) (<[i := cstr nm]> ns) diag)
      as (h' & Hrun & Hinv'); simpl; try done; try lia.
    + by rewrite length_insert.
    + apply hash_inv_put; [done | done |]. by eapply hash_inv_find_fresh.
    + rewrite take_S_insert by lia. rewrite (map_cstr_take_S _ _ nm Hnm).
      by rewrite Htake.
    + exists h'. split; [|done]. exact Hrun.
Qed.

Lemma set_names_loop_dup (name_data : list (list byte)) (fuel : nat) :
  forall (i : nat) (dict : tuple_dictionary)
         (h : list (option (mh_strnu32_key_t * nat))) (ns : list (list byte))
         (diag : diag_t),
    hash dict = Some h -> names dict = Some ns ->
    length name_data = name_count dict ->
    (i + fuel = name_count dict)%nat ->
    hash_inv name_data i h ->
    NoDup (map cstr (take i name_data)) ->
    ~ NoDup (map cstr name_data) ->
    exists nm,
      set_names_loop name_data fuel i dict diag
      = (Ok None, diag_ClientError ER_SPACE_FIELD_IS_DUPLICATE nm)
      /\ nm ∈ map cstr name_data.
Proof.
  induction fuel as [|fuel IH]; intros i dict h ns diag Hh Hns Hdata Hi Hinv Hnd Hdup.
  - destruct Hdup. by rewrite take_ge in Hnd by lia.
  - destruct (lookup_lt_is_Some_2 name_data i ltac:(lia)) as [nm Hnm].
    cbn [set_names_loop]. run_method. rewrite Hnm. simpl. rewrite Hns. simpl.
    fold (cstr nm).
    destruct (decide (cstr nm ∈ map cstr (take i name_data))) as [Hin|Hfresh].
    + rewrite (set_name_dup _ h nm i diag)
        by (simpl; first [done | lia | by eapply hash_inv_find_dup]).
      simpl. exists (cstr nm). split; [done|].
      apply list_elem_of_In, in_map, list_elem_of_In.
      by eapply list_elem_of_lookup_2.
    + rewrite (set_name_fresh _ h nm i diag)
        by (simpl; first [done | lia | by eapply hash_inv_find_fresh]).
      simpl.
      apply (IH (S i) _ (mh_put h (name_key nm) i) (<[i := cstr nm]> ns));
        simpl; try done; try lia.
      * apply hash_inv_put; [done | done |]. by eapply hash_inv_find_fresh.
      * rewrite (map_cstr_take_S _ _ nm Hnm). apply NoDup_app.
        split; [done|]. split; [|apply NoDup_singleton].
        intros x Hx Hx'. apply list_elem_of_singleton in Hx'. by subst x.
Qed.

(** *** Looking a name up *)


End Construction.
End TupleDictionaryFacts.

Module DictionaryOrderFacts.
Import TupleDictionary DictionaryOrder.

Lemma dict_wf_length (d : tuple_dictionary) :
  dict_wf d -> length (cnames d) = name_count d.
Proof. unfold dict_wf, cnames. destruct (names d); simpl; done. Qed.

Lemma cmp_loop_names (a b : tuple_dictionary) (fuel : nat) :
  forall i,
    dict_wf a -> dict_wf b -> name_count a = name_count b ->
    (i + fuel = name_count a)%nat ->
    cmp_loop a b fuel i = Some (names_cmp (drop i (cnames a)) (drop i (cnames b))).
Proof.
  induction fuel as [|fuel IH]; intros i Ha Hb Hab Hi.
  - simpl. rewrite !drop_ge by (rewrite dict_wf_length by done; lia). done.
  - pose proof (dict_wf_length a Ha) as Hla. pose proof (dict_wf_length b Hb) as Hlb.
    cbn [cmp_loop].
    rewrite (IH (S i)) by (done || lia).
    unfold dict_wf, cnames in *.
    destruct (names a) as [la|]; [|lia].
    destruct (names b) as [lb|]; [|lia].
    simpl in *.
    destruct (lookup_lt_is_Some_2 la i ltac:(lia)) as [x Hx].
    destruct (lookup_lt_is_Some_2 lb i ltac:(lia)) as [y Hy].
    rewrite Hx, Hy. simpl.
    rewrite (drop_S la x i Hx), (drop_S lb y i Hy). simpl.
    case_decide; done.
Qed.

Lemma cmp_refines_spec (a b : tuple_dictionary) :
  dict_wf a -> dict_wf b ->
  tuple_dictionary_cmp a b = Some (dict_cmp_spec a b).
Proof.
  intros Ha Hb. unfold tuple_dictionary_cmp, dict_cmp_spec.
  repeat case_decide; try done; try lia.
  rewrite cmp_loop_names by (done || lia). done.
Qed.

Lemma names_cmp_antisym (la lb : list (list byte)) :
  names_cmp lb la = - names_cmp la lb.
Proof.
  revert lb. induction la as [|a la IH]; intros [|b lb]; simpl; try done.
  rewrite (strcmp_antisym a b).
  repeat case_decide; try lia. apply IH.
Qed.

Lemma names_cmp_eq (la lb : list (list byte)) :
  length la = length lb ->
  names_cmp la lb = 0 <-> map cstr la = map cstr lb.
Proof.
  revert lb. induction la as [|a la IH]; intros [|b lb]; simpl; try done.
  intros [= Hlen]. case_decide as Hs.
  - split; [done|]. intros [= Hab _]. apply strcmp_eq in Hab. done.
  - assert (strcmp a b = 0) as Hab by lia. apply strcmp_eq in Hab.
    rewrite IH by done. split; [by intros -> ; rewrite Hab|]. by intros [= _ ?].
Qed.

Lemma names_cmp_trans (la lb lc : list (list byte)) :
  length la = length lb -> length lb = length lc ->
  names_cmp la lb <= 0 -> names_cmp lb lc <= 0 ->
  names_cmp la lc <= 0
  /\ (names_cmp la lc = 0 -> names_cmp la lb = 0 /\ names_cmp lb lc = 0).
Proof.
  revert lb lc. induction la as [|a la IH]; intros [|b lb] [|c lc]; simpl;
    try done; try lia.
  intros [= Hab] [= Hbc].
  destruct (decide (strcmp a b <> 0)) as [Hsab|Hsab],
    (decide (strcmp b c <> 0)) as [Hsbc|Hsbc]; intros Hx Hy.
  - destruct (strcmp_trans a b c Hx Hy) as [H1 H2].
    case_decide; [lia|]. lia.
  - destruct (strcmp_trans a b c Hx ltac:(lia)) as [H1 H2].
    case_decide; [lia|]. lia.
  - destruct (strcmp_trans a b c ltac:(lia) Hy) as [H1 H2].
    case_decide; [lia|]. lia.
  - destruct (strcmp_trans a b c ltac:(lia) ltac:(lia)) as [H1 H2].
    case_decide; [lia|]. by apply IH.
Qed.

End DictionaryOrderFacts.

Module HeapFacts.
Import TupleDictionary.

Lemma load_eq (heap : gmap nat tuple_dictionary) (a : nat) (d : tuple_dictionary) :
  heap !! a = Some d -> load a heap = (Ok d, heap).
Proof. intros H. unfold load. run_method. by rewrite H. Qed.

Lemma store_eq (heap : gmap nat tuple_dictionary) (a : nat) (d d0 : tuple_dictionary) :
  heap !! a = Some d0 -> store a d heap = (Ok tt, <[a := d]> heap).
Proof. intros H. unfold store, load. run_method. by rewrite H. Qed.

Ltac heap_step :=
  first
    [ erewrite (bind_ok (load _)) by (apply load_eq; simplify_map_eq; reflexivity)
    | erewrite (bind_ok (store _ _)) by (eapply store_eq; simplify_map_eq; reflexivity) ].

End HeapFacts.

(** ** The cluster and the build pass *)

Module ClusterFacts.
Import Cluster.

Lemma vclock_add_server_has (v : vclock) (id : nat) :
  vclock_has (vclock_add_server v id) id.
Proof.
  unfold vclock_has, vclock_add_server.
  destruct (lsn v !! id) eqn:E; simpl; [by rewrite E|].
  rewrite lookup_insert_eq. eauto.
Qed.

Lemma vclock_add_server_keeps (v : vclock) (id id' : nat) :
  vclock_has v id' -> lsn (vclock_add_server v id) !! id' = lsn v !! id'.
Proof.
  unfold vclock_has, vclock_add_server. intros [x Hx].
  destruct (lsn v !! id) eqn:E; simpl; [done|].
  rewrite lookup_insert_ne; [done|]. intros ->. congruence.
Qed.

End ClusterFacts.

Module BuildIndexesFacts.
Import BuildIndexes.

Section BuildFacts.
Context {Index : Type} `{ops : IndexClass Index} `{limits : BoxLimits}.

Abbreviation world := (BuildIndexes.world Index).
Abbreviation space_t := (BuildIndexes.space_t Index).

(** *** The loops meet the expectation *)

Lemma world_eta (w : world) : {| space := space w; trace := trace w |} = w.
Proof. by destruct w. Qed.

Lemma space_eta (sp : space_t) (l : list (option Index)) :
  index sp = l -> {| enabled := enabled sp; index := l |} = sp.
Proof. intros <-. by destruct sp. Qed.

Lemma space_at_eq (w : world) (n : nat) (sp : space_t) :
  space w !! n = Some sp -> space_at n w = (Ok sp, w).
Proof. intros H. unfold space_at. run_method. by rewrite H. Qed.

Lemma index_at_eq (w : world) (n : nat) (sp : space_t) (idx : nat)
    (x : option Index) :
  space w !! n = Some sp -> index sp !! idx = Some x ->
  index_at n idx w = (Ok x, w).
Proof.
  intros Hsp Hx. unfold index_at.
  rewrite (bind_ok _ _ w w sp) by (by apply space_at_eq).
  unfold deref. by rewrite Hx.
Qed.

Lemma emit_eq (e : event) (w : world) :
  emit e w = (Ok tt, {| space := space w; trace := trace w ++ [e] |}).
Proof. reflexivity. Qed.

Lemma index_loop_spec (n : nat) (pk : option Index) (rest : list (option Index)) :
  forall (pre : list (option Index)) (w : world) (sp : space_t) (fuel : nat),
    space w !! n = Some sp ->
    index sp = pre ++ rest ->
    None ∈ rest ->
    (length rest <= fuel)%nat ->
    index_loop fuel n (length pre) pk w
    = (Ok tt,
       {| space := <[n := {| enabled := enabled sp;
                             index := pre ++ built_indexes pk rest |}]> (space w);
          trace := trace w ++ build_calls n (length pre) rest |}).
Proof.
  induction rest as [|[i|] rest IH]; intros pre w sp fuel Hsp Hidx Hnil Hfuel.
  - by apply elem_of_nil in Hnil.
  - destruct fuel as [|fuel]; [simpl in Hfuel; lia|].
    apply elem_of_cons in Hnil as [Hnil|Hnil]; [discriminate|].
    assert (Hi : index sp !! length pre = Some (Some i))
      by (rewrite Hidx; apply list_lookup_middle; done).
    cbn [index_loop built_indexes build_calls].
    unfold index_at, space_at. run_method. rewrite Hsp. simpl. rewrite Hi. simpl.
    destruct (decide (index_type_of i <> TREE)) as [Hty|Hty].
    + rewrite !(decide_False (P := index_type_of i = TREE)) by done.
      replace (S (length pre)) with (length (pre ++ [Some i]))
        by (rewrite length_app; simpl; lia).
      rewrite (IH (pre ++ [Some i]) w sp fuel Hsp)
        by (first [by rewrite <- app_assoc | done | simpl in Hfuel; lia]).
      by rewrite <- app_assoc.
    + assert (index_type_of i = TREE) as Htree
        by (destruct (decide (index_type_of i = TREE)); [done | contradiction]).
      rewrite !(decide_True (P := index_type_of i = TREE)) by done.
      unfold send_build, emit, space_at. run_method. rewrite Hsp. simpl.
      pose proof (lookup_lt_Some _ _ _ Hsp) as Hn.
      replace (S (length pre)) with (length (pre ++ [Some (build i pk)]))
        by (rewrite length_app; simpl; lia).
      set (sp1 := {| enabled := enabled sp;
                     index := <[length pre := Some (build i pk)]> (index sp) |}).
      assert (Hidx1 : index sp1 = (pre ++ [Some (build i pk)]) ++ rest).
      { simpl. rewrite Hidx. rewrite insert_app_r_alt by lia.
        rewrite Nat.sub_diag. simpl. by rewrite <- app_assoc. }
      rewrite (IH (pre ++ [Some (build i pk)]) _ sp1 fuel)
        by (first [by apply list_lookup_insert_eq | done | simpl in Hfuel; lia]).
      simpl. rewrite list_insert_insert_eq. rewrite <- !app_assoc. reflexivity.
  - destruct fuel as [|fuel]; [simpl in Hfuel; lia|].
    assert (Hi : index sp !! length pre = Some None)
      by (rewrite Hidx; apply list_lookup_middle; done).
    cbn [index_loop built_indexes build_calls].
    unfold index_at, space_at. run_method. rewrite Hsp. simpl. rewrite Hi. simpl.
    rewrite <- Hidx. rewrite (space_eta sp (index sp)) by done.
    rewrite list_insert_id by done. rewrite app_nil_r.
    by rewrite world_eta.
Qed.

Lemma build_space_spec (n : nat) (w : world) (sp : space_t) :
  space w !! n = Some sp ->
  space_wf sp ->
  build_space n w
  = (Ok tt, {| space := <[n := built_space sp]> (space w);
               trace := trace w ++ space_trace n sp |}).
Proof.
  intros Hsp Hwf. unfold build_space.
  rewrite (bind_ok _ _ w w sp) by (by apply space_at_eq).
  destruct (enabled sp) eqn:Hen.
  - rewrite decide_False by done.
    destruct (Hwf Hen) as (pk & rest & Hidx & Hnil).
    destruct rest as [|[i|] rest].
    + by apply elem_of_nil in Hnil.
    + rewrite (bind_ok _ _ w w (Some i))
        by (apply (index_at_eq w n sp); [done | by rewrite Hidx]).
      cbv beta iota.
      erewrite bind_ok by apply emit_eq.
      erewrite bind_ok by (apply (index_at_eq _ n sp); [done | by rewrite Hidx]).
      erewrite bind_ok
        by (apply (index_loop_spec n pk (Some i :: rest) [pk] _ sp);
            [done | done | done | rewrite Hidx; simpl; lia]).
      rewrite emit_eq. unfold built_space, space_trace.
      rewrite Hen, Hidx. cbn [space trace length app].
      rewrite <- !app_assoc. reflexivity.
    + rewrite (bind_ok _ _ w w None)
        by (apply (index_at_eq w n sp); [done | by rewrite Hidx]).
      cbv beta iota. unfold ret, built_space, space_trace.
      rewrite Hen, Hidx. cbn [built_indexes]. rewrite app_nil_r.
      rewrite <- Hidx, <- Hen. rewrite (space_eta sp (index sp)) by done.
      rewrite list_insert_id by done. by rewrite world_eta.
  - rewrite decide_True by done. unfold ret, built_space, space_trace.
    rewrite Hen. rewrite app_nil_r, list_insert_id by done. by rewrite world_eta.
Qed.

Lemma space_loop_spec (rest : list space_t) :
  forall (pre : list space_t) (w : world) (fuel : nat),
    space w = pre ++ rest ->
    length rest = fuel ->
    Forall space_wf rest ->
    space_loop fuel (length pre) w
    = (Ok tt, {| space := pre ++ map built_space rest;
                 trace := trace w ++ spaces_trace (length pre) rest |}).
Proof.
  induction rest as [|sp rest IH]; intros pre w fuel Hsp Hfuel Hwf.
  - subst fuel. cbn [space_loop map spaces_trace length]. unfold ret.
    rewrite <- Hsp, app_nil_r. by rewrite world_eta.
  - subst fuel. apply Forall_cons in Hwf as [Hwf1 Hwf]. cbn [space_loop length].
    unfold bind.
    rewrite (build_space_spec (length pre) w sp)
      by (first [by rewrite Hsp; apply list_lookup_middle | done]).
    replace (S (length pre)) with (length (pre ++ [built_space sp]))
      by (rewrite length_app; simpl; lia).
    rewrite (IH (pre ++ [built_space sp])); simpl; try done.
    + rewrite <- !app_assoc. simpl.
      replace (length (pre ++ [built_space sp])) with (S (length pre))
        by (rewrite length_app; simpl; lia).
      reflexivity.
    + rewrite Hsp. rewrite insert_app_r_alt by lia.
      rewrite Nat.sub_diag. simpl. by rewrite <- app_assoc.
Qed.

(** *** The expectation, entry by entry *)

Lemma built_indexes_lookup (pk : option Index) (l : list (option Index)) :
  forall j,
    l !! j = Some None ->
    (forall k, (k < j)%nat -> exists i, l !! k = Some (Some i)) ->
    length (built_indexes pk l) = length l
    /\ (forall k i, (k < j)%nat -> l !! k = Some (Some i) ->
                    built_indexes pk l !! k
                    = Some (Some (if decide (index_type_of i = TREE)
                                  then build i pk else i)))
    /\ (forall k, (j <= k)%nat -> built_indexes pk l !! k = l !! k).
Proof.
  induction l as [|[i|] l IH]; intros j Hj Hpre.
  - discriminate.
  - destruct j as [|j]; [discriminate|]. simpl in Hj.
    destruct (IH j Hj) as (Hlen & Hlt & Hge).
    { intros k Hk. apply (Hpre (S k)). lia. }
    simpl. split; [by rewrite Hlen|]. split.
    + intros [|k] i' Hk Hi'; simpl in *; [by injection Hi' as ->|].
      apply Hlt; [lia | done].
    + intros [|k] Hk; [lia|]. simpl. apply Hge. lia.
  - destruct j as [|j].
    + simpl. split; [done|]. split; [intros; lia | done].
    + destruct (Hpre 0%nat ltac:(lia)) as [i Hi]. discriminate.
Qed.

Lemma build_calls_elem (n : nat) (l : list (option Index)) :
  forall s k i,
    l !! k = Some (Some i) ->
    (forall k', (k' < k)%nat -> exists x, l !! k' = Some (Some x)) ->
    index_type_of i = TREE ->
    call_build n (s + k) ∈ build_calls n s l.
Proof.
  induction l as [|[x|] l IH]; intros s k i Hk Hpre Ht.
  - discriminate.
  - destruct k as [|k]; simpl in *.
    + injection Hk as ->. rewrite decide_True by done.
      rewrite Nat.add_0_r. apply elem_of_app. left. by left.
    + apply elem_of_app. right.
      replace (s + S k)%nat with (S s + k)%nat by lia.
      apply (IH (S s) k i); [done | | done].
      intros k' Hk'. apply (Hpre (S k')). lia.
  - destruct k as [|k]; [discriminate|].
    destruct (Hpre 0%nat ltac:(lia)) as [x Hx]. discriminate.
Qed.

Lemma built_space_enabled (sp : space_t) : enabled (built_space sp) = enabled sp.
Proof.
  unfold built_space. destruct (enabled sp) eqn:E; [|done].
  by destruct (index sp).
Qed.

End BuildFacts.
End BuildIndexesFacts.

(** ** Walking a table, and the methods one after another *)

Module ScanFacts.
Import HashIndex HashIndexFacts KeyedIterator IteratorFacts Scan.

Lemma values_cons_Some {K : Type} (k : K) (v : box_tuple) h :
  values (Some (k, v) :: h) = v :: values h.
Proof. reflexivity. Qed.

Lemma values_cons_None {K : Type} (h : list (option (K * box_tuple))) :
  values (None :: h) = values h.
Proof. reflexivity. Qed.

Lemma values_view {K : Type} (h : list (option (K * box_tuple))) :
  values (mh_view h) = values h.
Proof.
  induction h as [|[[k v]|] h IH]; [done| |done].
  unfold mh_view in *. simpl. rewrite !values_cons_Some. by rewrite IH.
Qed.

Lemma values_app {K : Type} (h h' : list (option (K * box_tuple))) :
  values (h ++ h') = values h ++ values h'.
Proof. unfold values. by rewrite omap_app, fmap_app. Qed.

Lemma length_values {K : Type} (h : list (option (K * box_tuple))) :
  length (values h) = mh_size h.
Proof. unfold values, mh_size. by rewrite length_fmap. Qed.

(** One run of the loop of [hash_iterator_next]. *)
Lemma next_loop_spec (hv : list (option (unit * box_tuple))) (ne : next_equal_fn)
    (fuel : nat) :
  forall p,
    (p <= length hv)%nat -> (length hv - p < fuel)%nat ->
    match values (drop p hv) with
    | [] => hash_iterator_next_loop fuel (scan_at hv p ne)
            = (Ok None, scan_at hv (length hv) ne)
    | v :: rest =>
        exists p', (p < p' <= length hv)%nat
                   /\ values (drop p' hv) = rest
                   /\ hash_iterator_next_loop fuel (scan_at hv p ne)
                      = (Ok (Some v), scan_at hv p' ne)
    end.
Proof.
  induction fuel as [|fuel IH]; intros p Hp Hfuel; [lia|].
  cbn [hash_iterator_next_loop]. run_method. unfold mh_end.
  destruct (decide (p = length hv)) as [->|Hne].
  - rewrite drop_all. simpl. rewrite decide_False by (intros H; by apply H).
    reflexivity.
  - rewrite decide_True by done.
    destruct (lookup_lt_is_Some_2 hv p ltac:(lia)) as [s Hs].
    rewrite (drop_S hv s p Hs). unfold mh_exist, mh_value. rewrite Hs.
    destruct s as [[u v]|].
    + rewrite values_cons_Some. exists (S p). split; [lia|]. split; [done|].
      reflexivity.
    + rewrite values_cons_None.
      specialize (IH (S p) ltac:(lia) ltac:(lia)).
      change (set_h_pos (S p) (scan_at hv p ne)) with (scan_at hv (S p) ne).
      destruct (values (drop (S p) hv)) as [|v rest]; [done|].
      destruct IH as (p' & Hp' & Hrest & Hrun). exists p'.
      split; [lia|]. split; done.
Qed.

Lemma call_next_scan_at (hv : list (option (unit * box_tuple))) (ne : next_equal_fn)
    (p : nat) :
  (p <= length hv)%nat ->
  match values (drop p hv) with
  | [] => call_next (scan_at hv p ne) = (Ok None, scan_at hv (length hv) ne)
  | v :: rest =>
      exists p', (p < p' <= length hv)%nat
                 /\ values (drop p' hv) = rest
                 /\ call_next (scan_at hv p ne) = (Ok (Some v), scan_at hv p' ne)
  end.
Proof.
  intros Hp.
  change (call_next (scan_at hv p ne))
    with (hash_iterator_next_loop (S (length hv - p)) (scan_at hv p ne)).
  apply next_loop_spec; lia.
Qed.

(** The calls of [next] from slot [p] on answer the records of the slots
    from [p] on, and NULL from then on. *)
Lemma call_next_n_scan_at (hv : list (option (unit * box_tuple))) (ne : next_equal_fn)
    (m : nat) (vs : list box_tuple) :
  forall p,
    (p <= length hv)%nat -> values (drop p hv) = vs ->
    exists p', (p <= p' <= length hv)%nat
      /\ call_next_n (length vs + m) (scan_at hv p ne)
         = (map yield vs ++ repeat (Ok None) m, scan_at hv p' ne).
Proof.
  induction vs as [|v vs IH]; intros p Hp Hvs.
  - simpl. revert p Hp Hvs. induction m as [|m IHm]; intros p Hp Hvs.
    + exists p. split; [lia | reflexivity].
    + pose proof (call_next_scan_at hv ne p Hp) as Hrun. rewrite Hvs in Hrun.
      destruct (IHm (length hv) ltac:(lia)) as (p' & Hp' & Hrest).
      { by rewrite drop_all. }
      exists p'. split; [lia|]. simpl. rewrite Hrun, Hrest. reflexivity.
  - pose proof (call_next_scan_at hv ne p Hp) as Hrun. rewrite Hvs in Hrun.
    destruct Hrun as (p1 & Hp1 & Hrest & Hrun).
    destruct (IH p1 ltac:(lia) Hrest) as (p' & Hp' & Hrun').
    exists p'. split; [lia|]. simpl. rewrite Hrun, Hrun'. reflexivity.
Qed.

(** *** The entries of a table *)

Section Entries.
Context {K : Type} `{EqDecision K}.
Implicit Types h : list (option (K * box_tuple)).

Lemma mh_wf_tail h (s : option (K * box_tuple)) : mh_wf (s :: h) -> mh_wf h.
Proof.
  intros Hwf i j k v v' Hi Hj.
  specialize (Hwf (S i) (S j) k v v' Hi Hj). lia.
Qed.

Lemma elem_of_omap_id h (e : K * box_tuple) :
  e ∈ omap id h <-> exists i, h !! i = Some (Some e).
Proof.
  rewrite list_elem_of_omap. split.
  - intros (s & Hs & Hid). simpl in Hid. subst s.
    by apply list_elem_of_lookup in Hs.
  - intros [i Hi]. exists (Some e). split; [|done].
    by eapply list_elem_of_lookup_2.
Qed.

Lemma mh_wf_NoDup h : mh_wf h -> NoDup (omap id h).*1.
Proof.
  induction h as [|[[k v]|] h IH]; intros Hwf.
  - constructor.
  - simpl. constructor; [|by eapply IH, mh_wf_tail].
    intros Hin. apply list_elem_of_fmap in Hin as ([k' v'] & Hk & Hin).
    simpl in Hk. subst k'. apply elem_of_omap_id in Hin as [j Hj].
    specialize (Hwf 0%nat (S j) k v v' eq_refl Hj). lia.
  - simpl. by eapply IH, mh_wf_tail.
Qed.

Lemma elem_of_entries_find h (k : K) (v : box_tuple) :
  mh_wf h -> (k, v) ∈ omap id h <-> mh_find h k = Some v.
Proof. intros Hwf. by rewrite elem_of_omap_id, mh_find_Some. Qed.

End Entries.

Lemma records_values (self : HashIndex) :
  records self = match self with
                 | OfHash32 i => values (Hash32.int_hash i)
                 | OfHash64 i => values (Hash64.int64_hash i)
                 | OfHashStr i => values (HashStr.str_hash i)
                 end.
Proof.
  unfold records, entries, values.
  destruct self as [i|i|i]; rewrite <- list_fmap_compose; by apply list_fmap_ext.
Qed.

Lemma length_records (self : HashIndex) : length (records self) = count self.
Proof. rewrite records_values. destruct self; apply length_values. Qed.

Lemma entries_NoDup (self : HashIndex) : index_wf self -> NoDup (entries self).*1.
Proof.
  assert (Hfst : forall (K : Type) (f : K -> hkey) (l : list (K * box_tuple)),
             (prod_map f id <$> l).*1 = f <$> l.*1).
  { intros K f l. rewrite <- !list_fmap_compose. by apply list_fmap_ext. }
  unfold entries. destruct self as [i|i|i]; simpl; intros Hwf;
    apply mh_wf_NoDup in Hwf; rewrite Hfst;
    (apply NoDup_fmap_2; [intros ?? [=]; done | done]).
Qed.

Lemma elem_of_entries (self : HashIndex) (k : hkey) (r : box_tuple) :
  index_wf self -> (k, r) ∈ entries self <-> stored self k = Some r.
Proof.
  unfold entries. destruct self as [i|i|i]; simpl; intros Hwf;
    rewrite list_elem_of_fmap.
  - split.
    + intros ([n v] & [= -> ->] & Hin). by apply elem_of_entries_find.
    + destruct k as [n|n|s]; try done. intros Hf.
      exists (n, r). split; [done|]. by apply elem_of_entries_find.
  - split.
    + intros ([n v] & [= -> ->] & Hin). by apply elem_of_entries_find.
    + destruct k as [n|n|s]; try done. intros Hf.
      exists (n, r). split; [done|]. by apply elem_of_entries_find.
  - split.
    + intros ([n v] & [= -> ->] & Hin). by apply elem_of_entries_find.
    + destruct k as [n|n|s]; try done. intros Hf.
      exists (s, r). split; [done|]. by apply elem_of_entries_find.
Qed.

Lemma initIterator_scan_at (self : HashIndex) (it0 : hash_iterator) :
  initIterator self it0
  = (Ok tt,
     match self with
     | OfHash32 i => scan_at (mh_view (Hash32.int_hash i)) 0 next_equal_null
     | OfHash64 i => scan_at (mh_view (Hash64.int64_hash i)) 0 next_equal_null
     | OfHashStr i => scan_at (mh_view (HashStr.str_hash i)) 0 next_equal_null
     end).
Proof. destruct self; reflexivity. Qed.

(** The calls of [next] on the iterator over the slots of [h], from [p]. *)
Lemma call_next_n_view {K : Type} (h : list (option (K * box_tuple))) (p m : nat)
    (ne : next_equal_fn) :
  (p <= length h)%nat ->
  exists it,
    call_next_n (length (values (drop p h)) + m) (scan_at (mh_view h) p ne)
    = (map yield (values (drop p h)) ++ repeat (Ok None) m, it).
Proof.
  intros Hp.
  destruct (call_next_n_scan_at (mh_view h) ne m (values (drop p h)) p)
    as (p' & _ & Hrun).
  - unfold mh_view. rewrite length_map. lia.
  - unfold mh_view. change (map erase_key h) with (erase_key <$> h).
    rewrite <- fmap_drop. apply (values_view (drop p h)).
  - eauto.
Qed.

Lemma size_count (self : HashIndex) : size self = (Ok (count self), self).
Proof. by destruct self as [[]|[]|[]]. Qed.

(** The slot of a key that is stored splits the records of the table. *)
Lemma values_split_at_key {K : Type} `{EqDecision K}
    (h : list (option (K * box_tuple))) (k : K) (r : box_tuple) :
  mh_find h k = Some r ->
  values h = values (take (mh_get h k) h) ++ values (drop (mh_get h k) h)
  /\ values (drop (mh_get h k) h) = r :: values (drop (S (mh_get h k)) h).
Proof.
  intros Hf. split.
  - by rewrite <- values_app, take_drop.
  - unfold mh_find in Hf. case_decide as Hg; [discriminate|].
    destruct (mh_get_found h k) as (v & Hv & _); [done|].
    unfold mh_value in Hf. rewrite Hv in Hf. injection Hf as ->.
    by rewrite (drop_S h _ _ Hv).
Qed.

End ScanFacts.

Module IndexOpsFacts.
Import HashIndex HashIndexFacts Scan ScanFacts.

Section PutTwice.
Context {K V : Type} `{EqDecision K}.

Lemma mh_put_idemp (h : list (option (K * V))) (k : K) (v : V) :
  mh_wf h -> mh_put (mh_put h k v) k v = mh_put h k v.
Proof.
  intros Hwf. pose proof (mh_wf_put h k v Hwf) as Hwf'.
  destruct (mh_put_lookup_key h k v) as [i Hi].
  destruct (mh_put_cases (mh_put h k v) k v)
    as [(j & v0 & Hj & ->)|[(Hend & _)|(Hend & _)]].
  - assert (i = j) as -> by (by eapply Hwf').
    rewrite Hi in Hj. injection Hj as <-. by apply list_insert_id.
  - by destruct (proj1 (mh_get_end (mh_put h k v) k) Hend i v).
  - by destruct (proj1 (mh_get_end (mh_put h k v) k) Hend i v).
Qed.

End PutTwice.

Lemma hi_insert_twice (self : HashIndex) (k : hkey) (r : box_tuple) :
  index_wf self -> insert_key (insert_key self k r) k r = insert_key self k r.
Proof.
  intros Hwf. destruct self as [i|i|i], k as [n|n|s]; simpl in *; try done;
    by rewrite mh_put_idemp.
Qed.

Lemma hi_find_record (self : HashIndex) (t : box_tuple) (k : hkey) :
  record_key self t = Some k -> findByTuple t self = (Ok (stored self k), self).
Proof.
  intros Hk. pose proof Hk as Hk'.
  apply record_key_inv in Hk' as (p & Hp & Hv & <-).
  unfold findByTuple. run_method. unfold key_field in Hp.
  destruct (parts (key_def self) !! 0%nat) as [part|]; [|discriminate]. simpl.
  rewrite Hp. by apply hi_find_valid.
Qed.

Lemma hi_remove_invalid (self : HashIndex) (t : box_tuple) (p : list byte) :
  key_field self t = Some p -> valid_key self p = false ->
  exists e, remove t self = (Raised e, self) /\ is_InvalidKeyType e = true.
Proof.
  unfold key_field. intros Hp Hv.
  destruct (parts (key_def self) !! 0%nat) as [part|] eqn:Hpart; [|discriminate].
  destruct self as [i|i|i]; simpl in *; [| |discriminate];
    case_bool_decide as Hw; try discriminate;
    [unfold Hash32.remove | unfold Hash64.remove]; run_method;
    rewrite Hpart; simpl; rewrite Hp; simpl;
    destruct (load_varint32 p) as [sz q]; simpl in *;
    rewrite decide_True by done; eauto.
Qed.

Lemma hi_replace_invalid (self : HashIndex) (old : option box_tuple)
    (t : box_tuple) (p : list byte) :
  key_field self t = Some p -> valid_key self p = false ->
  exists e, replace old t self = (Raised e, self) /\ is_InvalidKeyType e = true.
Proof.
  unfold key_field. intros Hp Hv.
  destruct (parts (key_def self) !! 0%nat) as [part|] eqn:Hpart; [|discriminate].
  destruct self as [i|i|i]; simpl in *; [| |discriminate];
    case_bool_decide as Hw; try discriminate;
    [unfold Hash32.replace | unfold Hash64.replace]; run_method;
    rewrite Hpart; simpl; rewrite Hp; simpl;
    destruct (load_varint32 p) as [sz q]; simpl in *;
    rewrite decide_True by done; eauto.
Qed.

(** [replace] with an old record whose key field the index would not
    accept as a key. *)
Lemma hi_replace_old_any_width (self : HashIndex) (old new : box_tuple)
    (p_old : list byte) (k_new : hkey) :
  key_field self old = Some p_old ->
  record_key self new = Some k_new ->
  replace (Some old) new self
  = (Ok tt, insert_key (delete_key self (decode self p_old)) k_new new).
Proof.
  intros Hold Hnew. unfold record_key, key_field in Hold, Hnew.
  destruct (parts (key_def self) !! 0%nat) as [part|] eqn:Hpart; [|discriminate].
  destruct (tuple_field new (fieldno part)) as [p|] eqn:Hp; [|discriminate].
  destruct self as [i|i|i]; simpl in Hpart, Hnew.
  - split_width_as Hnew sz q En. injection Hnew as <-. simpl.
    rewrite (Hash32Facts.h32_replace_eq i (Some old) new part p q Hpart Hp En)
      by (intros o [= <-]; eauto).
    simpl. rewrite Hold. reflexivity.
  - split_width_as Hnew sz q En. injection Hnew as <-. simpl.
    rewrite (Hash64Facts.h64_replace_eq i (Some old) new part p q Hpart Hp En)
      by (intros o [= <-]; eauto).
    simpl. rewrite Hold. reflexivity.
  - injection Hnew as <-. simpl.
    rewrite (HashStrFacts.hstr_replace_eq i (Some old) new part p Hpart Hp)
      by (intros o [= <-]; eauto).
    simpl. rewrite Hold. reflexivity.
Qed.

End IndexOpsFacts.

(** ** The records of an index through its changes *)

Module MutationFacts.
Import HashIndex HashIndexFacts Scan ScanFacts.

Section Values.
Context {K : Type} `{EqDecision K}.
Implicit Types h : list (option (K * box_tuple)).

Lemma values_insert h (i : nat) (s s' : option (K * box_tuple)) :
  h !! i = Some s ->
  values h = values (take i h) ++ (option_list s).*2 ++ values (drop (S i) h)
  /\ values (<[i := s']> h)
     = values (take i h) ++ (option_list s').*2 ++ values (drop (S i) h).
Proof.
  intros Hi. destruct (omap_id_insert h i s s' Hi) as [H1 H2].
  unfold values. rewrite H1, H2, !fmap_app. done.
Qed.

Lemma mh_put_values_fresh h (k : K) (v : box_tuple) :
  mh_find h k = None -> values (mh_put h k v) ≡ₚ v :: values h.
Proof.
  intros Hf. apply mh_find_None in Hf.
  destruct (mh_put_cases h k v)
    as [(i & v0 & Hi & _)|[(_ & j & Hj & ->)|(_ & _ & ->)]].
  - by destruct (proj1 (mh_get_end h k) Hf i v0).
  - destruct (values_insert h j None (Some (k, v)) Hj) as [-> ->]. simpl.
    by rewrite Permutation_middle.
  - rewrite values_app. simpl. by rewrite Permutation_app_comm.
Qed.

Lemma mh_values_at_key h (k : K) (v v0 : box_tuple) :
  mh_wf h -> mh_find h k = Some v0 ->
  exists pre post,
    values h = pre ++ v0 :: post
    /\ values (mh_put h k v) = pre ++ v :: post
    /\ values (mh_del_key h k) = pre ++ post.
Proof.
  intros Hwf Hf. unfold mh_find in Hf. unfold mh_del_key.
  case_decide as Hg; [discriminate|]. rewrite decide_True by done.
  destruct (mh_get_found h k Hg) as (v1 & Hi & _).
  unfold mh_value in Hf. rewrite Hi in Hf. injection Hf as ->.
  exists (values (take (mh_get h k) h)), (values (drop (S (mh_get h k)) h)).
  destruct (values_insert h (mh_get h k) (Some (k, v0)) None Hi) as [-> Hdel].
  split; [done|]. split; [|exact Hdel].
  destruct (mh_put_cases h k v)
    as [(j & v1 & Hj & ->)|[(Hend & _)|(Hend & _)]]; [|done|done].
  assert (mh_get h k = j) as <- by (by eapply Hwf).
  by destruct (values_insert h (mh_get h k) (Some (k, v0)) (Some (k, v)) Hi)
    as [_ ->].
Qed.

End Values.

Lemma records_insert_fresh (self : HashIndex) (k : hkey) (r : box_tuple) :
  is_Some (stored (insert_key self k r) k) -> stored self k = None ->
  records (insert_key self k r) ≡ₚ r :: records self.
Proof.
  rewrite !records_values.
  destruct self as [i|i|i], k as [n|n|s]; simpl; intros [x Hx] Hn;
    try discriminate; by apply mh_put_values_fresh.
Qed.

Lemma records_at_key (self : HashIndex) (k : hkey) (r r0 : box_tuple) :
  index_wf self -> stored self k = Some r0 ->
  exists pre post,
    records self = pre ++ r0 :: post
    /\ records (insert_key self k r) = pre ++ r :: post
    /\ records (delete_key self k) = pre ++ post.
Proof.
  rewrite !records_values.
  destruct self as [i|i|i], k as [n|n|s]; simpl; intros Hwf Hs;
    try discriminate; by apply mh_values_at_key.
Qed.

End MutationFacts.

(** ** Copies, the heap and the hash of the names *)

Module PrefixFacts.
Import Assoc TupleDictionary DictionaryOrder TupleDictionaryFacts.

Section Prefix.
Context `{fnh : FieldNameHash}.

Lemma reserve_loop_take (name_data : list (list byte)) (n fuel : nat) :
  forall i diag,
    (i + fuel <= n)%nat ->
    reserve_loop (take n name_data) fuel i diag = reserve_loop name_data fuel i diag.
Proof.
  induction fuel as [|fuel IH]; intros i diag Hi; [reflexivity|].
  cbn [reserve_loop]. unfold bind. rewrite lookup_take_lt by lia.
  destruct (name_data !! i) as [nm|]; simpl; [apply IH; lia | reflexivity].
Qed.

Lemma set_names_loop_take (name_data : list (list byte)) (n fuel : nat) :
  forall i dict diag,
    (i + fuel <= n)%nat ->
    set_names_loop (take n name_data) fuel i dict diag
    = set_names_loop name_data fuel i dict diag.
Proof.
  induction fuel as [|fuel IH]; intros i dict diag Hi; [reflexivity|].
  cbn [set_names_loop]. unfold bind. rewrite lookup_take_lt by lia.
  destruct (name_data !! i) as [nm|]; simpl; [|reflexivity].
  destruct (deref (names dict) diag) as [[ns| |] diag1]; try reflexivity.
  destruct (tuple_dictionary_set_name _ _ _ _ diag1) as [[r| |] diag2];
    try reflexivity.
  case_decide; [reflexivity | apply IH; lia].
Qed.

Lemma reserve_loop_past (name_data : list (list byte)) (fuel : nat) :
  forall i diag,
    (i <= length name_data < i + fuel)%nat ->
    reserve_loop name_data fuel i diag = (Fault, diag).
Proof.
  induction fuel as [|fuel IH]; intros i diag Hi; [lia|].
  cbn [reserve_loop]. unfold bind.
  destruct (name_data !! i) as [nm|] eqn:E; simpl; [|reflexivity].
  apply IH. apply lookup_lt_Some in E. lia.
Qed.

End Prefix.
End PrefixFacts.


Module DictionaryCopyFacts.
Import Assoc TupleDictionary DictionaryOrder TupleDictionaryFacts DictionaryOrderFacts.

Section Copy.
Context `{fnh : FieldNameHash}.

(** *** The construction reads the names as C strings *)

Lemma lookup_map_cstr (name_data : list (list byte)) (i : nat) :
  map cstr name_data !! i = cstr <$> name_data !! i.
Proof. apply list_lookup_fmap. Qed.

Lemma reserve_loop_cstr (name_data : list (list byte)) (fuel : nat) :
  forall i diag,
    reserve_loop (map cstr name_data) fuel i diag = reserve_loop name_data fuel i diag.
Proof.
  induction fuel as [|fuel IH]; intros i diag; [reflexivity|].
  cbn [reserve_loop]. unfold bind. rewrite lookup_map_cstr.
  destruct (name_data !! i) as [nm|]; simpl; [apply IH | reflexivity].
Qed.

Lemma set_names_loop_cstr (name_data : list (list byte)) (fuel : nat) :
  forall i dict diag,
    set_names_loop (map cstr name_data) fuel i dict diag
    = set_names_loop name_data fuel i dict diag.
Proof.
  induction fuel as [|fuel IH]; intros i dict diag; [reflexivity|].
  cbn [set_names_loop]. unfold bind. rewrite lookup_map_cstr.
  destruct (name_data !! i) as [nm|]; simpl; [|reflexivity].
  destruct (deref (names dict) diag) as [[ns| |] diag1]; try reflexivity.
  rewrite strlen_cstr. fold (cstr nm). rewrite take_strlen_cstr.
  destruct (tuple_dictionary_set_name _ _ _ _ diag1) as [[r| |] diag2];
    try reflexivity.
  case_decide; [reflexivity | apply IH].
Qed.

Lemma new_impl_cstr (name_data : list (list byte)) (n : nat) (diag : diag_t) :
  tuple_dictionary_new_impl (map cstr name_data) n diag
  = tuple_dictionary_new_impl name_data n diag.
Proof.
  unfold tuple_dictionary_new_impl. case_decide; [reflexivity|].
  unfold bind. rewrite reserve_loop_cstr.
  destruct (reserve_loop name_data n 0 diag) as [[[]| |] diag1]; try reflexivity.
  apply set_names_loop_cstr.
Qed.

(** *** A construction that succeeds does not read the diagnostics area *)

Lemma set_name_any_diag (dict dict' : tuple_dictionary) (nm : list byte)
    (len i : nat) (rc : Z) (diag diag' : diag_t) :
  tuple_dictionary_set_name dict nm len i diag = (Ok (rc, dict'), diag') ->
  rc = 0 ->
  diag' = diag
  /\ forall diag2, tuple_dictionary_set_name dict nm len i diag2 = (Ok (rc, dict'), diag2).
Proof.
  unfold tuple_dictionary_set_name, assert, diag_set. run_method.
  destruct (bool_decide (i < name_count dict)%nat); simpl; [|discriminate].
  destruct (hash dict) as [h|]; simpl; [|discriminate].
  case_decide; simpl.
  - intros [= <- _ _] Hrc. discriminate Hrc.
  - intros [= <- <- <-] _. done.
Qed.

Lemma reserve_loop_any_diag (name_data : list (list byte)) (fuel : nat) :
  forall i diag diag',
    reserve_loop name_data fuel i diag = (Ok tt, diag') ->
    diag' = diag /\ forall diag2, reserve_loop name_data fuel i diag2 = (Ok tt, diag2).
Proof.
  induction fuel as [|fuel IH]; intros i diag diag'.
  - intros [= <-]. done.
  - cbn [reserve_loop]. unfold bind.
    destruct (name_data !! i) as [nm|]; simpl; [|discriminate].
    apply IH.
Qed.

Lemma set_names_loop_any_diag (name_data : list (list byte)) (fuel : nat) :
  forall i dict d diag diag',
    set_names_loop name_data fuel i dict diag = (Ok (Some d), diag') ->
    diag' = diag
    /\ forall diag2, set_names_loop name_data fuel i dict diag2 = (Ok (Some d), diag2).
Proof.
  induction fuel as [|fuel IH]; intros i dict d diag diag'.
  - intros [= <- <-]. done.
  - cbn [set_names_loop]. unfold bind.
    destruct (name_data !! i) as [nm|]; simpl; [|discriminate].
    destruct (names dict) as [ns|]; simpl; [|discriminate].
    destruct (tuple_dictionary_set_name _ _ _ _ diag) as [[[rc dict1]| |] diag1] eqn:E;
      try discriminate.
    simpl. case_decide as Hrc; [discriminate|].
    assert (rc = 0) as -> by (destruct (decide (rc = 0)); [done | by destruct Hrc]).
    destruct (set_name_any_diag _ _ _ _ _ _ _ _ E eq_refl) as [-> Hany].
    intros Hrun. destruct (IH _ _ _ _ _ Hrun) as [-> Hany']. split; [done|].
    intros diag2. rewrite Hany. simpl. apply Hany'.
Qed.

Lemma new_impl_any_diag (name_data : list (list byte)) (n : nat)
    (d : tuple_dictionary) (diag diag2 : diag_t) :
  (tuple_dictionary_new_impl name_data n diag).1 = Ok (Some d) ->
  tuple_dictionary_new_impl name_data n diag2 = (Ok (Some d), diag2).
Proof.
  unfold tuple_dictionary_new_impl. case_decide.
  - simpl. intros [= <-]. reflexivity.
  - unfold bind.
    destruct (reserve_loop name_data n 0 diag) as [[[]| |] diag1] eqn:E;
      try discriminate.
    destruct (reserve_loop_any_diag _ _ _ _ _ E) as [-> Hany]. rewrite Hany.
    destruct (set_names_loop name_data n 0 _ diag) as [r diag3] eqn:E'.
    simpl. intros ->.
    by destruct (set_names_loop_any_diag _ _ _ _ _ _ _ E') as [_ Hany'].
Qed.

(** *** What a construction that succeeds returns *)

Lemma new_impl_ok (name_data : list (list byte)) (diag : diag_t) :
  name_data <> [] -> NoDup (map cstr name_data) ->
  exists h',
    tuple_dictionary_new_impl name_data (length name_data) diag
    = (Ok (Some {| hash := Some h'; names := Some (map cstr name_data);
                   name_count := length name_data; refs := 1 |}), diag)
    /\ hash_inv name_data (length name_data) h'.
Proof.
  intros Hne Hnd. unfold tuple_dictionary_new_impl.
  rewrite decide_False by (by destruct name_data).
  unfold bind. rewrite reserve_loop_ok by (simpl; lia).
  destruct (set_names_loop_ok name_data (length name_data) 0
              (set_hash mh_init
                 (set_names (replicate (length name_data) [])
                    {| hash := None; names := None;
                       name_count := length name_data; refs := 1 |}))
              mh_init (replicate (length name_data) []) diag)
    as (h' & Hrun & Hinv); simpl; try done; try lia.
  - by rewrite length_replicate.
  - apply hash_inv_init.
  - exists h'. split; [exact Hrun | exact Hinv].
Qed.

Lemma new_impl_dup (name_data : list (list byte)) (diag : diag_t) :
  ~ NoDup (map cstr name_data) ->
  (tuple_dictionary_new_impl name_data (length name_data) diag).1 = Ok None.
Proof.
  intros Hdup. unfold tuple_dictionary_new_impl.
  rewrite decide_False.
  2:{ intros Hz. apply nil_length_inv in Hz. subst. apply Hdup. constructor. }
  unfold bind. rewrite reserve_loop_ok by (simpl; lia).
  destruct (set_names_loop_dup name_data (length name_data) 0
              (set_hash mh_init
                 (set_names (replicate (length name_data) [])
                    {| hash := None; names := None;
                       name_count := length name_data; refs := 1 |}))
              mh_init (replicate (length name_data) []) diag)
    as (nm & Hrun & _); simpl; try done; try lia.
  - apply hash_inv_init.
  - constructor.
  - by rewrite Hrun.
Qed.

Lemma new_impl_inv (name_data : list (list byte)) (diag : diag_t)
    (d : tuple_dictionary) :
  (tuple_dictionary_new_impl name_data (length name_data) diag).1 = Ok (Some d) ->
  NoDup (map cstr name_data)
  /\ name_count d = length name_data
  /\ refs d = 1
  /\ cnames d = map cstr name_data
  /\ dict_wf d
  /\ default [] (names d) = map cstr name_data.
Proof.
  intros Hrun.
  destruct (decide (NoDup (map cstr name_data))) as [Hnd|Hdup].
  2:{ rewrite new_impl_dup in Hrun by done. discriminate. }
  split; [done|].
  destruct name_data as [|nm name_data].
  - injection Hrun as <-. done.
  - destruct (new_impl_ok (nm :: name_data) diag ltac:(done) Hnd) as (h' & Hok & _).
    rewrite Hok in Hrun. injection Hrun as <-.
    unfold dict_wf, cnames. simpl. rewrite length_map. done.
Qed.

End Copy.
End DictionaryCopyFacts.

Module DictionaryHeapFacts.
Import Assoc TupleDictionary DictionaryOrder DictionaryOrderFacts HeapFacts.

Lemma set_refs_refs (d : tuple_dictionary) : set_refs (refs d) d = d.
Proof. by destruct d. Qed.

Lemma swap_lookup (heap : gmap nat tuple_dictionary) (a b : nat)
    (da db : tuple_dictionary) :
  heap !! a = Some da -> heap !! b = Some db ->
  exists heap',
    tuple_dictionary_swap a b heap = (Ok tt, heap')
    /\ heap' !! a = Some (set_refs (refs da) db)
    /\ heap' !! b = Some (set_refs (refs db) da)
    /\ (forall c, c <> a -> c <> b -> heap' !! c = heap !! c).
Proof.
  intros Ha Hb. unfold tuple_dictionary_swap.
  destruct (decide (a = b)) as [->|Hne].
  - rewrite Ha in Hb. injection Hb as <-.
    repeat heap_step. erewrite store_eq by (simplify_map_eq; reflexivity).
    eexists. split; [reflexivity|]. simplify_map_eq.
    split; [done|]. split; [done|].
    intros c Hc _. by simplify_map_eq.
  - repeat heap_step. erewrite store_eq by (simplify_map_eq; reflexivity).
    eexists. split; [reflexivity|]. simplify_map_eq.
    split; [done|]. split; [done|].
    intros c Hca Hcb. by simplify_map_eq.
Qed.

Lemma cmp_refl (d : tuple_dictionary) :
  dict_wf d -> tuple_dictionary_cmp d d = Some 0.
Proof.
  intros Hwf. rewrite cmp_refines_spec by done. f_equal.
  unfold dict_cmp_spec. rewrite !decide_False by lia. by apply names_cmp_eq.
Qed.

Lemma cmp_zero (a b : tuple_dictionary) :
  dict_wf a -> dict_wf b ->
  tuple_dictionary_cmp a b = Some 0
  <-> name_count a = name_count b /\ map cstr (cnames a) = map cstr (cnames b).
Proof.
  intros Ha Hb. rewrite cmp_refines_spec by done.
  pose proof (dict_wf_length a Ha). pose proof (dict_wf_length b Hb).
  unfold dict_cmp_spec. split.
  - intros [= Hz]. repeat case_decide; try lia.
    split; [lia|]. apply names_cmp_eq; [lia | done].
  - intros [Hn Hm]. rewrite !decide_False by lia. f_equal.
    apply names_cmp_eq; [lia | done].
Qed.

Lemma map_cstr_idemp (l : list (list byte)) : map cstr (map cstr l) = map cstr l.
Proof. rewrite map_map. apply map_ext. intros nm. apply cstr_idemp. Qed.

End DictionaryHeapFacts.

Module DictionaryHashFacts.
Import TupleDictionary DictionaryOrder DictionaryOrderFacts.

Section Process.
Context `{pmh : PMurHash}.

Lemma hash_process_loop_spec (dict : tuple_dictionary) (ns : list (list byte))
    (fuel : nat) :
  forall (i : nat) (size : Z) (st : Z * Z),
    names dict = Some ns -> (i + fuel = length ns)%nat ->
    0 <= size < 2 ^ 32 ->
    hash_process_loop dict fuel i size st
    = (Ok ((size + foldr (fun nm acc => Z.of_nat (strlen nm) + acc) 0 (drop i ns))
           mod 2 ^ 32),
       foldl (fun st nm => PMurHash32_Process st nm (Z.of_nat (strlen nm) mod 2 ^ 32)) st (drop i ns)).
Proof.
  induction fuel as [|fuel IH]; intros i size st Hns Hi Hsize.
  - rewrite drop_ge by lia. simpl. rewrite Z.add_0_r, Z.mod_small by done.
    reflexivity.
  - destruct (lookup_lt_is_Some_2 ns i ltac:(lia)) as [nm Hnm].
    cbn [hash_process_loop]. run_method. rewrite Hns. simpl. rewrite Hnm. simpl.
    rewrite (IH (S i)) by (done || lia || (apply Z.mod_pos_bound; lia)).
    rewrite (drop_S ns nm i Hnm). simpl. f_equal. f_equal.
    rewrite Z.add_mod_idemp_l by lia.
    rewrite <- Z.add_assoc, (Z.add_comm size), <- Z.add_assoc.
    rewrite Z.add_mod_idemp_l by lia. f_equal. lia.
Qed.

End Process.
End DictionaryHashFacts.

(** ** The build pass on an array without nil *)

Module BuildOverrunFacts.
Import BuildIndexes BuildIndexesFacts.

Section Overrun.
Context {Index : Type} `{ops : IndexClass Index} `{limits : BoxLimits}.

Abbreviation world := (BuildIndexes.world Index).
Abbreviation space_t := (BuildIndexes.space_t Index).

(** The inner loop on an array without nil from [length pre] on. *)
Lemma index_loop_overrun (n : nat) (pk : option Index) (rest : list (option Index)) :
  forall (pre : list (option Index)) (w : world) (sp : space_t) (fuel : nat),
    space w !! n = Some sp ->
    index sp = pre ++ rest ->
    Forall is_Some rest ->
    (length rest < fuel)%nat ->
    (index_loop fuel n (length pre) pk w).1 = Fault.
Proof.
  induction rest as [|x rest IH]; intros pre w sp fuel Hsp Hidx Hall Hfuel.
  - destruct fuel as [|fuel]; [simpl in Hfuel; lia|].
    cbn [index_loop]. unfold index_at, space_at. run_method. rewrite Hsp. simpl.
    rewrite Hidx, app_nil_r. rewrite lookup_ge_None_2 by lia. reflexivity.
  - destruct fuel as [|fuel]; [simpl in Hfuel; lia|].
    apply Forall_cons in Hall as [[i ->] Hall].
    assert (Hi : index sp !! length pre = Some (Some i))
      by (rewrite Hidx; apply list_lookup_middle; done).
    cbn [index_loop]. unfold index_at, space_at. run_method. rewrite Hsp. simpl.
    rewrite Hi. simpl.
    destruct (decide (index_type_of i <> TREE)) as [Hty|Hty].
    + replace (S (length pre)) with (length (pre ++ [Some i]))
        by (rewrite length_app; simpl; lia).
      apply (IH (pre ++ [Some i]) w sp fuel Hsp);
        first [by rewrite <- app_assoc | done | simpl in Hfuel; lia].
    + unfold send_build, emit, space_at. run_method. rewrite Hsp. simpl.
      pose proof (lookup_lt_Some _ _ _ Hsp) as Hn.
      replace (S (length pre)) with (length (pre ++ [Some (build i pk)]))
        by (rewrite length_app; simpl; lia).
      set (sp1 := {| enabled := enabled sp;
                     index := <[length pre := Some (build i pk)]> (index sp) |}).
      assert (Hidx1 : index sp1 = (pre ++ [Some (build i pk)]) ++ rest).
      { simpl. rewrite Hidx. rewrite insert_app_r_alt by lia.
        rewrite Nat.sub_diag. simpl. by rewrite <- app_assoc. }
      apply (IH (pre ++ [Some (build i pk)]) _ sp1 fuel);
        first [by apply list_lookup_insert_eq | done | simpl in Hfuel; lia].
Qed.

Lemma build_space_overrun (n : nat) (w : world) (sp : space_t) :
  space w !! n = Some sp ->
  enabled sp = true ->
  (2 <= length (index sp))%nat ->
  (forall idx, (1 <= idx < length (index sp))%nat ->
                exists i, index sp !! idx = Some (Some i)) ->
  (build_space n w).1 = Fault.
Proof.
  intros Hsp Hen Hlen Hall. unfold build_space.
  rewrite (bind_ok _ _ w w sp) by (by apply space_at_eq).
  rewrite decide_False by (by rewrite Hen).
  destruct (index sp) as [|pk [|x rest]] eqn:Hidx; simpl in Hlen; try lia.
  assert (Hrest : Forall is_Some (x :: rest)).
  { apply Forall_lookup. intros j y Hj.
    destruct (Hall (S j)) as [i Hi].
    - apply lookup_lt_Some in Hj. simpl in *. lia.
    - simpl in Hi. rewrite Hj in Hi. injection Hi as ->. eauto. }
  pose proof Hrest as Hrest'. apply Forall_cons in Hrest' as [[i ->] _].
  rewrite (bind_ok _ _ w w (Some i))
    by (apply (index_at_eq w n sp); [done | by rewrite Hidx]).
  cbv beta iota.
  erewrite bind_ok by apply emit_eq.
  erewrite bind_ok by (apply (index_at_eq _ n sp); [done | by rewrite Hidx]).
  unfold bind at 1.
  pose proof (index_loop_overrun n pk (Some i :: rest) [pk]
                {| space := space w; trace := trace w ++ [say_building n] |}
                sp (length (pk :: Some i :: rest)) Hsp Hidx Hrest
                ltac:(simpl; lia)) as Hrun.
  cbn [length] in Hrun |- *.
  destruct (index_loop _ n 1 pk _) as [r w']. simpl in Hrun. by subst r.
Qed.

Lemma space_loop_overrun (rest : list space_t) :
  forall (pre : list space_t) (w : world) (fuel j : nat) (sp : space_t),
    space w = pre ++ rest ->
    length rest = fuel ->
    rest !! j = Some sp ->
    Forall space_wf (take j rest) ->
    enabled sp = true ->
    (2 <= length (index sp))%nat ->
    (forall idx, (1 <= idx < length (index sp))%nat ->
                exists i, index sp !! idx = Some (Some i)) ->
    (space_loop fuel (length pre) w).1 = Fault.
Proof.
  induction rest as [|sp0 rest IH]; intros pre w fuel j sp Hsp Hfuel Hj Hwf Hen Hlen Hall;
    [discriminate|].
  subst fuel. cbn [space_loop length]. unfold bind.
  assert (Hsp0 : space w !! length pre = Some sp0)
    by (rewrite Hsp; by apply list_lookup_middle).
  destruct j as [|j].
  - injection Hj as ->.
    pose proof (build_space_overrun (length pre) w sp Hsp0 Hen Hlen Hall) as Hrun.
    destruct (build_space (length pre) w) as [r w']. simpl in Hrun. by subst r.
  - simpl in Hj, Hwf. apply Forall_cons in Hwf as [Hwf0 Hwf].
    rewrite (build_space_spec (length pre) w sp0) by done.
    replace (S (length pre)) with (length (pre ++ [built_space sp0]))
      by (rewrite length_app; simpl; lia).
    apply (IH (pre ++ [built_space sp0]) _ _ j sp); simpl; try done.
    rewrite Hsp. rewrite insert_app_r_alt by lia.
    rewrite Nat.sub_diag. simpl. by rewrite <- app_assoc.
Qed.

End Overrun.
End BuildOverrunFacts.

(** * Part III: the statements of the spec *)

(** ** The hash indexes *)

Module HashIndexSpec.
Import HashIndex HashIndexFacts Samples.

(** C1, as amended.  For a hash index whose table holds no key twice, a new
    record with a key and an old record that is NULL or has a key,
    [replace] returns; it is [remove] of the old record (when there is one,
    also when both keys are equal) followed by the insertion of the new
    record; afterwards the index stores the new record under the new key
    (so [find] on the new record's key field answers it), nothing under the
    old key when that differs from the new one, and what it stored before
    under every other key.  When the old and the new record share their key,
    [size] is unchanged if the index stored a record under that key before
    the call, and one more if it did not. *)
Theorem replace_deletes_old_then_inserts_new
    (self : HashIndex) (old : option box_tuple) (new : box_tuple) (k_new : hkey) :
  index_wf self ->
  record_key self new = Some k_new ->
  (forall o, old = Some o -> is_Some (record_key self o)) ->
  exists self',
    replace old new self = (Ok tt, self')
    /\ replace old new self
       = (do_ match old with Some o => remove o | None => ret tt end;
          replace None new) self
    /\ index_wf self'
    /\ (forall k, stored self' k =
                  if decide (k = k_new) then Some new
                  else if decide (old ≫= record_key self = Some k) then None
                  else stored self k)
    /\ (forall p, key_field self new = Some p ->
                  find (Some p) self' = (Ok (Some new), self'))
    /\ size self' = (Ok (count self'), self')
    /\ (old ≫= record_key self = Some k_new ->
        count self' = match stored self k_new with
                      | Some _ => count self
                      | None => S (count self)
                      end).
Proof.
  intros Hwf Hnew Hold. destruct old as [o|].
  - destruct (Hold o eq_refl) as [k_old Hko].
    pose proof (hi_delete_key self k_old Hwf) as (Hwf1 & Hsame1 & Hst1 & Hc1 & _).
    set (mid := delete_key self k_old) in *.
    assert (Hnew1 : record_key mid new = Some k_new)
      by (by rewrite (same_keys_record_key self mid)).
    pose proof (hi_insert_key mid new k_new Hwf1
                  (record_key_class mid new new k_new Hwf1 Hnew1))
      as (Hwf2 & Hsame2 & Hst2 & Hc2).
    assert (Hrun : replace (Some o) new self = (Ok tt, insert_key mid k_new new)).
    { rewrite hi_replace_split by eauto. unfold bind.
      rewrite (hi_remove self o k_old Hko). by apply hi_insert. }
    exists (insert_key mid k_new new). split; [done|].
    split; [by apply hi_replace_split; eauto|]. split; [done|].
    split; [|split; [|split]].
    + intros k. rewrite Hst2, Hst1. simpl. rewrite Hko.
      decide_keys.
    + intros p Hp. apply record_key_inv in Hnew as (p' & Hp' & Hv & Hd).
      rewrite Hp in Hp'. injection Hp' as <-.
      destruct Hsame1 as (_ & Hv1 & Hd1). destruct Hsame2 as (_ & Hv2 & Hd2).
      rewrite hi_find_valid by (by rewrite Hv2, Hv1).
      rewrite Hd2, Hd1, Hd, Hst2. by rewrite decide_True.
    + by destruct (insert_key mid k_new new).
    + simpl. rewrite Hko. intros [= ->]. rewrite Hc2, Hst1.
      rewrite decide_True by done. rewrite Hc1.
      by destruct (stored self k_new).
  - pose proof (hi_insert_key self new k_new Hwf
                  (record_key_class self new new k_new Hwf Hnew))
      as (Hwf2 & Hsame2 & Hst2 & Hc2).
    exists (insert_key self k_new new). split; [by apply hi_insert|].
    split; [done|]. split; [done|].
    split; [|split; [|split]].
    + intros k. rewrite Hst2. simpl. decide_keys.
    + intros p Hp. apply record_key_inv in Hnew as (p' & Hp' & Hv & Hd).
      rewrite Hp in Hp'. injection Hp' as <-.
      destruct Hsame2 as (_ & Hv2 & Hd2).
      rewrite hi_find_valid by (by rewrite Hv2).
      rewrite Hd2, Hd, Hst2. by rewrite decide_True.
    + by destruct (insert_key self k_new new).
    + simpl. discriminate.
Qed.

(** C3.  For a hash index whose table holds no key twice and a record [r]
    with key [k], [remove r] returns without an error; afterwards nothing is
    stored under [k] ([find] on the key field of [r] answers NULL) and every
    other key stores what it did; when nothing was stored under [k] the index
    is as it was; and the index that results is the same for every record
    with key [k], whatever record the slot held. *)
Theorem remove_deletes_by_key (self : HashIndex) (r : box_tuple) (k : hkey) :
  index_wf self ->
  record_key self r = Some k ->
  exists self',
    remove r self = (Ok tt, self')
    /\ index_wf self'
    /\ stored self' k = None
    /\ (forall p, key_field self r = Some p ->
                  find (Some p) self' = (Ok None, self'))
    /\ (forall k', k' <> k -> stored self' k' = stored self k')
    /\ count self = match stored self k with
                    | Some _ => S (count self')
                    | None => count self'
                    end
    /\ (stored self k = None -> self' = self)
    /\ (forall r', record_key self r' = Some k -> remove r' self = (Ok tt, self')).
Proof.
  intros Hwf Hk.
  pose proof (hi_delete_key self k Hwf) as (Hwf1 & Hsame1 & Hst1 & Hc1 & Hid).
  exists (delete_key self k). split; [by apply hi_remove|]. split; [done|].
  split; [by rewrite Hst1, decide_True|].
  split; [|split; [|split; [done|split; [done|]]]].
  - intros p Hp. apply record_key_inv in Hk as (p' & Hp' & Hv & Hd).
    rewrite Hp in Hp'. injection Hp' as <-.
    destruct Hsame1 as (_ & Hv1 & Hd1).
    rewrite hi_find_valid by (by rewrite Hv1).
    rewrite Hd1, Hd, Hst1. by rewrite decide_True.
  - intros k' Hne. rewrite Hst1. by rewrite decide_False.
  - intros r' Hk'. by apply hi_remove.
Qed.

(** C4.  [find] of a 32-bit hash index raises [IllegalParams] (the spec's
    InvalidKeyType) and leaves the index as it is whenever the length prefix
    of the key does not decode to 4; for a key whose prefix decodes to 4 it
    returns, again leaving the index as it is, what the table holds under
    the integer in the four bytes that follow, and a key written as the
    prefix 4 and the four bytes of [v] is looked up under [v].  The same for
    the 64-bit index with 8. *)
Theorem find_checks_key_width :
  (forall (i : Hash32.Hash32Index) (p : list byte),
      (load_varint32 p).1 <> 4 ->
      exists e, Hash32.find (Some p) i = (Raised e, i)
                /\ is_InvalidKeyType e = true)
  /\ (forall (i : Hash32.Hash32Index) (p q : list byte),
         load_varint32 p = (4, q) ->
         Hash32.find (Some p) i
         = (Ok (mh_find (Hash32.int_hash i) (load_u32 q)), i))
  /\ (forall (i : Hash32.Hash32Index) (v : Z) (tl : list byte),
         0 <= v < 2 ^ 32 ->
         Hash32.find (Some (save_varint32_small 4 ++ store_u32 v ++ tl)) i
         = (Ok (mh_find (Hash32.int_hash i) v), i))
  /\ (forall (i : Hash64.Hash64Index) (p : list byte),
         (load_varint32 p).1 <> 8 ->
         exists e, Hash64.find (Some p) i = (Raised e, i)
                   /\ is_InvalidKeyType e = true)
  /\ (forall (i : Hash64.Hash64Index) (p q : list byte),
         load_varint32 p = (8, q) ->
         Hash64.find (Some p) i
         = (Ok (mh_find (Hash64.int64_hash i) (load_u64 q)), i))
  /\ (forall (i : Hash64.Hash64Index) (v : Z) (tl : list byte),
         0 <= v < 2 ^ 64 ->
         Hash64.find (Some (save_varint32_small 8 ++ store_u64 v ++ tl)) i
         = (Ok (mh_find (Hash64.int64_hash i) v), i)).
Proof.
  repeat split.
  - intros i p Hp. rewrite Hash32Facts.h32_find_raise by done. eauto.
  - intros i p q Hp. by apply Hash32Facts.h32_find_eq.
  - intros i v tl Hv.
    rewrite (Hash32Facts.h32_find_eq i _ (store_u32 v ++ tl))
      by (apply load_varint32_small; lia).
    by rewrite load_store_u32.
  - intros i p Hp. rewrite Hash64Facts.h64_find_raise by done. eauto.
  - intros i p q Hp. by apply Hash64Facts.h64_find_eq.
  - intros i v tl Hv.
    rewrite (Hash64Facts.h64_find_eq i _ (store_u64 v ++ tl))
      by (apply load_varint32_small; lia).
    by rewrite load_store_u64.
Qed.

(** The key of the record used in the examples. *)
Lemma record_key_tuple_u32_7 : record_key empty32 (tuple_u32 7) = Some (U32 7).
Proof. vm_compute. reflexivity. Qed.

(** [replace] on the 32-bit index that stores the record with key 7: of
    that record by the record with key 9, which takes the record with key 7
    out; and of that record by another record with key 7, which takes its
    place and leaves [size] at 1. *)
Lemma replace_deletes_old_then_inserts_new_witness :
  index_wf index_with_7
  /\ stored index_with_7 (U32 7) = Some (tuple_u32 7)
  /\ (size index_with_7).1 = Ok 1%nat
  /\ record_key index_with_7 (tuple_u32 9) = Some (U32 9)
  /\ record_key index_with_7 tuple_u32_7_more = Some (U32 7)
  /\ tuple_u32_7_more <> tuple_u32 7
  /\ (exists self',
        replace (Some (tuple_u32 7)) (tuple_u32 9) index_with_7 = (Ok tt, self')
        /\ index_wf self'
        /\ stored self' (U32 7) = None
        /\ stored self' (U32 9) = Some (tuple_u32 9))
  /\ (exists self',
        replace (Some (tuple_u32 7)) tuple_u32_7_more index_with_7 = (Ok tt, self')
        /\ index_wf self'
        /\ stored self' (U32 7) = Some tuple_u32_7_more
        /\ count self' = count index_with_7
        /\ size self' = (Ok 1%nat, self')).
Proof.
  assert (Hwf : index_wf index_with_7).
  { apply (mh_wf_put (K := Z)). exact mh_wf_init. }
  assert (Hold : forall o, Some (tuple_u32 7) = Some o ->
                           is_Some (record_key index_with_7 o)).
  { intros o [= <-]. exists (U32 7). reflexivity. }
  split; [exact Hwf|]. split; [reflexivity|]. split; [reflexivity|].
  split; [reflexivity|]. split; [reflexivity|]. split; [discriminate|]. split.
  - destruct (replace_deletes_old_then_inserts_new
                index_with_7 (Some (tuple_u32 7)) (tuple_u32 9) (U32 9)
                Hwf eq_refl Hold)
      as (self' & Hrun & _ & Hwf' & Hst & _).
    exists self'. split; [exact Hrun|]. split; [exact Hwf'|].
    split; rewrite Hst; reflexivity.
  - destruct (replace_deletes_old_then_inserts_new
                index_with_7 (Some (tuple_u32 7)) tuple_u32_7_more (U32 7)
                Hwf eq_refl Hold)
      as (self' & Hrun & _ & Hwf' & Hst & _ & Hsz & Hc).
    exists self'. split; [exact Hrun|]. split; [exact Hwf'|].
    split; [rewrite Hst; reflexivity|].
    specialize (Hc eq_refl). split; [exact Hc|].
    rewrite Hsz, Hc. reflexivity.
Defined.

(** C1 as the claim states it fails: on the empty 32-bit index, [replace]
    with an old and a new record of the same key 7 returns, and [size]
    answers 0 before and 1 after; so it is not so that [size] is unchanged
    whenever the old and the new record share their key. *)
Lemma replace_same_key_on_empty_index_grows :
  index_wf empty32
  /\ record_key empty32 (tuple_u32 7) = Some (U32 7)
  /\ (size empty32).1 = Ok 0%nat
  /\ (exists self',
        replace (Some (tuple_u32 7)) (tuple_u32 7) empty32 = (Ok tt, self')
        /\ (size self').1 = Ok 1%nat)
  /\ ~ (forall (self : HashIndex) (old new : box_tuple) (k : hkey),
          index_wf self ->
          record_key self old = Some k -> record_key self new = Some k ->
          forall self', replace (Some old) new self = (Ok tt, self') ->
                        (size self').1 = (size self).1).
Proof.
  split; [exact mh_wf_init|]. split; [exact record_key_tuple_u32_7|].
  split; [reflexivity|]. split.
  - eexists. split; vm_compute; reflexivity.
  - intros H.
    specialize (H empty32 (tuple_u32 7) (tuple_u32 7) (U32 7) mh_wf_init
                  record_key_tuple_u32_7 record_key_tuple_u32_7
                  _ eq_refl).
    vm_compute in H. discriminate H.
Qed.

(** [remove] of the record with key 7 from the 32-bit index that holds it. *)
Lemma remove_deletes_by_key_witness :
  index_wf (insert_key empty32 (U32 7) (tuple_u32 7))
  /\ record_key (insert_key empty32 (U32 7) (tuple_u32 7)) (tuple_u32 7)
     = Some (U32 7)
  /\ exists self',
       remove (tuple_u32 7) (insert_key empty32 (U32 7) (tuple_u32 7))
       = (Ok tt, self')
       /\ stored self' (U32 7) = None.
Proof.
  assert (Hwf : index_wf (insert_key empty32 (U32 7) (tuple_u32 7))).
  { apply (mh_wf_put (K := Z)). exact mh_wf_init. }
  split; [exact Hwf|]. split; [vm_compute; reflexivity|].
  destruct (remove_deletes_by_key
              (insert_key empty32 (U32 7) (tuple_u32 7)) (tuple_u32 7) (U32 7) Hwf)
    as (self' & Hrun & _ & Hst & _).
  - vm_compute. reflexivity.
  - exists self'. split; [exact Hrun | exact Hst].
Defined.

(** [find] on the 32-bit index that holds the record with key 7: a key
    whose prefix decodes to 5, and the key 7. *)
Lemma find_checks_key_width_witness :
  (exists e,
      Hash32.find (Some (save_varint32_small 5 ++ store_u32 7 ++ [x00]))
        {| Hash32.key_def := key_def0 NUM; Hash32.enabled := true;
           Hash32.int_hash := mh_put mh_init 7 (tuple_u32 7) |}
      = (Raised e,
         {| Hash32.key_def := key_def0 NUM; Hash32.enabled := true;
            Hash32.int_hash := mh_put mh_init 7 (tuple_u32 7) |})
      /\ is_InvalidKeyType e = true)
  /\ Hash32.find (Some (save_varint32_small 4 ++ store_u32 7 ++ []))
       {| Hash32.key_def := key_def0 NUM; Hash32.enabled := true;
          Hash32.int_hash := mh_put mh_init 7 (tuple_u32 7) |}
     = (Ok (Some (tuple_u32 7)),
        {| Hash32.key_def := key_def0 NUM; Hash32.enabled := true;
           Hash32.int_hash := mh_put mh_init 7 (tuple_u32 7) |}).
Proof.
  destruct find_checks_key_width as (Hbad & _ & Hgood & _).
  split.
  - apply Hbad. vm_compute. discriminate.
  - rewrite Hgood by lia. vm_compute. reflexivity.
Defined.

End HashIndexSpec.

(** ** The keyed iterator *)

Module IteratorSpec.
Import HashIndex HashIndexFacts KeyedIterator IteratorFacts Samples.

(** C2, as amended.  For a hash index and a key of the width of its class,
    [initIterator: iterator :key :1] returns, whatever the iterator held;
    the first call of [next_equal] then answers the record stored under the
    key (one record when the key is present, NULL when it is absent), and
    every further call answers NULL, as many as are made, for as long as the
    iterator is not initialized again.  Initializing the exhausted iterator
    again with the key positions it again: the next call of [next_equal]
    answers the stored record once more. *)
Theorem keyed_iterator_yields_once
    (self : HashIndex) (p : list byte) (it0 : hash_iterator) :
  valid_key self p = true ->
  exists it1 it2,
    initIterator_key self (Some p) 1 it0 = (Ok tt, it1)
    /\ call_next_equal it1 = (Ok (stored self (decode self p)), it2)
    /\ (forall n, call_next_equal_n n it2 = (repeat (Ok None) n, it2))
    /\ initIterator_key self (Some p) 1 it2 = (Ok tt, it1).
Proof.
  intros Hv. exists (positioned_at self p), (exhausted_at self p).
  split; [by apply initIterator_key_positions|].
  split; [apply first_equal_positioned_at|].
  split; [|by apply initIterator_key_positions].
  intros n. apply next_equal_exhausted, exhausted_at_next_equal.
Qed.

Lemma keyed_iterator_yields_once_witness :
  valid_key index_with_7 key_7 = true
  /\ exists it1 it2,
       initIterator_key index_with_7 (Some key_7) 1 allocIterator = (Ok tt, it1)
       /\ call_next_equal it1 = (Ok (Some (tuple_u32 7)), it2)
       /\ call_next_equal_n 3 it2 = ([Ok None; Ok None; Ok None], it2).
Proof.
  split; [reflexivity|].
  destruct (keyed_iterator_yields_once index_with_7 key_7 allocIterator eq_refl)
    as (it1 & it2 & Hinit & Hfirst & Hrest & _).
  exists it1, it2. split; [exact Hinit|]. split; [exact Hfirst|].
  exact (Hrest 3%nat).
Defined.

(** C2 as the claim states it fails: the iterator over key 7 of the index
    that stores the record with key 7 answers the record, then NULL; once
    initialized again with the key, the same iterator answers the record
    again, so that the end of the sequence was not for good. *)
Lemma exhausted_iterator_resumes_after_initIterator :
  exists it1 it2 it3 it4 it5,
    initIterator_key index_with_7 (Some key_7) 1 allocIterator = (Ok tt, it1)
    /\ call_next_equal it1 = (Ok (Some (tuple_u32 7)), it2)
    /\ call_next_equal it2 = (Ok None, it3)
    /\ initIterator_key index_with_7 (Some key_7) 1 it3 = (Ok tt, it4)
    /\ call_next_equal it4 = (Ok (Some (tuple_u32 7)), it5).
Proof.
  do 5 eexists. repeat split; vm_compute; reflexivity.
Qed.

End IteratorSpec.

(** ** The tuple dictionary *)

Module TupleDictionarySpec.
Import Assoc TupleDictionary DictionaryOrder TupleDictionaryFacts.

Section Spec.
Context `{fnh : FieldNameHash}.


(** C7.  A dictionary constructed with zero fields has no hash and no
    array of names; looking any name up in a dictionary without a hash
    answers -1, sets no field number, and reads no table; and two
    dictionaries without fields compare equal. *)
Theorem empty_dictionary_has_no_hash
    (name_data name_data' : list (list byte)) (diag diag' : diag_t) :
  exists dict dict',
    tuple_dictionary_new_impl name_data 0 diag
    = (Ok (Some dict), diag)
    /\ tuple_dictionary_new_impl name_data' 0 diag'
       = (Ok (Some dict'), diag')
    /\ hash dict = None /\ names dict = None /\ name_count dict = 0%nat
    /\ (forall nm name_len name_hash fieldno,
           tuple_fieldno_by_name dict nm name_len name_hash fieldno
           = (-1, fieldno))
    /\ (forall d nm name_len name_hash fieldno,
           hash d = None ->
           tuple_fieldno_by_name d nm name_len name_hash fieldno
           = (-1, fieldno))
    /\ tuple_dictionary_cmp dict dict' = Some 0
    /\ (forall a b, name_count a = 0%nat -> name_count b = 0%nat ->
                    tuple_dictionary_cmp a b = Some 0).
Proof.
  do 2 eexists. split; [reflexivity|]. split; [reflexivity|]. simpl.
  repeat split.
  - intros d nm name_len name_hash f Hd. unfold tuple_fieldno_by_name.
    by rewrite Hd.
  - intros a b Ha Hb. unfold tuple_dictionary_cmp. rewrite Ha, Hb.
    rewrite decide_False by (intros H; by apply H). reflexivity.
Qed.

End Spec.
End TupleDictionarySpec.

Module DictionaryOrderSpec.
Import Assoc TupleDictionary DictionaryOrder DictionaryOrderFacts HeapFacts Samples.

(** C6.  On dictionaries whose array of names has [name_count] entries,
    [tuple_dictionary_cmp] returns for every pair; it answers 0 on a
    dictionary and itself; swapping the arguments flips the sign; it answers
    0 exactly when both have the same number of names and the same names in
    order; it is transitive (with a strict result once one step is strict);
    the dictionary with fewer names is less; and with equal counts the result
    is that of the first pair of names that differ, as [dict_cmp_spec] has
    it. *)
Theorem tuple_dictionary_cmp_total_order (a b c : tuple_dictionary) :
  dict_wf a -> dict_wf b -> dict_wf c ->
  exists x y z x',
    tuple_dictionary_cmp a b = Some x
    /\ tuple_dictionary_cmp b c = Some y
    /\ tuple_dictionary_cmp a c = Some z
    /\ tuple_dictionary_cmp b a = Some x'
    /\ tuple_dictionary_cmp a a = Some 0
    /\ Z.sgn x' = - Z.sgn x
    /\ (x = 0 <-> name_count a = name_count b
                  /\ map cstr (cnames a) = map cstr (cnames b))
    /\ (x <= 0 -> y <= 0 -> z <= 0 /\ (z = 0 -> x = 0 /\ y = 0))
    /\ ((name_count a < name_count b)%nat -> x < 0)
    /\ ((name_count b < name_count a)%nat -> 0 < x)
    /\ x = dict_cmp_spec a b.
Proof.
  intros Ha Hb Hc.
  pose proof (dict_wf_length a Ha) as Hla.
  pose proof (dict_wf_length b Hb) as Hlb.
  pose proof (dict_wf_length c Hc) as Hlc.
  exists (dict_cmp_spec a b), (dict_cmp_spec b c), (dict_cmp_spec a c),
    (dict_cmp_spec b a).
  rewrite !cmp_refines_spec by done.
  split; [done|]. split; [done|]. split; [done|]. split; [done|].
  split; [|split; [|split; [|split; [|split; [|split; [|done]]]]]].
  - f_equal. unfold dict_cmp_spec. rewrite !decide_False by lia.
    apply names_cmp_eq; done.
  - unfold dict_cmp_spec. rewrite (names_cmp_antisym (cnames a) (cnames b)).
    repeat case_decide; try lia.
  - unfold dict_cmp_spec. repeat case_decide; try lia.
    rewrite names_cmp_eq by lia. split; [intros ?; split; [lia|done] | tauto].
  - unfold dict_cmp_spec. repeat case_decide; try lia.
    apply names_cmp_trans; lia.
  - unfold dict_cmp_spec. intros ?. rewrite decide_True by done. lia.
  - unfold dict_cmp_spec. intros ?. rewrite decide_False by lia.
    rewrite decide_True by done. lia.
Qed.

(** The comparisons the spec names: dict(a) is less than dict(a, b), and
    dict(a, c) is greater than dict(a, b). *)
Lemma tuple_dictionary_cmp_total_order_witness :
  dict_wf (dict_of ["a"]) /\ dict_wf (dict_of ["a"; "b"])
  /\ dict_wf (dict_of ["a"; "c"])
  /\ exists x y z x',
       tuple_dictionary_cmp (dict_of ["a"]) (dict_of ["a"; "b"]) = Some x
       /\ tuple_dictionary_cmp (dict_of ["a"; "b"]) (dict_of ["a"; "c"]) = Some y
       /\ tuple_dictionary_cmp (dict_of ["a"]) (dict_of ["a"; "c"]) = Some z
       /\ tuple_dictionary_cmp (dict_of ["a"; "b"]) (dict_of ["a"]) = Some x'
       /\ x < 0 /\ y < 0 /\ z < 0 /\ 0 < x'
       /\ tuple_dictionary_cmp (dict_of ["a"; "c"]) (dict_of ["a"; "b"]) = Some 1.
Proof.
  assert (Ha : dict_wf (dict_of ["a"])) by reflexivity.
  assert (Hb : dict_wf (dict_of ["a"; "b"])) by reflexivity.
  assert (Hc : dict_wf (dict_of ["a"; "c"])) by reflexivity.
  split; [exact Ha|]. split; [exact Hb|]. split; [exact Hc|].
  destruct (tuple_dictionary_cmp_total_order
              (dict_of ["a"]) (dict_of ["a"; "b"]) (dict_of ["a"; "c"]) Ha Hb Hc)
    as (x & y & z & x' & Hx & Hy & Hz & Hx' & _).
  exists x, y, z, x'.
  split; [exact Hx|]. split; [exact Hy|]. split; [exact Hz|].
  split; [exact Hx'|].
  vm_compute in Hx, Hy, Hz, Hx'.
  injection Hx as <-. injection Hy as <-. injection Hz as <-. injection Hx' as <-.
  repeat split; reflexivity.
Defined.

(** C8.  For two dictionaries in the heap, at addresses that may be the
    same, [tuple_dictionary_swap] returns; afterwards each address holds the
    hash, the names and the name count the other held, with the reference
    count it had itself, and every other address holds what it held. *)
Theorem tuple_dictionary_swap_keeps_refs
    (heap : gmap nat tuple_dictionary) (a b : nat) (da db : tuple_dictionary) :
  heap !! a = Some da -> heap !! b = Some db ->
  exists heap',
    tuple_dictionary_swap a b heap = (Ok tt, heap')
    /\ heap' !! a = Some {| hash := hash db; names := names db;
                            name_count := name_count db; refs := refs da |}
    /\ heap' !! b = Some {| hash := hash da; names := names da;
                            name_count := name_count da; refs := refs db |}
    /\ (forall c, c <> a -> c <> b -> heap' !! c = heap !! c).
Proof.
  intros Ha Hb. unfold tuple_dictionary_swap.
  destruct (decide (a = b)) as [->|Hne].
  - rewrite Ha in Hb. injection Hb as <-.
    repeat heap_step. erewrite store_eq by (simplify_map_eq; reflexivity).
    eexists. split; [reflexivity|]. simplify_map_eq.
    split; [done|]. split; [done|].
    intros c Hc _. by simplify_map_eq.
  - repeat heap_step. erewrite store_eq by (simplify_map_eq; reflexivity).
    eexists. split; [reflexivity|]. simplify_map_eq.
    split; [done|]. split; [done|].
    intros c Hca Hcb. by simplify_map_eq.
Qed.

End DictionaryOrderSpec.

Module DictionaryExamples.
Import Assoc TupleDictionary DictionaryOrder TupleDictionarySpec DictionaryOrderSpec Samples.


(** Swapping the dictionary of a, held three times, with the dictionary
    of a and b, held once. *)
Lemma tuple_dictionary_swap_keeps_refs_witness :
  heap0 !! 1%nat = Some (set_refs 3 (dict_of ["a"]))
  /\ heap0 !! 2%nat = Some (dict_of ["a"; "b"])
  /\ exists heap',
       tuple_dictionary_swap 1 2 heap0 = (Ok tt, heap')
       /\ heap' !! 1%nat = Some (set_refs 3 (dict_of ["a"; "b"]))
       /\ heap' !! 2%nat = Some (set_refs 1 (dict_of ["a"])).
Proof.
  assert (H1 : heap0 !! 1%nat = Some (set_refs 3 (dict_of ["a"]))) by reflexivity.
  assert (H2 : heap0 !! 2%nat = Some (dict_of ["a"; "b"])) by reflexivity.
  split; [exact H1|]. split; [exact H2|].
  destruct (tuple_dictionary_swap_keeps_refs heap0 1 2 _ _ H1 H2)
    as (heap' & Hrun & Ha & Hb & _).
  exists heap'. split; [exact Hrun|]. split; [exact Ha | exact Hb].
Defined.

End DictionaryExamples.

(** ** The cluster *)

Module ClusterSpec.
Import Cluster ClusterFacts Samples.

(** C10.  With a UUID that is not nil and a server id that is not
    reserved, [cluster_add_server] registers the server id in the vector
    clock of the recovery state, every server registered before keeping its
    number.  When the UUID is not the recovery state's own, the call returns
    and the local server id is what it was; when it is the recovery state's
    own and the local server id is 0, the call returns and the local server
    id is the given one; when it is the recovery state's own and the local
    server id is not 0, the assertion fails, the server id being registered
    all the same. *)
Theorem cluster_add_server_assigns_local_id
    (r : recovery_state) (uuid : tt_uuid) (id : nat) :
  tt_uuid_is_nil uuid = false ->
  cserver_id_is_reserved id = false ->
  exists res r',
    cluster_add_server uuid id r = (res, r')
    /\ vclock_has (cluster_clock r') id
    /\ (forall id', vclock_has (cluster_clock r) id' ->
                    lsn (cluster_clock r') !! id' = lsn (cluster_clock r) !! id')
    /\ server_uuid r' = server_uuid r
    /\ (server_uuid r <> uuid -> res = Ok tt /\ server_id r' = server_id r)
    /\ (server_uuid r = uuid -> server_id r = 0%nat ->
        res = Ok tt /\ server_id r' = id)
    /\ (server_uuid r = uuid -> server_id r <> 0%nat ->
        res = Fault /\ server_id r' = server_id r).
Proof.
  intros Hnil Hres. unfold cluster_add_server, assert, tt_uuid_is_equal.
  run_method. rewrite Hnil, Hres. simpl.
  destruct (decide (server_uuid r = uuid)) as [Heq|Hne].
  - rewrite bool_decide_true by done.
    destruct (decide (server_id r = 0%nat)) as [Hz|Hnz].
    + rewrite bool_decide_true by done. simpl.
      do 2 eexists. split; [reflexivity|]. simpl.
      split; [apply vclock_add_server_has|].
      split; [apply vclock_add_server_keeps|]. split; [done|].
      split; [done|]. split; [done|]. done.
    + rewrite bool_decide_false by done. simpl.
      do 2 eexists. split; [reflexivity|]. simpl.
      split; [apply vclock_add_server_has|].
      split; [apply vclock_add_server_keeps|]. split; [done|].
      split; [done|]. split; [done|]. done.
  - rewrite bool_decide_false by done. simpl.
    do 2 eexists. split; [reflexivity|]. simpl.
    split; [apply vclock_add_server_has|].
    split; [apply vclock_add_server_keeps|]. split; [done|].
    split; [done|]. split; [done|]. done.
Qed.

Lemma cluster_add_server_assigns_local_id_witness :
  tt_uuid_is_nil uuid_a = false
  /\ cserver_id_is_reserved 2 = false
  /\ (exists r', cluster_add_server uuid_a 2 recovery0 = (Ok tt, r')
                 /\ vclock_has (cluster_clock r') 2 /\ server_id r' = 2%nat)
  /\ (exists r', cluster_add_server uuid_b 2 recovery0 = (Ok tt, r')
                 /\ vclock_has (cluster_clock r') 2 /\ server_id r' = 0%nat).
Proof.
  split; [reflexivity|]. split; [reflexivity|]. split.
  - destruct (cluster_add_server_assigns_local_id recovery0 uuid_a 2
                eq_refl eq_refl)
      as (res & r' & Hrun & Hhas & _ & _ & _ & Hown & _).
    destruct (Hown eq_refl eq_refl) as [-> Hid].
    exists r'. split; [exact Hrun|]. split; [exact Hhas | exact Hid].
  - destruct (cluster_add_server_assigns_local_id recovery0 uuid_b 2
                eq_refl eq_refl)
      as (res & r' & Hrun & Hhas & _ & _ & Hother & _).
    destruct (Hother ltac:(discriminate)) as [-> Hid].
    exists r'. split; [exact Hrun|]. split; [exact Hhas | exact Hid].
Defined.

End ClusterSpec.

(** ** The build pass *)

Module BuildIndexesSpec.
Import BuildIndexes BuildIndexesFacts Samples.

Section BuildSpec.
Context {Index : Type} `{ops : IndexClass Index} `{limits : BoxLimits}.

Abbreviation world := (BuildIndexes.world Index).

(** C9.  With [space] an array of [BOX_SPACE_MAX] spaces in which every
    enabled space has a primary key slot and a nil after it, the pass
    returns.  A space that is not enabled, or whose entry 1 is nil, is as
    it was and nothing is said or built for it.  In an enabled space each
    entry from 1 up to the first nil is the result of [build:] from the
    primary key when its type is [TREE], and as it was when it is not;
    entry 0 and the entries from the first nil on are as they were.  The
    trace has, space after space, the calls of [build:] in the order of the
    entries, between the two messages. *)
Theorem build_indexes_builds_tree_secondaries (w : world) :
  length (space w) = BOX_SPACE_MAX ->
  Forall space_wf (space w) ->
  exists w',
    build_indexes w = (Ok tt, w')
    /\ space w' = map built_space (space w)
    /\ trace w' = trace w ++ spaces_trace 0 (space w)
    /\ forall n sp,
         space w !! n = Some sp ->
         exists sp',
           space w' !! n = Some sp'
           /\ enabled sp' = enabled sp
           /\ length (index sp') = length (index sp)
           /\ index sp' !! 0%nat = index sp !! 0%nat
           /\ (enabled sp = false -> sp' = sp /\ space_trace n sp = [])
           /\ (index sp !! 1%nat = Some None -> sp' = sp /\ space_trace n sp = [])
           /\ (enabled sp = true ->
               forall pk j,
                 index sp !! 0%nat = Some pk ->
                 (1 <= j)%nat ->
                 index sp !! j = Some None ->
                 (forall k, (1 <= k < j)%nat -> exists i, index sp !! k = Some (Some i)) ->
                 (forall idx i,
                     (1 <= idx < j)%nat ->
                     index sp !! idx = Some (Some i) ->
                     index sp' !! idx
                     = Some (Some (if decide (index_type_of i = TREE)
                                   then build i pk else i))
                     /\ (index_type_of i = TREE ->
                         call_build n idx ∈ space_trace n sp))
                 /\ (forall idx, (j <= idx)%nat -> index sp' !! idx = index sp !! idx)).
Proof.
  intros Hlen Hwf. unfold build_indexes.
  rewrite <- Hlen.
  pose proof (space_loop_spec (space w) [] w (length (space w))
                eq_refl eq_refl Hwf) as Hrun.
  cbn [length app] in Hrun. rewrite Hrun.
  eexists. split; [reflexivity|]. cbn [space trace app length].
  split; [done|]. split; [done|].
  intros n sp Hsp. exists (built_space sp).
  split; [by rewrite list_lookup_fmap, Hsp|].
  split; [apply built_space_enabled|].
  rewrite Forall_lookup in Hwf. specialize (Hwf n sp Hsp).
  unfold built_space, space_trace.
  destruct (enabled sp) eqn:Hen.
  - destruct (Hwf Hen) as (pk & rest & Hidx & Hnil). rewrite Hidx.
    apply list_elem_of_lookup in Hnil as [j0 Hj0].
    cbn [index length lookup].
    split.
    { simpl. f_equal.
      clear Hj0. clear Hidx. induction rest as [|[i|] rest IH]; simpl; [done| |done].
      by rewrite IH. }
    split; [done|]. split; [done|]. split.
    { simpl. destruct rest as [|[i|] rest]; [discriminate|discriminate|].
      intros _. split; [|done]. simpl. rewrite <- Hidx, <- Hen.
      by apply space_eta. }
    intros _ pk' j [= <-] Hj Hjn Hpre.
    destruct j as [|j]; [lia|]. simpl in Hjn.
    destruct (built_indexes_lookup pk rest j Hjn) as (_ & Hlt & Hge).
    { intros k Hk. apply (Hpre (S k)). lia. }
    split.
    + intros [|idx] i Hidx' Hi; [lia|]. simpl in Hi. split.
      * simpl. apply Hlt; [lia | done].
      * intros Htree.
        assert (Hcall : call_build n (1 + idx) ∈ build_calls n 1 rest).
        { apply (build_calls_elem n rest 1%nat idx i); [done| |done].
          intros k Hk. apply (Hpre (S k)). lia. }
        destruct rest as [|[i1|] rest]; [discriminate| |].
        -- apply elem_of_app. right. apply elem_of_app. by left.
        -- simpl in Hcall. by apply elem_of_nil in Hcall.
    + intros [|idx] Hidx'; [lia|]. simpl. apply Hge. lia.
  - split; [done|]. split; [done|]. split; [done|]. split; [done|].
    split; [done|]. discriminate.
Qed.

End BuildSpec.

Lemma world0_wf : Forall space_wf (space world0).
Proof.
  repeat constructor; intros _; do 2 eexists; (split; [reflexivity|]);
    repeat first [by left | right].
Qed.

Lemma build_indexes_builds_tree_secondaries_witness :
  length (space world0) = 3%nat
  /\ Forall space_wf (space world0)
  /\ exists w',
       build_indexes world0 = (Ok tt, w')
       /\ space w'
          = [ {| enabled := true;
                 index := [ix HASH; Some (TREE, 1%nat); ix HASH;
                           Some (TREE, 1%nat); None; None] |};
              {| enabled := false; index := [ix HASH; ix TREE; None] |};
              {| enabled := true; index := [ix TREE; None] |} ]
       /\ trace w'
          = [say_building 0; call_build 0 1; call_build 0 3; say_done 0].
Proof.
  split; [reflexivity|]. split; [exact world0_wf|].
  destruct (build_indexes_builds_tree_secondaries world0 eq_refl world0_wf)
    as (w' & Hrun & Hspace & Htrace & _).
  exists w'. split; [exact Hrun|]. rewrite Hspace, Htrace.
  split; reflexivity.
Defined.

End BuildIndexesSpec.

(** * Part IV: further properties of the code *)

(** ** Iterating over a hash index *)

Module ScanSpec.
Import HashIndex HashIndexFacts KeyedIterator IteratorFacts Scan ScanFacts Samples.

(** X1.  For every hash index, [initIterator: iterator] returns, whatever
    the iterator held; the calls of [next] then answer the records of the
    index, in the order of the slots, as many as [size] answers, and NULL on
    every call after them.  When no key sits in two slots, these are the
    records stored, each key once.  The iterator's [next_equal] is the null
    pointer: calling it ends the process. *)
Theorem unkeyed_iterator_yields_every_record
    (self : HashIndex) (it0 : hash_iterator) (m : nat) :
  exists it1 it2,
    initIterator self it0 = (Ok tt, it1)
    /\ call_next_n (count self + m) it1
       = (map yield (records self) ++ repeat (Ok None) m, it2)
    /\ length (records self) = count self
    /\ size self = (Ok (count self), self)
    /\ (index_wf self ->
        NoDup (entries self).*1
        /\ forall k r, (k, r) ∈ entries self <-> stored self k = Some r)
    /\ call_next_equal it1 = (Fault, it1).
Proof.
  rewrite initIterator_scan_at, <- length_records, records_values.
  destruct self as [i|i|i].
  - destruct (call_next_n_view (Hash32.int_hash i) 0 m next_equal_null
                ltac:(lia)) as [it2 Hrun].
    rewrite drop_0 in Hrun. do 2 eexists. split; [reflexivity|].
    split; [exact Hrun|]. split; [done|].
    split; [rewrite size_count, <- length_records, records_values; done|].
    split; [|reflexivity].
    intros Hwf. split; [by apply entries_NoDup | intros; by apply elem_of_entries].
  - destruct (call_next_n_view (Hash64.int64_hash i) 0 m next_equal_null
                ltac:(lia)) as [it2 Hrun].
    rewrite drop_0 in Hrun. do 2 eexists. split; [reflexivity|].
    split; [exact Hrun|]. split; [done|].
    split; [rewrite size_count, <- length_records, records_values; done|].
    split; [|reflexivity].
    intros Hwf. split; [by apply entries_NoDup | intros; by apply elem_of_entries].
  - destruct (call_next_n_view (HashStr.str_hash i) 0 m next_equal_null
                ltac:(lia)) as [it2 Hrun].
    rewrite drop_0 in Hrun. do 2 eexists. split; [reflexivity|].
    split; [exact Hrun|]. split; [done|].
    split; [rewrite size_count, <- length_records, records_values; done|].
    split; [|reflexivity].
    intros Hwf. split; [by apply entries_NoDup | intros; by apply elem_of_entries].
Qed.

(** X2.  After [initIterator: iterator :key :1] with a key of the width of
    the class, [next] (not [next_equal]) does not stop at the record of the
    key: when the key is stored, the calls of [next] answer its record and
    then the records of the slots after it, and NULL after them; when it is
    not stored they answer NULL at once. *)
Theorem keyed_iterator_next_walks_on
    (self : HashIndex) (p : list byte) (it0 : hash_iterator) (m : nat) :
  valid_key self p = true ->
  exists it1,
    initIterator_key self (Some p) 1 it0 = (Ok tt, it1)
    /\ (forall r, stored self (decode self p) = Some r ->
          exists pre rest it2,
            records self = pre ++ r :: rest
            /\ call_next_n (S (length rest) + m) it1
               = (map yield (r :: rest) ++ repeat (Ok None) m, it2))
    /\ (stored self (decode self p) = None ->
          exists it2, call_next_n m it1 = (repeat (Ok None) m, it2)).
Proof.
  intros Hv. rewrite initIterator_key_positions by done.
  eexists. split; [reflexivity|]. rewrite records_values.
  destruct self as [i|i|i]; simpl; unfold positioned;
    match goal with
    | |- context [mh_get ?h ?k] =>
        fold (scan_at (mh_view h) (mh_get h k) fn_iterator_first_equal);
        pose proof (call_next_n_view h (mh_get h k) m fn_iterator_first_equal
                      (mh_get_le h k)) as [it2 Hrun];
        split;
        [ intros r Hr; destruct (values_split_at_key h k r Hr) as [Hall Hat];
          rewrite Hat in Hrun;
          exists (values (take (mh_get h k) h)), (values (drop (S (mh_get h k)) h)), it2;
          split; [by rewrite Hall, Hat | exact Hrun]
        | intros Hn; apply mh_find_None in Hn; rewrite Hn in Hrun |- *;
          unfold mh_end in Hrun; rewrite drop_all in Hrun; eauto ]
    end.
Qed.

(** The iterator over key 7 of the index that stores the records with
    keys 7 and 9: [next] answers both. *)
Lemma keyed_iterator_next_walks_on_witness :
  valid_key index_with_7_9 key_7 = true
  /\ exists it1 it2,
       initIterator_key index_with_7_9 (Some key_7) 1 allocIterator = (Ok tt, it1)
       /\ call_next_n 3 it1
          = ([yield (tuple_u32 7); yield (tuple_u32 9); Ok None], it2).
Proof.
  split; [reflexivity|].
  destruct (keyed_iterator_next_walks_on index_with_7_9 key_7 allocIterator 1
              eq_refl) as (it1 & Hinit & Hsome & _).
  destruct (Hsome (tuple_u32 7) eq_refl) as (pre & rest & it2 & Hall & Hrun).
  exists it1, it2. split; [exact Hinit|].
  vm_compute in Hall.
  destruct pre as [|x [|y pre]]; simpl in Hall.
  - injection Hall as <-. exact Hrun.
  - injection Hall as _ Hr. discriminate Hr.
  - injection Hall as _ _ Hr. destruct pre; discriminate Hr.
Defined.

End ScanSpec.

(** ** The methods of the hash indexes *)

Module IndexOpsSpec.
Import HashIndex HashIndexFacts Scan ScanFacts IndexOpsFacts Samples.

(** X3.  [findByTuple] of a hash index whose key is field [fieldno]: on a
    record without that field it raises [ClientError] with
    [ER_NO_SUCH_FIELD] and the field number; on a record with the field it
    is [find] on the field, so it answers what is stored under the key of
    the record.  After [replace] of NULL by a record it answers that
    record, and after [remove] of the record it answers NULL. *)
Theorem findByTuple_finds_by_key_field
    (self : HashIndex) (t : box_tuple) (part : key_part) :
  parts (key_def self) !! 0%nat = Some part ->
  (tuple_field t (fieldno part) = None ->
   findByTuple t self
   = (Raised (ClientError ER_NO_SUCH_FIELD (fieldno part)), self))
  /\ (forall p, tuple_field t (fieldno part) = Some p ->
                findByTuple t self = find (Some p) self)
  /\ (forall k, record_key self t = Some k ->
                findByTuple t self = (Ok (stored self k), self))
  /\ (forall k, index_wf self -> record_key self t = Some k ->
        exists s1 s2,
          replace None t self = (Ok tt, s1)
          /\ findByTuple t s1 = (Ok (Some t), s1)
          /\ remove t s1 = (Ok tt, s2)
          /\ findByTuple t s2 = (Ok None, s2)).
Proof.
  intros Hpart. split; [|split; [|split]].
  - intros Hf. unfold findByTuple. run_method. rewrite Hpart. simpl.
    by rewrite Hf.
  - intros p Hf. unfold findByTuple. run_method. rewrite Hpart. simpl.
    by rewrite Hf.
  - intros k. apply hi_find_record.
  - intros k Hwf Hk.
    pose proof (hi_insert_key self t k Hwf (record_key_class self t t k Hwf Hk))
      as (Hwf1 & Hsame1 & Hst1 & _).
    set (s1 := insert_key self k t) in *.
    assert (Hk1 : record_key s1 t = Some k)
      by (by rewrite (same_keys_record_key self s1)).
    pose proof (hi_delete_key s1 k Hwf1) as (_ & Hsame2 & Hst2 & _).
    set (s2 := delete_key s1 k) in *.
    assert (Hk2 : record_key s2 t = Some k)
      by (by rewrite (same_keys_record_key s1 s2)).
    exists s1, s2. split; [by apply hi_insert|].
    split; [rewrite (hi_find_record s1 t k Hk1), Hst1; by rewrite decide_True|].
    split; [by apply hi_remove|].
    rewrite (hi_find_record s2 t k Hk2), Hst2. by rewrite decide_True.
Qed.

Lemma findByTuple_finds_by_key_field_witness :
  parts (key_def empty32) !! 0%nat = Some {| fieldno := 0; type := NUM |}
  /\ findByTuple tuple_no_fields empty32
     = (Raised (ClientError ER_NO_SUCH_FIELD 0), empty32)
  /\ exists s1 s2,
       replace None (tuple_u32 7) empty32 = (Ok tt, s1)
       /\ findByTuple (tuple_u32 7) s1 = (Ok (Some (tuple_u32 7)), s1)
       /\ remove (tuple_u32 7) s1 = (Ok tt, s2)
       /\ findByTuple (tuple_u32 7) s2 = (Ok None, s2).
Proof.
  split; [reflexivity|].
  destruct (findByTuple_finds_by_key_field empty32 tuple_no_fields
              {| fieldno := 0; type := NUM |} eq_refl) as (Hnone & _).
  split; [exact (Hnone eq_refl)|].
  destruct (findByTuple_finds_by_key_field empty32 (tuple_u32 7)
              {| fieldno := 0; type := NUM |} eq_refl) as (_ & _ & _ & Hround).
  apply (Hround (U32 7)); [exact mh_wf_init | vm_compute; reflexivity].
Defined.

(** X4.  When the key field of the new record has not the width of the
    class, [replace] raises [IllegalParams] before it touches the table: the
    index is as it was, the old record is not deleted.  [remove] of such a
    record raises likewise and deletes nothing. *)
Theorem failed_replace_changes_nothing
    (self : HashIndex) (old : option box_tuple) (t : box_tuple) (p : list byte) :
  key_field self t = Some p -> valid_key self p = false ->
  (exists e, replace old t self = (Raised e, self) /\ is_InvalidKeyType e = true)
  /\ (exists e, remove t self = (Raised e, self) /\ is_InvalidKeyType e = true).
Proof.
  intros Hp Hv. split; [by eapply hi_replace_invalid | by eapply hi_remove_invalid].
Qed.

Lemma failed_replace_changes_nothing_witness :
  key_field index_with_7 (tuple_u64 9)
  = Some (save_varint32_small 8 ++ store_u64 9)
  /\ valid_key index_with_7 (save_varint32_small 8 ++ store_u64 9) = false
  /\ (exists e,
        replace (Some (tuple_u32 7)) (tuple_u64 9) index_with_7
        = (Raised e, index_with_7))
  /\ stored index_with_7 (U32 7) = Some (tuple_u32 7).
Proof.
  split; [reflexivity|]. split; [reflexivity|]. split; [|reflexivity].
  destruct (failed_replace_changes_nothing index_with_7 (Some (tuple_u32 7))
              (tuple_u64 9) (save_varint32_small 8 ++ store_u64 9)
              eq_refl eq_refl) as [(e & Hrun & _) _].
  exists e. exact Hrun.
Defined.

(** X5.  [replace] does not check the width of the key field of the old
    record.  With an old record whose key field the index would not accept
    as a key, [remove] raises [IllegalParams], but [replace] returns: it
    deletes what is stored under the integer it reads in the first bytes of
    that field, then puts the new record. *)
Theorem replace_reads_old_key_unchecked
    (self : HashIndex) (old new : box_tuple) (p_old : list byte) (k_new : hkey) :
  key_field self old = Some p_old -> valid_key self p_old = false ->
  record_key self new = Some k_new ->
  (exists e, remove old self = (Raised e, self) /\ is_InvalidKeyType e = true)
  /\ replace (Some old) new self
     = (Ok tt, insert_key (delete_key self (decode self p_old)) k_new new).
Proof.
  intros Hold Hv Hnew. split; [by eapply hi_remove_invalid|].
  by apply hi_replace_old_any_width.
Qed.

Lemma replace_reads_old_key_unchecked_witness :
  key_field index_with_7 tuple_wide_7
  = Some (save_varint32_small 5 ++ store_u32 7 ++ [x00])
  /\ valid_key index_with_7 (save_varint32_small 5 ++ store_u32 7 ++ [x00]) = false
  /\ record_key index_with_7 (tuple_u32 9) = Some (U32 9)
  /\ stored index_with_7 (U32 7) = Some (tuple_u32 7)
  /\ exists self',
       replace (Some tuple_wide_7) (tuple_u32 9) index_with_7 = (Ok tt, self')
       /\ stored self' (U32 7) = None
       /\ stored self' (U32 9) = Some (tuple_u32 9).
Proof.
  split; [reflexivity|]. split; [reflexivity|]. split; [reflexivity|].
  split; [reflexivity|].
  destruct (replace_reads_old_key_unchecked index_with_7 tuple_wide_7 (tuple_u32 9)
              (save_varint32_small 5 ++ store_u32 7 ++ [x00]) (U32 9)
              eq_refl eq_refl eq_refl) as [_ Hrun].
  eexists. split; [exact Hrun|]. split; reflexivity.
Defined.

(** X6.  [enable] returns for every hash index; it marks the index
    enabled and gives it a new, empty table, whatever it held: afterwards
    [size] answers 0, nothing is stored under any key, [find] answers NULL
    for every key of the width of the class, and the key definition is what
    it was. *)
Theorem enable_gives_an_empty_table (self : HashIndex) :
  exists self',
    enable self = (Ok tt, self')
    /\ is_enabled self' = true
    /\ key_def self' = key_def self
    /\ index_wf self'
    /\ size self' = (Ok 0%nat, self')
    /\ records self' = []
    /\ (forall k, stored self' k = None)
    /\ (forall p, valid_key self p = true -> find (Some p) self' = (Ok None, self')).
Proof.
  destruct self as [i|i|i]; eexists; (split; [reflexivity|]);
    (split; [reflexivity|]); (split; [reflexivity|]);
    (split; [apply mh_wf_init|]); (split; [reflexivity|]);
    (split; [reflexivity|]); (split; [by intros [n|n|s]|]); intros p Hv.
  - match goal with |- find _ ?s = _ => exact (hi_find_valid s p Hv) end.
  - match goal with |- find _ ?s = _ => exact (hi_find_valid s p Hv) end.
  - match goal with |- find _ ?s = _ => exact (hi_find_valid s p Hv) end.
Qed.

(** X7.  A keyed [initIterator] of the 32-bit or the 64-bit index with a
    key of another width raises [IllegalParams] and leaves the iterator
    where it was: its table, its position and its [next_equal] are
    unchanged, so a later call goes on with the earlier sequence. *)
Theorem failed_initIterator_keeps_position
    (self : HashIndex) (p : list byte) (it : hash_iterator) :
  valid_key self p = false ->
  exists e it',
    initIterator_key self (Some p) 1 it = (Raised e, it')
    /\ is_InvalidKeyType e = true
    /\ Iterator.hash it' = Iterator.hash it
    /\ h_pos it' = h_pos it
    /\ next_equal (base it') = next_equal (base it)
    /\ next (base it') = fn_hash_iterator_next.
Proof.
  intros Hv. destruct self as [i|i|i]; simpl in *; [| |discriminate];
    case_bool_decide as Hw; try discriminate;
    [unfold Hash32.initIterator_key | unfold Hash64.initIterator_key];
    unfold assert_next; run_method;
    destruct (load_varint32 p) as [sz q]; simpl in *;
    rewrite decide_True by done; do 2 eexists; (split; [reflexivity|]); done.
Qed.

Lemma failed_initIterator_keeps_position_witness :
  valid_key index_with_7 (save_varint32_small 8 ++ store_u64 9) = false
  /\ exists e it',
       initIterator_key index_with_7 (Some (save_varint32_small 8 ++ store_u64 9)) 1
         allocIterator = (Raised e, it')
       /\ h_pos it' = 0%nat.
Proof.
  split; [reflexivity|].
  destruct (failed_initIterator_keeps_position index_with_7
              (save_varint32_small 8 ++ store_u64 9) allocIterator eq_refl)
    as (e & it' & Hrun & _ & _ & Hpos & _).
  exists e, it'. split; [exact Hrun | exact Hpos].
Defined.

(** X8.  [find], [findByTuple] and [size] never change the index, however
    they end; [min] and [max] of a hash index always raise [ClientError]
    with [ER_UNSUPPORTED] and change nothing. *)
Theorem lookups_leave_the_index
    (self : HashIndex) (key : option (list byte)) (t : box_tuple) :
  (find key self).2 = self
  /\ (findByTuple t self).2 = self
  /\ size self = (Ok (count self), self)
  /\ min self = (Raised (ClientError ER_UNSUPPORTED 0), self)
  /\ max self = (Raised (ClientError ER_UNSUPPORTED 0), self).
Proof.
  assert (Hfind : forall key, (find key self).2 = self).
  { intros [p|]; [|by destruct self].
    destruct (valid_key self p) eqn:Hv.
    - by rewrite hi_find_valid.
    - by destruct (hi_find_invalid self p Hv) as (e & -> & _). }
  split; [apply Hfind|]. split; [|split; [apply size_count|done]].
  unfold findByTuple. run_method.
  destruct (parts (key_def self) !! 0%nat) as [part|]; [|done]. simpl.
  destruct (tuple_field t (fieldno part)) as [p|]; [apply Hfind | done].
Qed.

(** X9.  For an index whose table holds no key twice and a record with a
    key: [remove] twice is [remove] once, [replace] of NULL by the record
    twice is once; and [remove] after [replace] of NULL by the record leaves
    nothing under the key of the record and every other key as it was, so
    that an index that did not hold the key stores what it did before and
    [size] answers what it did. *)
Theorem remove_undoes_insert (self : HashIndex) (r : box_tuple) (k : hkey) :
  index_wf self -> record_key self r = Some k ->
  (do_ remove r; remove r) self = remove r self
  /\ (do_ replace None r; replace None r) self = replace None r self
  /\ exists s1 s2,
       replace None r self = (Ok tt, s1)
       /\ remove r s1 = (Ok tt, s2)
       /\ (forall k', stored s2 k' = if decide (k' = k) then None else stored self k')
       /\ (stored self k = None ->
           (forall k', stored s2 k' = stored self k') /\ count s2 = count self).
Proof.
  intros Hwf Hk.
  pose proof (hi_delete_key self k Hwf) as (Hwfd & Hsamed & Hstd & _ & _).
  pose proof (hi_insert_key self r k Hwf (record_key_class self r r k Hwf Hk))
    as (Hwf1 & Hsame1 & Hst1 & Hc1).
  set (s1 := insert_key self k r) in *.
  assert (Hk1 : record_key s1 r = Some k)
    by (by rewrite (same_keys_record_key self s1)).
  pose proof (hi_delete_key s1 k Hwf1) as (_ & _ & Hst2 & Hc2 & _).
  split; [|split].
  - unfold bind. rewrite (hi_remove self r k Hk).
    rewrite (hi_remove (delete_key self k) r k)
      by (by rewrite (same_keys_record_key self (delete_key self k))).
    f_equal.
    destruct (hi_delete_key (delete_key self k) k Hwfd) as (_ & _ & _ & _ & Hid).
    apply Hid. rewrite Hstd. by rewrite decide_True.
  - unfold bind. rewrite (hi_insert self r k Hk). fold s1.
    rewrite (hi_insert s1 r k Hk1). f_equal. by apply hi_insert_twice.
  - exists s1, (delete_key s1 k). split; [by apply hi_insert|].
    split; [by apply hi_remove|]. split.
    + intros k'. rewrite Hst2, Hst1. by case_decide.
    + intros Hn. split.
      * intros k'. rewrite Hst2, Hst1. case_decide; [by subst k'|done].
      * rewrite Hst1, decide_True in Hc2 by done. rewrite Hn in Hc1. lia.
Qed.

Lemma remove_undoes_insert_witness :
  index_wf index_with_7
  /\ record_key index_with_7 (tuple_u32 9) = Some (U32 9)
  /\ exists s1 s2,
       replace None (tuple_u32 9) index_with_7 = (Ok tt, s1)
       /\ remove (tuple_u32 9) s1 = (Ok tt, s2)
       /\ stored s2 (U32 7) = Some (tuple_u32 7)
       /\ stored s2 (U32 9) = None
       /\ count s2 = 1%nat.
Proof.
  assert (Hwf : index_wf index_with_7).
  { apply (mh_wf_put (K := Z)). exact mh_wf_init. }
  split; [exact Hwf|]. split; [reflexivity|].
  destruct (remove_undoes_insert index_with_7 (tuple_u32 9) (U32 9) Hwf eq_refl)
    as (_ & _ & s1 & s2 & Hins & Hrem & Hst & Hsame).
  exists s1, s2. split; [exact Hins|]. split; [exact Hrem|].
  destruct (Hsame eq_refl) as [Hall Hc].
  split; [exact (Hall (U32 7))|]. split; [exact (Hall (U32 9)) | exact Hc].
Defined.

(** X10.  The last write wins: for an index whose table holds no key
    twice and two records with the same key, after [replace] of NULL by the
    first and then by the second the index stores the second under the key
    and no other record, [size] answers what it did after the first, and
    every other key stores what it did. *)
Theorem second_insert_overwrites (self : HashIndex) (r1 r2 : box_tuple) (k : hkey) :
  index_wf self -> record_key self r1 = Some k -> record_key self r2 = Some k ->
  exists s1 s2,
    replace None r1 self = (Ok tt, s1)
    /\ replace None r2 s1 = (Ok tt, s2)
    /\ stored s2 k = Some r2
    /\ count s2 = count s1
    /\ (forall r, (k, r) ∈ entries s2 <-> r = r2)
    /\ (forall k', k' <> k -> stored s2 k' = stored self k').
Proof.
  intros Hwf Hk1 Hk2.
  pose proof (hi_insert_key self r1 k Hwf (record_key_class self r1 r1 k Hwf Hk1))
    as (Hwf1 & Hsame1 & Hst1 & _).
  set (s1 := insert_key self k r1) in *.
  assert (Hk2' : record_key s1 r2 = Some k)
    by (by rewrite (same_keys_record_key self s1)).
  pose proof (hi_insert_key s1 r2 k Hwf1 (record_key_class s1 r2 r2 k Hwf1 Hk2'))
    as (Hwf2 & _ & Hst2 & Hc2).
  exists s1, (insert_key s1 k r2). split; [by apply hi_insert|].
  split; [by apply hi_insert|].
  split; [rewrite Hst2; by rewrite decide_True|].
  split; [rewrite Hc2, Hst1; by rewrite decide_True|]. split.
  - intros r. rewrite elem_of_entries by done. rewrite Hst2.
    rewrite decide_True by done. split; [by intros [= ->] | by intros ->].
  - intros k' Hne. rewrite Hst2, Hst1. by rewrite !decide_False.
Qed.

Lemma second_insert_overwrites_witness :
  index_wf emptystr
  /\ exists r1 r2 k s2,
       record_key emptystr r1 = Some k /\ record_key emptystr r2 = Some k
       /\ r1 <> r2
       /\ (do_ replace None r1; replace None r2) emptystr = (Ok tt, s2)
       /\ records s2 = [r2].
Proof.
  split; [exact mh_wf_init|].
  exists {| cardinality := 1; data := save_varint32_small 1 ++ [x61] |},
         {| cardinality := 2; data := save_varint32_small 1 ++ [x61]
                                      ++ save_varint32_small 0 |},
         (LStr [x61]).
  destruct (second_insert_overwrites emptystr
              {| cardinality := 1; data := save_varint32_small 1 ++ [x61] |}
              {| cardinality := 2; data := save_varint32_small 1 ++ [x61]
                                           ++ save_varint32_small 0 |}
              (LStr [x61]) mh_wf_init eq_refl eq_refl)
    as (s1 & s2 & H1 & H2 & _).
  exists s2. split; [reflexivity|]. split; [reflexivity|].
  split; [discriminate|].
  unfold bind. rewrite H1, H2. split; [reflexivity|].
  vm_compute in H1. injection H1 as <-. vm_compute in H2. injection H2 as <-.
  reflexivity.
Defined.

(** X11.  A record without the key field: [remove] dereferences the NULL
    that [tuple_field] answers, for each class; so does [replace] of the
    32-bit and of the 64-bit index, while [replace] of the string index
    raises [ClientError] with [ER_NO_SUCH_FIELD] and leaves the index as it
    was. *)
Theorem record_without_key_field
    (self : HashIndex) (old : option box_tuple) (t : box_tuple) (part : key_part) :
  parts (key_def self) !! 0%nat = Some part ->
  tuple_field t (fieldno part) = None ->
  remove t self = (Fault, self)
  /\ replace old t self
     = (match self with
        | OfHashStr _ => Raised (ClientError ER_NO_SUCH_FIELD (fieldno part))
        | _ => Fault
        end, self).
Proof.
  intros Hpart Hf. destruct self as [i|i|i]; simpl in *.
  - unfold Hash32.remove, Hash32.replace. run_method. rewrite Hpart. simpl.
    rewrite Hf. done.
  - unfold Hash64.remove, Hash64.replace. run_method. rewrite Hpart. simpl.
    rewrite Hf. done.
  - unfold HashStr.remove, HashStr.replace, HashStr.mh_lstrptr_get. run_method.
    rewrite Hpart. simpl. rewrite Hf. done.
Qed.

Lemma record_without_key_field_witness :
  parts (key_def index_with_7) !! 0%nat = Some {| fieldno := 0; type := NUM |}
  /\ tuple_field tuple_no_fields 0 = None
  /\ remove tuple_no_fields index_with_7 = (Fault, index_with_7)
  /\ replace None tuple_no_fields emptystr
     = (Raised (ClientError ER_NO_SUCH_FIELD 0), emptystr).
Proof.
  split; [reflexivity|]. split; [reflexivity|]. split.
  - apply (record_without_key_field index_with_7 None tuple_no_fields
             {| fieldno := 0; type := NUM |} eq_refl eq_refl).
  - apply (record_without_key_field emptystr None tuple_no_fields
             {| fieldno := 0; type := STRING |} eq_refl eq_refl).
Defined.

End IndexOpsSpec.

(** ** The records and the size of an index through its changes *)

Module MutationSpec.
Import HashIndex HashIndexFacts Scan ScanFacts MutationFacts Samples.

(** X12.  The records that the walk of an index yields follow its
    changes, in whatever order the table holds them.  For an index whose
    table holds no key twice and a record with a key: when nothing is
    stored under the key, [replace] of NULL by the record adds the record
    to the records of the index, and [remove] leaves the index as it is;
    when a record is stored under the key, [replace] exchanges that record
    for the new one, and [remove] takes it out; the other records stay. *)
Theorem walk_follows_replace_and_remove (self : HashIndex) (r : box_tuple) (k : hkey) :
  index_wf self -> record_key self r = Some k ->
  exists s1 s2,
    replace None r self = (Ok tt, s1)
    /\ remove r self = (Ok tt, s2)
    /\ (stored self k = None ->
        records s1 ≡ₚ r :: records self /\ s2 = self)
    /\ (forall r0, stored self k = Some r0 ->
          r0 :: records s1 ≡ₚ r :: records self
          /\ records self ≡ₚ r0 :: records s2).
Proof.
  intros Hwf Hk.
  exists (insert_key self k r), (delete_key self k).
  split; [by apply hi_insert|]. split; [by apply hi_remove|]. split.
  - intros Hn. split.
    + apply records_insert_fresh; [by eapply record_key_class | done].
    + destruct (hi_delete_key self k Hwf) as (_ & _ & _ & _ & Hid).
      by apply Hid.
  - intros r0 Hs.
    destruct (records_at_key self k r r0 Hwf Hs) as (pre & post & -> & -> & ->).
    split.
    + rewrite <- !Permutation_middle. apply perm_swap.
    + by rewrite <- Permutation_middle.
Qed.

(** The record with key 9 put into the index that stores the record with
    key 7; and, in the index that stores the records with keys 7 and 9,
    the record with key 7 exchanged for another, and taken out. *)
Lemma walk_follows_replace_and_remove_witness :
  index_wf index_with_7
  /\ record_key index_with_7 (tuple_u32 9) = Some (U32 9)
  /\ index_wf index_with_7_9
  /\ record_key index_with_7_9 tuple_u32_7_more = Some (U32 7)
  /\ (exists s1,
        replace None (tuple_u32 9) index_with_7 = (Ok tt, s1)
        /\ records s1 ≡ₚ [tuple_u32 9; tuple_u32 7])
  /\ (exists s1 s2,
        replace None tuple_u32_7_more index_with_7_9 = (Ok tt, s1)
        /\ remove tuple_u32_7_more index_with_7_9 = (Ok tt, s2)
        /\ records s1 ≡ₚ [tuple_u32_7_more; tuple_u32 9]
        /\ records s2 ≡ₚ [tuple_u32 9]).
Proof.
  assert (Hwf : index_wf index_with_7).
  { apply (mh_wf_put (K := Z)). exact mh_wf_init. }
  assert (Hwf' : index_wf index_with_7_9).
  { apply (mh_wf_put (K := Z)). exact Hwf. }
  split; [exact Hwf|]. split; [reflexivity|].
  split; [exact Hwf'|]. split; [reflexivity|]. split.
  - destruct (walk_follows_replace_and_remove index_with_7 (tuple_u32 9) (U32 9)
                Hwf eq_refl) as (s1 & s2 & Hins & _ & Hfresh & _).
    exists s1. split; [exact Hins|]. exact (proj1 (Hfresh eq_refl)).
  - destruct (walk_follows_replace_and_remove index_with_7_9 tuple_u32_7_more
                (U32 7) Hwf' eq_refl) as (s1 & s2 & Hins & Hrem & _ & Hover).
    destruct (Hover (tuple_u32 7) eq_refl) as [H1 H2].
    exists s1, s2. split; [exact Hins|]. split; [exact Hrem|]. split.
    + apply (Permutation_cons_inv (a := tuple_u32 7)).
      rewrite H1. apply perm_swap.
    + apply (Permutation_cons_inv (a := tuple_u32 7)). symmetry. exact H2.
Defined.

(** X13.  The size of an index through [replace], for an index whose
    table holds no key twice, a new record with a key and an old record
    that is NULL or has a key.  With [mid] the index after [remove] of the
    old record (the index itself when the old record is NULL), [size]
    before the call is one more than in [mid] when a record was stored
    under the key of the old record, and [size] after the call is one more
    than in [mid] when [mid] stores no record under the key of the new
    record; otherwise they are as in [mid]. *)
Theorem replace_accounts_for_size
    (self : HashIndex) (old : option box_tuple) (new : box_tuple) (k_new : hkey) :
  index_wf self ->
  record_key self new = Some k_new ->
  (forall o, old = Some o -> is_Some (record_key self o)) ->
  exists mid self',
    match old with Some o => remove o self | None => (Ok tt, self) end = (Ok tt, mid)
    /\ replace old new self = (Ok tt, self')
    /\ count self = match (old ≫= record_key self) ≫= stored self with
                    | Some _ => S (count mid)
                    | None => count mid
                    end
    /\ count self' = match stored mid k_new with
                     | Some _ => count mid
                     | None => S (count mid)
                     end.
Proof.
  intros Hwf Hnew Hold. destruct old as [o|]; simpl.
  - destruct (Hold o eq_refl) as [ko Hko]. rewrite Hko. simpl.
    pose proof (hi_delete_key self ko Hwf) as (Hwf1 & Hsame1 & _ & Hc1 & _).
    set (mid := delete_key self ko) in *.
    assert (Hnew1 : record_key mid new = Some k_new)
      by (by rewrite (same_keys_record_key self mid)).
    pose proof (hi_insert_key mid new k_new Hwf1
                  (record_key_class mid new new k_new Hwf1 Hnew1))
      as (_ & _ & _ & Hc2).
    exists mid, (insert_key mid k_new new).
    split; [by apply hi_remove|]. split; [|done].
    rewrite hi_replace_split by eauto. unfold bind.
    rewrite (hi_remove self o ko Hko). by apply hi_insert.
  - pose proof (hi_insert_key self new k_new Hwf
                  (record_key_class self new new k_new Hwf Hnew))
      as (_ & _ & _ & Hc2).
    exists self, (insert_key self k_new new). split; [done|].
    split; [by apply hi_insert|]. done.
Qed.

Lemma replace_accounts_for_size_witness :
  index_wf index_with_7
  /\ record_key index_with_7 (tuple_u32 9) = Some (U32 9)
  /\ exists self',
       replace (Some (tuple_u32 7)) (tuple_u32 9) index_with_7 = (Ok tt, self')
       /\ count self' = 1%nat.
Proof.
  assert (Hwf : index_wf index_with_7).
  { apply (mh_wf_put (K := Z)). exact mh_wf_init. }
  split; [exact Hwf|]. split; [reflexivity|].
  destruct (replace_accounts_for_size index_with_7 (Some (tuple_u32 7))
              (tuple_u32 9) (U32 9) Hwf eq_refl)
    as (mid & self' & Hmid & Hrun & _ & Hc).
  - intros o [= <-]. by exists (U32 7).
  - exists self'. split; [exact Hrun|].
    vm_compute in Hmid. injection Hmid as <-. exact Hc.
Defined.

End MutationSpec.

(** ** The tuple dictionary *)

Module PrefixSpec.
Import Assoc TupleDictionary DictionaryOrder TupleDictionaryFacts PrefixFacts Samples.

Section Spec.
Context `{fnh : FieldNameHash}.

(** X14.  [tuple_dictionary_new_impl] reads the first [name_count] names
    of the array and no other: with a count that is not more than the
    entries of the array the call is the call on the first [name_count]
    names, so that a name after them is never found to be a duplicate;
    with a count that is more it reads past the array. *)
Theorem tuple_dictionary_new_reads_name_count_names
    (name_data : list (list byte)) (name_count : nat) (diag : diag_t) :
  ((name_count <= length name_data)%nat ->
   tuple_dictionary_new_impl name_data name_count diag
   = tuple_dictionary_new_impl (take name_count name_data) name_count diag)
  /\ ((length name_data < name_count)%nat ->
      tuple_dictionary_new_impl name_data name_count diag = (Fault, diag)).
Proof.
  unfold tuple_dictionary_new_impl. split; intros Hn.
  - case_decide; [reflexivity|]. unfold bind.
    rewrite reserve_loop_take by lia.
    destruct (reserve_loop name_data name_count 0 diag) as [[[]| |] diag1];
      try reflexivity.
    by rewrite set_names_loop_take by lia.
  - rewrite decide_False by lia. unfold bind.
    by rewrite reserve_loop_past by lia.
Qed.

End Spec.
End PrefixSpec.

Module DictionaryMoreSpec.
Import Assoc TupleDictionary DictionaryOrder TupleDictionaryFacts DictionaryOrderFacts.
Import HeapFacts DictionaryCopyFacts DictionaryHeapFacts DictionaryHashFacts Samples.

Section Spec.
Context `{fnh : FieldNameHash}.

(** X15.  [tuple_dictionary_dup] of a dictionary that
    [tuple_dictionary_new_impl] made, whatever its reference count by now,
    returns and sets no error; the copy is the dictionary as it was made,
    with the same names, the same hash and the reference count 1, and the
    two compare equal. *)
Theorem tuple_dictionary_dup_copies
    (name_data : list (list byte)) (diag diag1 : diag_t) (d : tuple_dictionary)
    (r : Z) :
  (tuple_dictionary_new_impl name_data (length name_data) diag).1 = Ok (Some d) ->
  tuple_dictionary_dup (set_refs r d) diag1 = (Ok (Some d), diag1)
  /\ refs d = 1
  /\ tuple_dictionary_cmp (set_refs r d) d = Some 0
  /\ tuple_dictionary_cmp d (set_refs r d) = Some 0.
Proof.
  intros Hrun.
  destruct (new_impl_inv name_data diag d Hrun) as (_ & Hn & Hr & Hc & Hwf & Hnames).
  split; [|split; [done|]].
  - unfold tuple_dictionary_dup. simpl. rewrite Hnames, Hn, new_impl_cstr.
    by eapply new_impl_any_diag.
  - assert (Hwf' : dict_wf (set_refs r d)) by done.
    split; apply cmp_zero; done.
Qed.

(** X16.  Two dictionaries that [tuple_dictionary_new] made compare equal
    exactly when the fields have the same names, as C strings and in order;
    and then they are the same dictionary, hash included, so that every
    lookup answers the same in both. *)
Theorem equal_dictionaries_are_the_same
    (fields fields' : list field_def) (diag diag' : diag_t)
    (d d' : tuple_dictionary) :
  (tuple_dictionary_new fields (length fields) diag).1 = Ok (Some d) ->
  (tuple_dictionary_new fields' (length fields') diag').1 = Ok (Some d') ->
  (tuple_dictionary_cmp d d' = Some 0
   <-> map (fun f => cstr (name f)) fields = map (fun f => cstr (name f)) fields')
  /\ (tuple_dictionary_cmp d d' = Some 0 <-> d = d')
  /\ (tuple_dictionary_cmp d d' = Some 0 ->
      forall nm name_len name_hash fieldno,
        tuple_fieldno_by_name d nm name_len name_hash fieldno
        = tuple_fieldno_by_name d' nm name_len name_hash fieldno).
Proof.
  unfold tuple_dictionary_new. intros Hd Hd'.
  rewrite <- (length_map name fields) in Hd.
  rewrite <- (length_map name fields') in Hd'.
  destruct (new_impl_inv _ _ _ Hd) as (_ & Hn & _ & Hc & Hwf & _).
  destruct (new_impl_inv _ _ _ Hd') as (_ & Hn' & _ & Hc' & Hwf' & _).
  assert (Hnames : tuple_dictionary_cmp d d' = Some 0
                   <-> map cstr (map name fields) = map cstr (map name fields')).
  { rewrite cmp_zero by done. rewrite Hc, Hc', !map_cstr_idemp, Hn, Hn'. split.
    - by intros [_ ?].
    - intros Heq. split; [|done].
      apply (f_equal length) in Heq. rewrite !length_map in Heq. rewrite !length_map. done. }
  assert (Hsame : map cstr (map name fields) = map cstr (map name fields') -> d = d').
  { intros Heq.
    apply (new_impl_any_diag _ _ _ _ diag) in Hd, Hd'.
    rewrite <- new_impl_cstr in Hd, Hd'.
    assert (length (map name fields) = length (map name fields')) as Hlen.
    { apply (f_equal length) in Heq. by rewrite !(length_map cstr) in Heq. }
    rewrite Heq, Hlen, Hd' in Hd. by injection Hd as ->. }
  split; [|split].
  - rewrite Hnames, !map_map. reflexivity.
  - split; [by intros ?%Hnames%Hsame|]. intros <-. by apply cmp_refl.
  - intros ?%Hnames%Hsame. by subst d'.
Qed.

End Spec.

(** The dictionary of a and b, held three times by now, and its copy. *)
Lemma tuple_dictionary_dup_copies_witness :
  (tuple_dictionary_new_impl (map cs ["a"; "b"]) 2 diag_empty).1
  = Ok (Some (dict_of ["a"; "b"]))
  /\ tuple_dictionary_dup (set_refs 3 (dict_of ["a"; "b"])) diag_empty
     = (Ok (Some (dict_of ["a"; "b"])), diag_empty)
  /\ refs (dict_of ["a"; "b"]) = 1.
Proof.
  assert (Hnew : (tuple_dictionary_new_impl (map cs ["a"; "b"])
                    (length (map cs ["a"; "b"])) diag_empty).1
                 = Ok (Some (dict_of ["a"; "b"]))) by reflexivity.
  split; [exact Hnew|].
  destruct (tuple_dictionary_dup_copies (map cs ["a"; "b"]) diag_empty diag_empty
              (dict_of ["a"; "b"]) 3 Hnew) as (Hdup & Hrefs & _).
  split; [exact Hdup | exact Hrefs].
Defined.

(** A field named a, and a field whose name is followed in memory by other
    bytes: the dictionaries are the same. *)
Lemma equal_dictionaries_are_the_same_witness :
  (tuple_dictionary_new [ {| name := cs "a" |} ] 1 diag_empty).1
  = Ok (Some (dict_of ["a"]))
  /\ (tuple_dictionary_new [ {| name := cs "a" ++ [x00; x62] |} ] 1 diag_empty).1
     = Ok (Some (dict_of ["a"]))
  /\ tuple_dictionary_cmp (dict_of ["a"]) (dict_of ["a"]) = Some 0.
Proof.
  assert (H1 : (tuple_dictionary_new [ {| name := cs "a" |} ]
                  (length [ {| name := cs "a" |} ]) diag_empty).1
               = Ok (Some (dict_of ["a"]))) by reflexivity.
  assert (H2 : (tuple_dictionary_new [ {| name := cs "a" ++ [x00; x62] |} ]
                  (length [ {| name := cs "a" ++ [x00; x62] |} ]) diag_empty).1
               = Ok (Some (dict_of ["a"]))) by reflexivity.
  split; [exact H1|]. split; [exact H2|].
  destruct (equal_dictionaries_are_the_same _ _ _ _ _ _ H1 H2) as (_ & Hsame & _).
  apply Hsame. reflexivity.
Defined.

(** X17.  For two dictionaries in the heap, [tuple_dictionary_swap] twice
    leaves the heap as it was; the order of the two arguments does not
    matter; and a dictionary swapped with itself is unchanged. *)
Theorem tuple_dictionary_swap_twice
    (heap : gmap nat tuple_dictionary) (a b : nat) (da db : tuple_dictionary) :
  heap !! a = Some da -> heap !! b = Some db ->
  (do_ tuple_dictionary_swap a b; tuple_dictionary_swap a b) heap = (Ok tt, heap)
  /\ tuple_dictionary_swap b a heap = tuple_dictionary_swap a b heap
  /\ (a = b -> tuple_dictionary_swap a b heap = (Ok tt, heap)).
Proof.
  intros Ha Hb.
  destruct (swap_lookup heap a b da db Ha Hb) as (h1 & Hrun1 & Ha1 & Hb1 & Hc1).
  destruct (swap_lookup h1 a b _ _ Ha1 Hb1) as (h2 & Hrun2 & Ha2 & Hb2 & Hc2).
  destruct (swap_lookup heap b a db da Hb Ha) as (h3 & Hrun3 & Hb3 & Ha3 & Hc3).
  split; [|split].
  - unfold bind. rewrite Hrun1, Hrun2. f_equal. apply map_eq. intros c.
    destruct (decide (c = a)) as [->|Hca]; [|destruct (decide (c = b)) as [->|Hcb]].
    + rewrite Ha2, Ha. by destruct da.
    + rewrite Hb2, Hb. by destruct db.
    + rewrite Hc2, Hc1 by done. done.
  - rewrite Hrun1, Hrun3. f_equal. apply map_eq. intros c.
    destruct (decide (c = a)) as [->|Hca]; [|destruct (decide (c = b)) as [->|Hcb]].
    + by rewrite Ha1, Ha3.
    + by rewrite Hb1, Hb3.
    + rewrite Hc1, Hc3 by done. done.
  - intros ->. rewrite Ha in Hb. injection Hb as <-.
    rewrite Hrun1. f_equal. apply map_eq. intros c.
    destruct (decide (c = b)) as [->|Hcb].
    + rewrite Ha1, Ha. by destruct da.
    + by rewrite Hc1.
Qed.

Lemma tuple_dictionary_swap_twice_witness :
  heap0 !! 1%nat = Some (set_refs 3 (dict_of ["a"]))
  /\ heap0 !! 2%nat = Some (dict_of ["a"; "b"])
  /\ (do_ tuple_dictionary_swap 1 2; tuple_dictionary_swap 1 2) heap0 = (Ok tt, heap0).
Proof.
  assert (H1 : heap0 !! 1%nat = Some (set_refs 3 (dict_of ["a"]))) by reflexivity.
  assert (H2 : heap0 !! 2%nat = Some (dict_of ["a"; "b"])) by reflexivity.
  split; [exact H1|]. split; [exact H2|].
  exact (proj1 (tuple_dictionary_swap_twice heap0 1 2 _ _ H1 H2)).
Defined.

(** X18.  Reference counting of a dictionary in the heap.
    [tuple_dictionary_ref] adds one to its count and changes nothing else.
    [tuple_dictionary_unref] of a dictionary held more than once takes one
    off and keeps it; of a dictionary held once it frees it, the other
    dictionaries staying; of a dictionary whose count is not positive it
    fails the assertion.  So [tuple_dictionary_unref] after
    [tuple_dictionary_ref] on a dictionary that is held leaves the heap as it
    was. *)
Theorem tuple_dictionary_unref_frees_last
    (heap : gmap nat tuple_dictionary) (a : nat) (d : tuple_dictionary) :
  heap !! a = Some d ->
  (refs d < INT_MAX ->
   tuple_dictionary_ref a heap = (Ok tt, <[a := set_refs (refs d + 1) d]> heap))
  /\ (1 < refs d ->
      tuple_dictionary_unref a heap = (Ok tt, <[a := set_refs (refs d - 1) d]> heap))
  /\ (refs d = 1 -> (hash d = None -> names d = None) ->
      tuple_dictionary_unref a heap = (Ok tt, delete a heap))
  /\ (refs d <= 0 -> (tuple_dictionary_unref a heap).1 = Fault)
  /\ (0 < refs d < INT_MAX ->
      (do_ tuple_dictionary_ref a; tuple_dictionary_unref a) heap = (Ok tt, heap)).
Proof.
  intros Ha.
  assert (Href : refs d < INT_MAX ->
                 tuple_dictionary_ref a heap
                 = (Ok tt, <[a := set_refs (refs d + 1) d]> heap)).
  { intros Hr. unfold tuple_dictionary_ref. heap_step.
    rewrite decide_False by lia. by eapply store_eq. }
  assert (Hunref : forall heap d, heap !! a = Some d -> 1 < refs d ->
                   tuple_dictionary_unref a heap
                   = (Ok tt, <[a := set_refs (refs d - 1) d]> heap)).
  { intros heap1 d1 Ha1 Hr. unfold tuple_dictionary_unref, assert. heap_step.
    rewrite bool_decide_true by lia. unfold bind at 1. unfold ret at 1.
    heap_step. rewrite decide_False by lia. reflexivity. }
  split; [done|]. split; [by apply Hunref|]. split; [|split].
  - intros Hr Hnames. unfold tuple_dictionary_unref, assert. heap_step.
    rewrite bool_decide_true by lia. unfold bind at 1. unfold ret at 1.
    heap_step. rewrite decide_True by lia.
    unfold tuple_dictionary_delete, assert. heap_step. simpl.
    rewrite bool_decide_true by lia. unfold bind at 1. unfold ret at 1.
    destruct (hash d) as [h|].
    + unfold bind, ret, modify. by rewrite delete_insert_eq.
    + rewrite Hnames by done. simpl. unfold bind, ret, modify.
      by rewrite delete_insert_eq.
  - intros Hr. unfold tuple_dictionary_unref, assert. heap_step.
    rewrite bool_decide_false by lia. reflexivity.
  - intros Hr. unfold bind at 1. rewrite Href by lia.
    rewrite (Hunref _ (set_refs (refs d + 1) d)) by (simplify_map_eq; done || lia).
    f_equal. rewrite insert_insert_eq. apply insert_id. rewrite Ha. f_equal.
    destruct d as [dh dn dc dr]. unfold set_refs. simpl. f_equal. lia.
Qed.

Lemma tuple_dictionary_unref_frees_last_witness :
  heap0 !! 2%nat = Some (dict_of ["a"; "b"])
  /\ tuple_dictionary_unref 2 heap0 = (Ok tt, delete 2%nat heap0)
  /\ (do_ tuple_dictionary_ref 2; tuple_dictionary_unref 2) heap0 = (Ok tt, heap0).
Proof.
  assert (H2 : heap0 !! 2%nat = Some (dict_of ["a"; "b"])) by reflexivity.
  split; [exact H2|].
  destruct (tuple_dictionary_unref_frees_last heap0 2 _ H2)
    as (_ & _ & Hlast & _ & Hround).
  split.
  - apply Hlast; [reflexivity | discriminate].
  - apply Hround. vm_compute. split; reflexivity.
Defined.

Section Process.
Context `{pmh : PMurHash}.

(** X19.  For a dictionary whose array of names has [name_count] entries,
    [tuple_dictionary_hash_process] returns the sum of the lengths of the
    names, modulo 2^32, and has taken the hash state through the names in
    declared order, each with its length; for a dictionary without names
    it returns 0 and the hash state is what it was. *)
Theorem hash_process_adds_name_lengths (d : tuple_dictionary) (st : Z * Z) :
  dict_wf d ->
  tuple_dictionary_hash_process d st
  = (Ok (foldr (fun nm acc => Z.of_nat (strlen nm) + acc) 0 (cnames d) mod 2 ^ 32),
     foldl (fun st nm => PMurHash32_Process st nm (Z.of_nat (strlen nm) mod 2 ^ 32))
       st (cnames d))
  /\ (name_count d = 0%nat -> tuple_dictionary_hash_process d st = (Ok 0, st)).
Proof.
  intros Hwf. unfold dict_wf, cnames in *. unfold tuple_dictionary_hash_process.
  destruct (names d) as [ns|] eqn:Hns.
  - split.
    + rewrite (hash_process_loop_spec d ns) by (done || lia). rewrite drop_0.
      reflexivity.
    + intros Hz. rewrite Hz. reflexivity.
  - rewrite Hwf. simpl. split; [reflexivity | done].
Qed.

End Process.

(** The dictionary of ab and c: three bytes of names. *)
Lemma hash_process_adds_name_lengths_witness :
  dict_wf (dict_of ["ab"; "c"])
  /\ tuple_dictionary_hash_process (dict_of ["ab"; "c"]) (0, 0)
     = (Ok 3, (6144, 3)).
Proof.
  assert (Hwf : dict_wf (dict_of ["ab"; "c"])) by reflexivity.
  split; [exact Hwf|].
  rewrite (proj1 (hash_process_adds_name_lengths (dict_of ["ab"; "c"]) (0, 0) Hwf)).
  reflexivity.
Defined.

End DictionaryMoreSpec.

(** ** The build pass *)

Module BuildMoreSpec.
Import BuildIndexes BuildIndexesFacts BuildOverrunFacts Samples.

Section Spec.
Context {Index : Type} `{ops : IndexClass Index} `{limits : BoxLimits}.

Abbreviation world := (BuildIndexes.world Index).

(** X20.  The pass finds the end of the secondary keys of a space by the
    nil after them and by nothing else.  When the spaces before space [n]
    are as the pass expects them, and space [n] is enabled and has an
    index in every entry of its array from entry 1 on, at least one, the
    inner loop reads the entry after the last of the array: the pass does
    not return. *)
Theorem build_indexes_needs_nil_terminator
    (w : world) (n : nat) (sp : BuildIndexes.space_t Index) :
  length (space w) = BOX_SPACE_MAX ->
  space w !! n = Some sp ->
  Forall space_wf (take n (space w)) ->
  enabled sp = true ->
  (2 <= length (index sp))%nat ->
  (forall idx, (1 <= idx < length (index sp))%nat ->
                exists i, index sp !! idx = Some (Some i)) ->
  (build_indexes w).1 = Fault.
Proof.
  intros Hlen Hsp Hwf Hen Hlen2 Hall. unfold build_indexes. rewrite <- Hlen.
  apply (space_loop_overrun (space w) [] w (length (space w)) n sp); done.
Qed.

End Spec.

Lemma build_indexes_needs_nil_terminator_witness :
  length (space world_full) = 3%nat
  /\ enabled {| enabled := true; index := [ix HASH; ix TREE; ix HASH] |} = true
  /\ (build_indexes world_full).1 = Fault.
Proof.
  split; [reflexivity|]. split; [reflexivity|].
  apply (build_indexes_needs_nil_terminator world_full 0
           {| enabled := true; index := [ix HASH; ix TREE; ix HASH] |});
    try reflexivity.
  - constructor.
  - simpl. lia.
  - intros [|[|[|idx]]] Hidx; simpl in *; try lia; eauto.
Defined.

End BuildMoreSpec.
